(** * calls_mvp: a shallow embedding of the video-call signaling server

    The development follows the Go packages of the repository:
    - [chat]      internal/chat/chat.go      (bounded per-room chat log)
    - [recording] internal/recording/recorder.go (recording registry)
    - [server]    internal/server/server.go  (rooms, clients, signal fan-out,
                                              authentication middleware)
    - [auth]      package auth               (users, registration and login)

    Go values that are shared by reference (slices over backing arrays,
    [*Message], [*Recording], [*Room], channels) live in explicit stores, so
    that aliasing is visible in the statements.  What the Go runtime or a
    third-party library decides (the clock, uuid generation, slice growth,
    path joining, password hashing, JWT validation, the order of a map
    range) is an explicit input. *)

From stdpp Require Import gmap strings pretty list fin_maps.
From Stdlib Require Import ZArith Lia.

(** [time.Time] is represented by its nanosecond reading ([UnixNano]). *)
Definition Time := Z.

(* ===================================================================== *)
(** * Package chat *)
(* ===================================================================== *)
Module chat.

(** [type Message struct] *)
Record Message := mkMessage {
  ID : string;
  RoomID : string;
  UserID : string;
  Username : string;
  Content : string;
  Timestamp : Time
}.

(** A [*Message]: [None] is the nil pointer, [Some a] the address [a] of a
    message object. *)
Definition ref := option nat.

(** A Go slice header: a window [off, off+len) on backing array [arr], which
    may grow in place up to [off+cap).  The nil slice has [len = cap = 0]. *)
Record slice := mkSlice {
  s_arr : nat;
  s_off : nat;
  s_len : nat;
  s_cap : nat
}.

Definition nil_slice : slice := mkSlice 0 0 0 0.

(** The memory the package works on: backing arrays of [[]*Message] slices
    and the [Message] objects they point to. *)
Record Mem := mkMem {
  arrays : list (list ref);
  objects : list Message
}.

Definition empty_mem : Mem := mkMem [] [].

(** [type ChatManager struct { rooms map[string][]*Message; mu }] *)
Record ChatManager := mkChatManager {
  rooms : gmap string slice
}.

(** [NewChatManager] *)
Definition NewChatManager : ChatManager := mkChatManager ∅.

(** The elements a slice currently shows. *)
Definition elems (h : Mem) (s : slice) : list ref :=
  take (s_len s) (drop (s_off s) (default [] (arrays h !! s_arr s))).

(** [cm.rooms[roomID]] on a Go map: the zero value (nil slice) when absent. *)
Definition room_slice (cm : ChatManager) (roomID : string) : slice :=
  default nil_slice (rooms cm !! roomID).

(** [&Message{...}]: allocate a message object, return its address. *)
Definition new_message (h : Mem) (m : Message) : Mem * ref :=
  (mkMem (arrays h) (objects h ++ [m]), Some (length (objects h))).

(** [make([]*Message, n)]: a fresh zeroed array. *)
Definition make (h : Mem) (n : nat) : Mem * slice :=
  (mkMem (arrays h ++ [replicate n None]) (objects h),
   mkSlice (length (arrays h)) 0 n n).

(** [copy(dst, src)]: copies [min(len dst, len src)] elements. *)
Definition copy (h : Mem) (dst src : slice) : Mem :=
  let n := s_len dst `min` s_len src in
  let xs := take n (elems h src) in
  mkMem (alter (λ a, take (s_off dst) a ++ xs ++ drop (s_off dst + n) a)
               (s_arr dst) (arrays h))
        (objects h).

(** [s[i:]] for [i <= len s]. *)
Definition slice_from (s : slice) (i : nat) : slice :=
  mkSlice (s_arr s) (s_off s + i) (s_len s - i) (s_cap s - i).

(** [s[i] = x] for [i < len s] (an out-of-range index panics in Go and is
    never produced by the package; it is modelled as [None]). *)
Definition slice_set (h : Mem) (s : slice) (i : nat) (x : ref) : option Mem :=
  if decide (i < s_len s) then
    Some (mkMem (alter (λ a, <[s_off s + i := x]> a) (s_arr s) (arrays h))
                (objects h))
  else None.

Section WithRuntime.

(** The runtime's growth policy for [append]: [growslice oldcap needed] is the
    capacity of the reallocated array.  Go only guarantees that it is at least
    the needed length. *)
Variable growslice : nat → nat → nat.

(** [append(s, x)]: in place when capacity allows, otherwise on a fresh,
    larger array holding a copy of the elements. *)
Definition append (h : Mem) (s : slice) (x : ref) : Mem * slice :=
  if decide (s_len s < s_cap s) then
    (mkMem (alter (λ a, <[s_off s + s_len s := x]> a) (s_arr s) (arrays h))
           (objects h),
     mkSlice (s_arr s) (s_off s) (S (s_len s)) (s_cap s))
  else
    let c := growslice (s_cap s) (S (s_len s)) in
    (mkMem (arrays h ++ [elems h s ++ x :: replicate (c - S (s_len s)) None])
           (objects h),
     mkSlice (length (arrays h)) 0 (S (s_len s)) c).

(** [func (cm *ChatManager) AddMessage(roomID, userID, username, content)].
    [uuid] is the result of [uuid.New().String()] and [now] of [time.Now()]. *)
Definition AddMessage (uuid : string) (now : Time)
    (h : Mem) (cm : ChatManager) (roomID userID username content : string)
  : Mem * ChatManager * ref :=
  let '(h1, message) :=
    new_message h (mkMessage uuid roomID userID username content now) in
  let '(h2, s) := append h1 (room_slice cm roomID) message in
  let cm1 := mkChatManager (<[roomID := s]> (rooms cm)) in
  let cm2 :=
    if decide (100 < s_len (room_slice cm1 roomID)) then
      mkChatManager (<[roomID := slice_from (room_slice cm1 roomID) 1]> (rooms cm1))
    else cm1 in
  (h2, cm2, message).

End WithRuntime.

(** [func (cm *ChatManager) GetMessages(roomID)] *)
Definition GetMessages (h : Mem) (cm : ChatManager) (roomID : string)
  : Mem * slice :=
  let src := room_slice cm roomID in
  let '(h1, messages) := make h (s_len src) in
  (copy h1 messages src, messages).

(** [func (cm *ChatManager) GetRecentMessages(roomID, count int)].
    [make] with a negative length panics: [None]. *)
Definition GetRecentMessages (h : Mem) (cm : ChatManager) (roomID : string)
    (count : Z) : option (Mem * slice) :=
  let roomMessages := room_slice cm roomID in
  if decide (Z.of_nat (s_len roomMessages) ≤ count)%Z then
    let '(h1, messages) := make h (s_len roomMessages) in
    Some (copy h1 messages roomMessages, messages)
  else
    let startIndex := (Z.of_nat (s_len roomMessages) - count)%Z in
    if decide (count < 0)%Z then None
    else
      let '(h1, messages) := make h (Z.to_nat count) in
      Some (copy h1 messages (slice_from roomMessages (Z.to_nat startIndex)),
            messages).

(** [func (cm *ChatManager) DeleteMessagesForRoom(roomID)] *)
Definition DeleteMessagesForRoom (cm : ChatManager) (roomID : string)
  : ChatManager :=
  mkChatManager (delete roomID (rooms cm)).

(** What a pointer points to, and the messages a room's log holds. *)
Definition deref (h : Mem) (p : ref) : option Message :=
  p ≫= λ a, objects h !! a.

Definition history (h : Mem) (cm : ChatManager) (roomID : string)
  : list (option Message) :=
  deref h <$> elems h (room_slice cm roomID).

(** ** Runs of the package *)

(** One call of [AddMessage] together with what the environment supplied. *)
Record call := mkCall {
  c_uuid : string;
  c_now : Time;
  c_room : string;
  c_user : string;
  c_username : string;
  c_content : string
}.

(** The message object a call creates. *)
Definition message_of (c : call) : Message :=
  mkMessage (c_uuid c) (c_room c) (c_user c) (c_username c) (c_content c)
            (c_now c).

Inductive op :=
  | OpAdd (c : call)
  | OpGet (roomID : string)
  | OpGetRecent (roomID : string) (count : Z)
  | OpDelete (roomID : string).

Definition step (growslice : nat → nat → nat)
    (st : Mem * ChatManager) (o : op) : Mem * ChatManager :=
  match o with
  | OpAdd c =>
      (AddMessage growslice (c_uuid c) (c_now c) st.1 st.2
                  (c_room c) (c_user c) (c_username c) (c_content c)).1
  | OpGet r => ((GetMessages st.1 st.2 r).1, st.2)
  | OpGetRecent r n =>
      match GetRecentMessages st.1 st.2 r n with
      | Some (h, _) => (h, st.2)
      | None => st
      end
  | OpDelete r => (st.1, DeleteMessagesForRoom st.2 r)
  end.

Definition run (growslice : nat → nat → nat) (ops : list op)
  : Mem * ChatManager :=
  foldl (step growslice) (empty_mem, NewChatManager) ops.

(** States the package can be in. *)
Definition reachable (growslice : nat → nat → nat)
    (st : Mem * ChatManager) : Prop :=
  ∃ ops, run growslice ops = st.

(** The messages that arrived for one room, in arrival order, since the
    room's log was last deleted. *)
Definition arrived (roomID : string) (l : list Message) (o : op)
  : list Message :=
  match o with
  | OpAdd c => if decide (c_room c = roomID) then l ++ [message_of c] else l
  | OpDelete r => if decide (r = roomID) then [] else l
  | _ => l
  end.

Definition arrivals (roomID : string) (ops : list op) : list Message :=
  foldl (arrived roomID) [] ops.

(** The last [n] elements of a list. *)
Definition last_n {A} (n : nat) (l : list A) : list A :=
  drop (length l - n) l.

(** The slice [AddMessage] stores: the grown one, cut by one at the front
    when it got longer than 100. *)
Definition trimmed (s : slice) : slice :=
  if decide (100 < s_len s) then slice_from s 1 else s.

(** [h'] extends [h]: the same message objects, and every array of [h] is
    still there with the same cells. *)
Definition extends (h h' : Mem) : Prop :=
  objects h' = objects h ∧
  ∀ i, i < length (arrays h) → arrays h' !! i = arrays h !! i.

(** A growth policy to run examples with: at least double. *)
Definition double_growslice (oldcap needed : nat) : nat :=
  needed `max` (2 * oldcap).

(** [n] calls sending to one room, told apart by their time stamps. *)
Definition sample_calls (roomID : string) (n : nat) : list call :=
  (λ i, mkCall "uuid" (Z.of_nat i) roomID "u1" "alice" "hello") <$> seq 0 n.

(** ** Well-formedness of the store *)

(** A slice header fits its backing array. *)
Definition slice_ok (h : Mem) (s : slice) : Prop :=
  s_len s ≤ s_cap s ∧
  (s_cap s = 0 ∨
   ∃ a, arrays h !! s_arr s = Some a ∧ s_off s + s_cap s ≤ length a).

Definition valid_ref (h : Mem) (p : ref) : Prop :=
  match p with
  | None => True
  | Some a => a < length (objects h)
  end.

(** Every stored log fits its array, is bounded, points to allocated
    messages, and no two rooms share a backing array. *)
Definition wf (h : Mem) (cm : ChatManager) : Prop :=
  (∀ r s, rooms cm !! r = Some s →
     slice_ok h s ∧ s_len s ≤ 100 ∧ Forall (valid_ref h) (elems h s)) ∧
  (∀ r1 r2 s1 s2, r1 ≠ r2 →
     rooms cm !! r1 = Some s1 → rooms cm !! r2 = Some s2 →
     0 < s_cap s1 → 0 < s_cap s2 → s_arr s1 ≠ s_arr s2).

End chat.

(* ===================================================================== *)
(** * Package recording *)
(* ===================================================================== *)
Module recording.

(** [type Recording struct] *)
Record Recording := mkRecording {
  ID : string;
  RoomID : string;
  Filename : string;
  StartedAt : Time;
  EndedAt : Time;
  Active : bool
}.

(** The zero [time.Time] of a field that was never assigned. *)
Definition zero_time : Time := 0%Z.

Definition zero_recording : Recording :=
  mkRecording "" "" "" zero_time zero_time false.

#[export] Instance Recording_inhabited : Inhabited Recording :=
  populate zero_recording.

(** The [Recording] objects in memory; a [*Recording] is an index into it. *)
Abbreviation Heap := (list Recording).

(** [type Recorder struct { recordings map[string]*Recording; mu; basePath }] *)
Record Recorder := mkRecorder {
  recordings : gmap string nat;
  basePath : string
}.

(** A Go [error]: [nil] or a message built by [fmt.Errorf]. *)
Inductive error :=
  | nil
  | Errorf (msg : string).

(** [NewRecorder], once [os.MkdirAll] has succeeded. *)
Definition NewRecorder (basePath : string) : Recorder :=
  mkRecorder ∅ basePath.

Section WithFilepath.

(** [filepath.Join] of the Go library, on two elements: it joins them with
    the separator and cleans the result ([./recordings] becomes [recordings],
    [..] and doubled separators are resolved). *)
Variable filepath_Join : string → string → string.

(** [filepath.Join(r.basePath, fmt.Sprintf("%s_%s.webm", roomID, recordingID))] *)
Definition recording_filename (basePath roomID recordingID : string) : string :=
  filepath_Join basePath (roomID +:+ "_" +:+ recordingID +:+ ".webm").

(** [func (r *Recorder) StartRecording(roomID)].  [uuid] is the result of
    [uuid.New().String()], [now] of [time.Now()], and [created] the error
    value of [os.Create].  The recording is stored before the file is
    created, and stays stored when that fails. *)
Definition StartRecording (uuid : string) (now : Time) (created : error)
    (h : Heap) (r : Recorder) (roomID : string)
  : Heap * Recorder * (option nat * error) :=
  let recordingID := uuid in
  let filename := recording_filename (basePath r) roomID recordingID in
  let recording := length h in
  let h1 := h ++ [mkRecording recordingID roomID filename now zero_time true] in
  let r1 := mkRecorder (<[recordingID := recording]> (recordings r)) (basePath r) in
  match created with
  | nil => (h1, r1, (Some recording, nil))
  | Errorf err =>
      (h1, r1, (None, Errorf ("failed to create recording file: " +:+ err)))
  end.

(** [func (r *Recorder) StopRecording(recordingID)] *)
Definition StopRecording (now : Time) (h : Heap) (r : Recorder)
    (recordingID : string) : Heap * Recorder * error :=
  match recordings r !! recordingID with
  | None => (h, r, Errorf ("recording not found: " +:+ recordingID))
  | Some recording =>
      let rec := h !!! recording in
      if negb (Active rec) then
        (h, r, Errorf ("recording is not active: " +:+ recordingID))
      else
        (<[recording :=
             mkRecording (ID rec) (RoomID rec) (Filename rec) (StartedAt rec)
                         now false]> h,
         r, nil)
  end.

(** [func (r *Recorder) GetRecording(recordingID)] *)
Definition GetRecording (r : Recorder) (recordingID : string)
  : option nat * bool :=
  match recordings r !! recordingID with
  | Some recording => (Some recording, true)
  | None => (None, false)
  end.

(** [func (r *Recorder) ListRecordings(roomID)]: copies of the room's
    recordings, each a fresh object.  Go ranges over the map in an unspecified
    order; [map_to_list] stands for it. *)
Definition ListRecordings (h : Heap) (r : Recorder) (roomID : string)
  : Heap * list nat :=
  let found :=
    filter (λ rec, RoomID rec = roomID)
           ((λ kv, h !!! kv.2) <$> map_to_list (recordings r)) in
  (h ++ found, seq (length h) (length found)).

(** [func (r *Recorder) DeleteRecording(recordingID)].  [removed] is the
    error value of [os.Remove]. *)
Definition DeleteRecording (removed : error) (h : Heap) (r : Recorder)
    (recordingID : string) : Recorder * error :=
  match recordings r !! recordingID with
  | None => (r, Errorf ("recording not found: " +:+ recordingID))
  | Some recording =>
      match removed with
      | nil => (mkRecorder (delete recordingID (recordings r)) (basePath r), nil)
      | Errorf err =>
          (r, Errorf ("failed to delete recording file: " +:+ err))
      end
  end.

(** [func (r *Recorder) GetRecordingFilePath(recordingID)] *)
Definition GetRecordingFilePath (h : Heap) (r : Recorder)
    (recordingID : string) : string * error :=
  match recordings r !! recordingID with
  | None => ("", Errorf ("recording not found: " +:+ recordingID))
  | Some recording => (Filename (h !!! recording), nil)
  end.

(** The recording registered under an identifier. *)
Definition recording_at (h : Heap) (r : Recorder) (recordingID : string)
  : option Recording :=
  recordings r !! recordingID ≫= λ p, h !! p.

(** ** Runs of the package *)

Inductive op :=
  | OpStart (roomID uuid : string) (now : Time) (created : error)
  | OpStop (recordingID : string) (now : Time)
  | OpList (roomID : string)
  | OpDelete (recordingID : string) (removed : error).

Definition step (st : Heap * Recorder) (o : op) : Heap * Recorder :=
  match o with
  | OpStart roomID uuid now created =>
      (StartRecording uuid now created st.1 st.2 roomID).1
  | OpStop recordingID now => (StopRecording now st.1 st.2 recordingID).1
  | OpList roomID => ((ListRecordings st.1 st.2 roomID).1, st.2)
  | OpDelete recordingID removed =>
      (st.1, (DeleteRecording removed st.1 st.2 recordingID).1)
  end.

Definition run (basePath : string) (ops : list op) : Heap * Recorder :=
  foldl step ([], NewRecorder basePath) ops.

Definition reachable (st : Heap * Recorder) : Prop :=
  ∃ basePath ops, run basePath ops = st.

End WithFilepath.

(** A stand-in for [filepath.Join] to run examples with: what it returns for
    a clean relative directory and a plain file name. *)
Definition sample_Join (dir name : string) : string := dir +:+ "/" +:+ name.

(** Every registered pointer is allocated, and no two identifiers share a
    [Recording] object. *)
Definition wf (h : Heap) (r : Recorder) : Prop :=
  (∀ id p, recordings r !! id = Some p → p < length h) ∧
  (∀ id1 id2 p, recordings r !! id1 = Some p → recordings r !! id2 = Some p →
     id1 = id2).

End recording.

(* ===================================================================== *)
(** * Packages models and server *)
(* ===================================================================== *)
Module server.

(** ** Package models *)

(** [type SignalMessage struct].  [Data] is an [interface{}]; its type is a
    parameter. *)
Module SignalMessage.
Record t (any : Type) := mk {
  Type_ : string;
  Data : any;
  Timestamp : Time;
  SenderID : string
}.
Arguments mk {any}.
Arguments Type_ {any}.
Arguments Data {any}.
Arguments Timestamp {any}.
Arguments SenderID {any}.
End SignalMessage.

(** [type Client struct].  [Conn] and [Signal] are references (a peer
    connection, a channel); [None] is nil.  The server never assigns a field
    of a client after creating it, so the [*Client] values held by a room and
    by the connection callbacks are represented by the record itself. *)
Module Client.
Record t := mk {
  ID : string;
  UserID : string;
  Username : string;
  Conn : option nat;
  WebSocket : option nat;
  Signal : option nat;
  JoinedAt : Time;
  IsRecording : bool;
  RecordingID : string
}.
End Client.

(** [type Room struct] ([ChatHistory] is never used and left out; [Mu] is the
    lock under which each of the operations below runs atomically). *)
Module Room.
Record t := mk {
  ID : string;
  Name : string;
  CreatorID : string;
  Clients : gmap string Client.t;
  CreatedAt : Time;
  IsActive : bool
}.
Definition with_Clients (clients : gmap string Client.t) (r : t) : t :=
  mk (ID r) (Name r) (CreatorID r) clients (CreatedAt r) (IsActive r).
End Room.

(** A buffered Go channel [chan interface{}]. *)
Module Chan.
Record t (any : Type) := mk {
  buf : list (SignalMessage.t any);
  cap : nat;
  closed : bool
}.
Arguments mk {any}.
Arguments buf {any}.
Arguments cap {any}.
Arguments closed {any}.
End Chan.

(** What the server uses of github.com/pion/webrtc/v3. *)
Module webrtc.
Inductive PeerConnectionState :=
  | Unknown | New | Connecting | Connected | Disconnected | Failed | Closed.

Definition String (st : PeerConnectionState) : string :=
  match st with
  | Unknown => "unknown"
  | New => "new"
  | Connecting => "connecting"
  | Connected => "connected"
  | Disconnected => "disconnected"
  | Failed => "failed"
  | Closed => "closed"
  end.

(** A peer connection: whether [Close] was called, and the environment
    [(room, client)] captured by the callbacks [setupWebRTCEvents] registers. *)
Record PeerConnection := mkPeerConnection {
  isClosed : bool;
  handlers : option (nat * Client.t)
}.
End webrtc.

(** ** Package metrics: the counters and gauges of [type Metrics struct]
    (the histogram [CallDurationSeconds], never observed by the server, is
    left out).  Gauges are only ever set to counts. *)
Module Metrics.
Record t := mk {
  RoomsCreatedTotal : nat;
  RoomsActive : nat;
  RoomParticipants : gmap string nat;
  UsersRegisteredTotal : nat;
  UsersOnline : nat;
  WebSocketConnections : nat;
  WebSocketMessagesSent : gmap string nat;
  WebSocketErrorsTotal : nat;
  CallsStartedTotal : nat;
  CallsActive : nat;
  RecordingsStartedTotal : nat;
  RecordingsCompletedTotal : nat;
  RecordingErrorsTotal : nat;
  ChatMessagesSentTotal : nat
}.

Definition init : t := mk 0 0 ∅ 0 0 0 ∅ 0 0 0 0 0 0 0.

(** [IncrementRoomsCreated] *)
Definition IncrementRoomsCreated (m : t) : t :=
  mk (S (RoomsCreatedTotal m)) (RoomsActive m) (RoomParticipants m)
     (UsersRegisteredTotal m) (UsersOnline m) (WebSocketConnections m)
     (WebSocketMessagesSent m) (WebSocketErrorsTotal m) (CallsStartedTotal m)
     (CallsActive m) (RecordingsStartedTotal m) (RecordingsCompletedTotal m)
     (RecordingErrorsTotal m) (ChatMessagesSentTotal m).

(** [SetRoomsActive] *)
Definition SetRoomsActive (count : nat) (m : t) : t :=
  mk (RoomsCreatedTotal m) count (RoomParticipants m)
     (UsersRegisteredTotal m) (UsersOnline m) (WebSocketConnections m)
     (WebSocketMessagesSent m) (WebSocketErrorsTotal m) (CallsStartedTotal m)
     (CallsActive m) (RecordingsStartedTotal m) (RecordingsCompletedTotal m)
     (RecordingErrorsTotal m) (ChatMessagesSentTotal m).

(** [SetRoomParticipants] *)
Definition SetRoomParticipants (roomID : string) (count : nat) (m : t) : t :=
  mk (RoomsCreatedTotal m) (RoomsActive m)
     (<[roomID := count]> (RoomParticipants m))
     (UsersRegisteredTotal m) (UsersOnline m) (WebSocketConnections m)
     (WebSocketMessagesSent m) (WebSocketErrorsTotal m) (CallsStartedTotal m)
     (CallsActive m) (RecordingsStartedTotal m) (RecordingsCompletedTotal m)
     (RecordingErrorsTotal m) (ChatMessagesSentTotal m).
End Metrics.

(** ** What the handlers see of gin *)
Module gin.
(** The part of [*gin.Context] the handlers read: the [Authorization] header
    and the [token] query parameter (both [""] when absent), and the keys set
    by middleware. *)
Record Context := mkContext {
  Authorization : string;
  token : string;
  Keys : gmap string string
}.

Definition Set_ (key value : string) (c : Context) : Context :=
  mkContext (Authorization c) (token c) (<[key := value]> (Keys c)).

(** [c.JSON(code, gin.H{...})] *)
Record Response := JSON {
  code : nat;
  H : gmap string string
}.

(** The outcome of decoding a request body into a struct, before the
    [binding:"required"] tags are checked. *)
Inductive Body (A : Type) :=
  | Malformed (err : string)
  | Decoded (a : A).
Arguments Malformed {A}.
Arguments Decoded {A}.

Definition newline : string := String (Ascii.ascii_of_nat 10) "".

(** The validator's message for a required field left at its zero value. *)
Definition required_error (field : string) : string :=
  "Key: '" +:+ field +:+ "' Error:Field validation for '" +:+ field +:+
  "' failed on the 'required' tag".
End gin.

Definition StatusOK : nat := 200.
Definition StatusBadRequest : nat := 400.
Definition StatusUnauthorized : nat := 401.
Definition StatusNotFound : nat := 404.
Definition StatusInternalServerError : nat := 500.

(** [auth.Claims] *)
Record Claims := mkClaims {
  claims_UserID : string;
  claims_Username : string
}.

(** ** The server's state: the room registry [roomManager.Rooms], the [Room]
    objects, channels and peer connections it refers to, the metrics, the
    lines written with [log.Printf], and the number of readings taken from
    the clock so far. *)
Module Server.
Record t (any : Type) := mk {
  Rooms : gmap string nat;
  room_store : list Room.t;
  chan_store : list (Chan.t any);
  conn_store : list webrtc.PeerConnection;
  metrics : Metrics.t;
  log : list string;
  ticks : nat
}.
Arguments mk {any}.
Arguments Rooms {any}.
Arguments room_store {any}.
Arguments chan_store {any}.
Arguments conn_store {any}.
Arguments metrics {any}.
Arguments log {any}.
Arguments ticks {any}.

Section Setters.
Context {any : Type}.
Implicit Types s : t any.

Definition with_Rooms (x : gmap string nat) s : t any :=
  mk x (room_store s) (chan_store s) (conn_store s) (metrics s) (log s) (ticks s).
Definition with_room_store (x : list Room.t) s : t any :=
  mk (Rooms s) x (chan_store s) (conn_store s) (metrics s) (log s) (ticks s).
Definition with_chan_store (x : list (Chan.t any)) s : t any :=
  mk (Rooms s) (room_store s) x (conn_store s) (metrics s) (log s) (ticks s).
Definition with_conn_store (x : list webrtc.PeerConnection) s : t any :=
  mk (Rooms s) (room_store s) (chan_store s) x (metrics s) (log s) (ticks s).
Definition with_metrics (x : Metrics.t) s : t any :=
  mk (Rooms s) (room_store s) (chan_store s) (conn_store s) x (log s) (ticks s).
Definition with_log (x : list string) s : t any :=
  mk (Rooms s) (room_store s) (chan_store s) (conn_store s) (metrics s) x (ticks s).
Definition with_ticks (x : nat) s : t any :=
  mk (Rooms s) (room_store s) (chan_store s) (conn_store s) (metrics s) (log s) x.
End Setters.

(** [NewServer] *)
Definition NewServer {any : Type} : t any := mk ∅ [] [] [] Metrics.init [] 0.
End Server.

Section Handlers.
Context {any ICECandidate : Type}.

(** [candidate.ToJSON()], a function of pion. *)
Variable ToJSON : ICECandidate → any.
(** The clock: [time_Now n] is what the [n]-th call of [time.Now()] since the
    server started returns. *)
Variable time_Now : nat → Time.
(** [auth.ValidateJWT]: the claims of a token that parses and is valid. *)
Variable ValidateJWT : string → option Claims.

#[local] Abbreviation ServerT := (Server.t any).
Implicit Types s : ServerT.

(** [time.Now()] *)
Definition Now s : Time * ServerT :=
  (time_Now (Server.ticks s), Server.with_ticks (S (Server.ticks s)) s).

(** [fmt.Sprintf("room_%d", nanos)] and [fmt.Sprintf("client_%d", nanos)] *)
Definition room_id_of (nanos : Z) : string := "room_" +:+ pretty nanos.
Definition client_id_of (nanos : Z) : string := "client_" +:+ pretty nanos.

(** [generateRoomID], [generateClientID] *)
Definition generateRoomID s : string * ServerT :=
  let '(now, s1) := Now s in (room_id_of now, s1).
Definition generateClientID s : string * ServerT :=
  let '(now, s1) := Now s in (client_id_of now, s1).

(** [log.Printf] *)
Definition log_Printf (line : string) s : ServerT :=
  Server.with_log (Server.log s ++ [line]) s.

(** ** The authentication middleware.  A handler returns the new state and
    its response; [None] is a panic.  [next] is the rest of the handler
    chain, run by [c.Next()] and skipped after [c.Abort()]. *)
Definition authMiddleware {S : Type}
    (next : gin.Context → S → option (S * gin.Response))
    (c : gin.Context) (st : S) : option (S * gin.Response) :=
  let tokenString := gin.Authorization c in
  let tokenString :=
    if decide (tokenString = "") then gin.token c else tokenString in
  if decide (tokenString = "") then
    Some (st, gin.JSON StatusUnauthorized
                {["error" := "Authorization token required"]})
  else
    match ValidateJWT tokenString with
    | None =>
        Some (st, gin.JSON StatusUnauthorized {["error" := "Invalid token"]})
    | Some claims =>
        next (gin.Set_ "username" (claims_Username claims)
                (gin.Set_ "user_id" (claims_UserID claims) c)) st
    end.

(** [c.ShouldBindJSON(&req)] for a struct with one required string field. *)
Definition bind_one (field : string) (body : gin.Body string)
  : string + string :=
  match body with
  | gin.Malformed err => inl err
  | gin.Decoded v =>
      if decide (v = "") then inl (gin.required_error field) else inr v
  end.

(** [c.ShouldBindJSON(&req)] for the leave request: [RoomID] and [ClientID]
    are both required. *)
Definition bind_leave (body : gin.Body (string * string))
  : string + (string * string) :=
  match body with
  | gin.Malformed err => inl err
  | gin.Decoded (roomID, clientID) =>
      match decide (roomID = ""), decide (clientID = "") with
      | left _, left _ =>
          inl (gin.required_error "RoomID" +:+ gin.newline +:+
               gin.required_error "ClientID")
      | left _, right _ => inl (gin.required_error "RoomID")
      | right _, left _ => inl (gin.required_error "ClientID")
      | right _, right _ => inr (roomID, clientID)
      end
  end.

(** [func (s *Server) createRoomHandler(c *gin.Context)] *)
Definition createRoomHandler (body : gin.Body string)
    (c : gin.Context) s : option (ServerT * gin.Response) :=
  userID ← gin.Keys c !! "user_id";
  _ ← gin.Keys c !! "username";
  match bind_one "Name" body with
  | inl err => Some (s, gin.JSON StatusBadRequest {["error" := err]})
  | inr name =>
      let '(roomID, s1) := generateRoomID s in
      let '(now, s2) := Now s1 in
      let room := Room.mk roomID name userID ∅ now true in
      let s3 :=
        Server.with_Rooms
          (<[roomID := length (Server.room_store s2)]> (Server.Rooms s2))
          (Server.with_room_store (Server.room_store s2 ++ [room]) s2) in
      let s4 :=
        Server.with_metrics
          (Metrics.SetRoomsActive (size (Server.Rooms s3))
             (Metrics.IncrementRoomsCreated (Server.metrics s3))) s3 in
      Some (s4, gin.JSON StatusOK
                  (<["message" := "Room created successfully"]>
                   (<["room_id" := Room.ID room]>
                    {["name" := Room.Name room]})))
  end.

(** [func (s *Server) setupWebRTCEvents(room, client)]: registers the three
    callbacks on [client.Conn]; calling a method on a nil connection panics. *)
Definition setupWebRTCEvents (room : nat) (client : Client.t) s
  : option ServerT :=
  conn ← Client.Conn client;
  Some (Server.with_conn_store
          (alter (λ pc, webrtc.mkPeerConnection (webrtc.isClosed pc)
                          (Some (room, client)))
                 conn (Server.conn_store s)) s).

(** [func (s *Server) joinRoomHandler(c *gin.Context)].  [newPC] tells whether
    [webrtc.NewPeerConnection] succeeded. *)
Definition joinRoomHandler (body : gin.Body string) (newPC : bool)
    (c : gin.Context) s : option (ServerT * gin.Response) :=
  userID ← gin.Keys c !! "user_id";
  username ← gin.Keys c !! "username";
  match bind_one "RoomID" body with
  | inl err => Some (s, gin.JSON StatusBadRequest {["error" := err]})
  | inr roomID =>
      match Server.Rooms s !! roomID with
      | None => Some (s, gin.JSON StatusNotFound {["error" := "Room not found"]})
      | Some room =>
          if negb newPC then
            Some (s, gin.JSON StatusInternalServerError
                       {["error" := "Failed to create peer connection"]})
          else
            let peerConnection := length (Server.conn_store s) in
            let s1 :=
              Server.with_conn_store
                (Server.conn_store s ++ [webrtc.mkPeerConnection false None]) s in
            let '(clientID, s2) := generateClientID s1 in
            let signal := length (Server.chan_store s2) in
            let s3 :=
              Server.with_chan_store
                (Server.chan_store s2 ++ [Chan.mk [] 100 false]) s2 in
            let '(now, s4) := Now s3 in
            let client :=
              Client.mk clientID userID username (Some peerConnection) None
                        (Some signal) now false "" in
            r ← Server.room_store s4 !! room;
            let r' :=
              Room.with_Clients (<[Client.ID client := client]> (Room.Clients r)) r in
            let s5 :=
              Server.with_room_store (<[room := r']> (Server.room_store s4)) s4 in
            let s6 :=
              Server.with_metrics
                (Metrics.SetRoomParticipants (Room.ID r') (size (Room.Clients r'))
                   (Server.metrics s5)) s5 in
            s7 ← setupWebRTCEvents room client s6;
            Some (s7, gin.JSON StatusOK
                        (<["message" := "Joined room successfully"]>
                         (<["room_id" := Room.ID r']>
                          {["client_id" := Client.ID client]})))
      end
  end.

(** [client.Conn.Close()] *)
Definition Conn_Close (conn : nat) s : ServerT :=
  Server.with_conn_store
    (alter (λ pc, webrtc.mkPeerConnection true (webrtc.handlers pc))
           conn (Server.conn_store s)) s.

(** [close(ch)]: panics on a nil channel and on a closed one. *)
Definition close (ch : option nat) s : option ServerT :=
  ch ← ch;
  q ← Server.chan_store s !! ch;
  if Chan.closed q then None
  else Some (Server.with_chan_store
               (<[ch := Chan.mk (Chan.buf q) (Chan.cap q) true]>
                  (Server.chan_store s)) s).

(** [func (s *Server) leaveRoomHandler(c *gin.Context)] *)
Definition leaveRoomHandler (body : gin.Body (string * string))
    (c : gin.Context) s : option (ServerT * gin.Response) :=
  _ ← gin.Keys c !! "user_id";
  match bind_leave body with
  | inl err => Some (s, gin.JSON StatusBadRequest {["error" := err]})
  | inr (roomID, clientID) =>
      match Server.Rooms s !! roomID with
      | None => Some (s, gin.JSON StatusNotFound {["error" := "Room not found"]})
      | Some room =>
          r ← Server.room_store s !! room;
          match Room.Clients r !! clientID with
          | Some client =>
              let s1 :=
                match Client.Conn client with
                | Some conn => Conn_Close conn s
                | None => s
                end in
              s2 ← close (Client.Signal client) s1;
              let r' := Room.with_Clients (delete clientID (Room.Clients r)) r in
              let s3 :=
                Server.with_room_store (<[room := r']> (Server.room_store s2)) s2 in
              let s4 :=
                Server.with_metrics
                  (Metrics.SetRoomParticipants (Room.ID r') (size (Room.Clients r'))
                     (Server.metrics s3)) s3 in
              Some (s4, gin.JSON StatusOK
                          {["message" := "Left room successfully"]})
          | None =>
              Some (s, gin.JSON StatusNotFound {["error" := "Client not found"]})
          end
      end
  end.

(** [select { case ch <- m: ... default: ... }]: the send proceeds when the
    buffer has room, the default case runs when it is full, and a send on a
    closed channel panics.  Returns the channels and whether [m] was sent. *)
Definition try_send (ch : nat) (m : SignalMessage.t any)
    (chans : list (Chan.t any)) : option (list (Chan.t any) * bool) :=
  q ← chans !! ch;
  if Chan.closed q then None
  else if decide (length (Chan.buf q) < Chan.cap q) then
    Some (<[ch := Chan.mk (Chan.buf q ++ [m]) (Chan.cap q) false]> chans, true)
  else Some (chans, false).

(** The body of the [OnICECandidate] callback for a non-nil candidate:
    [for clientID, otherClient := range room.Clients { ... }], over the
    entries of the map in the order [order] the range visits them. *)
Fixpoint broadcast (client : Client.t) (candidate : ICECandidate)
    (order : list (string * Client.t)) s : option ServerT :=
  match order with
  | [] => Some s
  | (clientID, otherClient) :: rest =>
      match decide (clientID ≠ Client.ID client), Client.Signal otherClient with
      | left _, Some signal =>
          let data := ToJSON candidate in
          let '(now, s1) := Now s in
          let m := SignalMessage.mk "ice-candidate" data now (Client.ID client) in
          '(chans, sent) ← try_send signal m (Server.chan_store s1);
          let s2 := Server.with_chan_store chans s1 in
          if sent : bool then broadcast client candidate rest s2
          else
            broadcast client candidate rest
              (log_Printf ("Signal channel full for client " +:+ clientID) s2)
      | _, _ => broadcast client candidate rest s
      end
  end.

(** The [OnICECandidate] callback registered for [client] of [room]. *)
Definition OnICECandidate (room : nat) (client : Client.t)
    (candidate : option ICECandidate) (order : list (string * Client.t)) s
  : option ServerT :=
  match candidate with
  | Some candidate => broadcast client candidate order s
  | None => Some s
  end.

(** The [OnTrack] callback; [kind] is [track.Kind().String()]. *)
Definition OnTrack (client : Client.t) (kind : string) s : ServerT :=
  log_Printf ("Track received from client " +:+ Client.ID client +:+ ": "
              +:+ kind) s.

(** The [OnConnectionStateChange] callback registered for [client] of
    [room]. *)
Definition OnConnectionStateChange (room : nat) (client : Client.t)
    (state : webrtc.PeerConnectionState) s : option ServerT :=
  let s1 :=
    log_Printf ("Connection state changed for client " +:+ Client.ID client
                +:+ ": " +:+ webrtc.String state) s in
  match state with
  | webrtc.Closed | webrtc.Failed =>
      r ← Server.room_store s1 !! room;
      let r' :=
        Room.with_Clients (delete (Client.ID client) (Room.Clients r)) r in
      let s2 :=
        Server.with_room_store (<[room := r']> (Server.room_store s1)) s1 in
      Some (Server.with_metrics
              (Metrics.SetRoomParticipants (Room.ID r') (size (Room.Clients r'))
                 (Server.metrics s2)) s2)
  | _ => Some s1
  end.

(** A consumer takes the oldest pending event from a channel ([<-ch]). *)
Definition receive (ch : nat) s : option (SignalMessage.t any * ServerT) :=
  q ← Server.chan_store s !! ch;
  match Chan.buf q with
  | m :: rest =>
      Some (m, Server.with_chan_store
                 (<[ch := Chan.mk rest (Chan.cap q) (Chan.closed q)]>
                    (Server.chan_store s)) s)
  | [] => None
  end.

End Handlers.

(** ** Runs of the server *)

(** The requests to the protected room routes, with what the environment
    decides about them. *)
Inductive Request :=
  | CreateRoom (body : gin.Body string)
  | JoinRoom (body : gin.Body string) (newPC : bool)
  | LeaveRoom (body : gin.Body (string * string)).

Section Runs.
Context {any ICECandidate : Type}.
Variable ToJSON : ICECandidate → any.
Variable time_Now : nat → Time.
Variable ValidateJWT : string → option Claims.

#[local] Abbreviation ServerT := (Server.t any).
Implicit Types s : ServerT.

Definition handler (rq : Request)
  : gin.Context → ServerT → option (ServerT * gin.Response) :=
  match rq with
  | CreateRoom body => createRoomHandler time_Now body
  | JoinRoom body newPC => joinRoomHandler time_Now body newPC
  | LeaveRoom body => leaveRoomHandler body
  end.

(** A protected route: [authorized.Use(s.authMiddleware())] in front of the
    handler. *)
Definition serve (c : gin.Context) (rq : Request) s
  : option (ServerT * gin.Response) :=
  authMiddleware ValidateJWT (handler rq) c s.

(** The environment the callbacks of a connection captured. *)
Definition callbacks s (conn : nat) : option (nat * Client.t) :=
  Server.conn_store s !! conn ≫= webrtc.handlers.

(** [client] is in the client map of the room object [room] under
    [clientID]. *)
Definition registered s (room : nat) (clientID : string) (client : Client.t)
  : Prop :=
  ∃ r, Server.room_store s !! room = Some r ∧
       Room.Clients r !! clientID = Some client.

(** One atomic step: a request is served, pion runs a callback, or a consumer
    takes an event from a channel.  A range over the client map visits its
    entries in any order. *)
Inductive step : ServerT → ServerT → Prop :=
  | step_serve c rq s s' resp :
      serve c rq s = Some (s', resp) → step s s'
  | step_ice_candidate conn room client candidate order r s s' :
      callbacks s conn = Some (room, client) →
      Server.room_store s !! room = Some r →
      order ≡ₚ map_to_list (Room.Clients r) →
      OnICECandidate ToJSON time_Now room client candidate order s = Some s' →
      step s s'
  | step_track conn room client kind s :
      callbacks s conn = Some (room, client) →
      step s (OnTrack client kind s)
  | step_connection_state conn room client state s s' :
      callbacks s conn = Some (room, client) →
      OnConnectionStateChange room client state s = Some s' →
      step s s'
  | step_receive ch m s s' :
      receive ch s = Some (m, s') → step s s'.

Inductive reachable : ServerT → Prop :=
  | reachable_init : reachable Server.NewServer
  | reachable_step s s' : reachable s → step s s' → reachable s'.

(** A client the server knows: registered in a room, or captured by the
    callbacks of a connection. *)
Definition known s (client : Client.t) : Prop :=
  (∃ room clientID, registered s room clientID client) ∨
  (∃ conn room, callbacks s conn = Some (room, client)).

(** The invariant of the reachable states. *)
Record wf s : Prop := mk_wf {
  wf_rooms : ∀ id room,
    Server.Rooms s !! id = Some room → room < length (Server.room_store s);
  wf_room_ids : ∀ id room,
    Server.Rooms s !! id = Some room →
    ∃ n, n < Server.ticks s ∧ id = room_id_of (time_Now n);
  wf_room_objs : ∀ room r,
    Server.room_store s !! room = Some r →
    ∃ n, n < Server.ticks s ∧ Room.ID r = room_id_of (time_Now n);
  wf_callbacks : ∀ conn room client,
    callbacks s conn = Some (room, client) →
    room < length (Server.room_store s);
  wf_key : ∀ room k c, registered s room k c → Client.ID c = k;
  wf_home : ∀ room1 room2 k1 k2 c,
    registered s room1 k1 c → registered s room2 k2 c → room1 = room2;
  wf_open : ∀ room k c,
    registered s room k c →
    ∃ ch q, Client.Signal c = Some ch ∧
            Server.chan_store s !! ch = Some q ∧ Chan.closed q = false;
  wf_signal : ∀ c,
    known s c →
    ∃ ch, Client.Signal c = Some ch ∧ ch < length (Server.chan_store s);
  wf_owner : ∀ c1 c2,
    known s c1 → known s c2 → Client.Signal c1 = Client.Signal c2 → c1 = c2;
  wf_chan : ∀ ch q,
    Server.chan_store s !! ch = Some q →
    Chan.cap q = 100 ∧ length (Chan.buf q) ≤ 100
}.

(** How sends and receives may change the channels: none is created,
    closed or reopened, capacities stay, and a buffer that grew is within its
    capacity. *)
Definition chans_le (chans chans' : list (Chan.t any)) : Prop :=
  length chans' = length chans ∧
  ∀ ch q', chans' !! ch = Some q' →
    ∃ q, chans !! ch = Some q ∧ Chan.cap q' = Chan.cap q ∧
         Chan.closed q' = Chan.closed q ∧
         (length (Chan.buf q') ≤ length (Chan.buf q) ∨
          length (Chan.buf q') ≤ Chan.cap q).

(** The line logged when an event is dropped. *)
Definition full_line (clientID : string) : string :=
  "Signal channel full for client " +:+ clientID.

(** The event a fan-out from [client] builds at clock reading [n]. *)
Definition ice_message (client : Client.t) (candidate : ICECandidate)
    (n : nat) : SignalMessage.t any :=
  SignalMessage.mk "ice-candidate" (ToJSON candidate) (time_Now n)
                   (Client.ID client).

(** What a fan-out from [client] that took the server from [s] to [s'] and
    logged [lines] did for the client [c] stored under [k]: the channel of
    [c] had room and the event, stamped during the fan-out, was appended to
    it; or the channel held 100 events, is left as it was, and a line was
    logged. *)
Definition delivered_or_dropped (client : Client.t)
    (candidate : ICECandidate) (lines : list string) s s'
    (k : string) (c : Client.t) : Prop :=
  ∃ ch q, Client.Signal c = Some ch ∧
    Server.chan_store s !! ch = Some q ∧
    ((length (Chan.buf q) < 100 ∧
      ∃ n, Server.ticks s ≤ n < Server.ticks s' ∧
        Server.chan_store s' !! ch =
          Some (Chan.mk (Chan.buf q ++ [ice_message client candidate n])
                        100 false)) ∨
     (length (Chan.buf q) = 100 ∧
      Server.chan_store s' !! ch = Some q ∧ full_line k ∈ lines)).

End Runs.

(** ** A small instance to run the server on *)

(** Tokens: the only valid one belongs to user [u1]. *)
Definition sample_ValidateJWT (tokenString : string) : option Claims :=
  if decide (tokenString = "token-alice") then Some (mkClaims "u1" "alice")
  else None.

Definition sample_context : gin.Context := gin.mkContext "token-alice" "" ∅.

(** The context a handler sees once the middleware has accepted that
    token. *)
Definition sample_authorized : gin.Context :=
  gin.Set_ "username" "alice" (gin.Set_ "user_id" "u1" sample_context).

(** A clock that advances by one nanosecond per reading, and one that is
    stuck. *)
Definition ticking_clock (n : nat) : Time := Z.of_nat n.
Definition stuck_clock (n : nat) : Time := 42%Z.

(** Candidates and their JSON form are plain strings here. *)
Definition sample_ToJSON (candidate : string) : string :=
  "candidate:" +:+ candidate.

(** A drop is counted when it moves some counter or gauge of the metrics. *)
Definition drop_counted {any : Type} (s s' : Server.t any) : Prop :=
  Server.metrics s' ≠ Server.metrics s.

(** Serve a list of requests one after the other, as long as none panics. *)
Definition serve_all {any : Type} (time_Now : nat → Time)
    (rqs : list Request) (s : Server.t any) : option (Server.t any) :=
  foldl (λ os rq, s ← os;
           fst <$> serve time_Now sample_ValidateJWT sample_context rq s)
        (Some s) rqs.

(** One room, created by [u1], which two clients have joined. *)
Definition sample_requests : list Request :=
  [CreateRoom (gin.Decoded "standup");
   JoinRoom (gin.Decoded "room_0") true;
   JoinRoom (gin.Decoded "room_0") true].

Definition sample_state : Server.t string :=
  default Server.NewServer
    (serve_all ticking_clock sample_requests Server.NewServer).

Definition sample_sender : Client.t :=
  Client.mk "client_2" "u1" "alice" (Some 0) None (Some 0) 3%Z false "".
Definition sample_peer : Client.t :=
  Client.mk "client_4" "u1" "alice" (Some 1) None (Some 1) 5%Z false "".

Definition sample_room : Room.t :=
  Room.mk "room_0" "standup" "u1"
          (<["client_2" := sample_sender]> {["client_4" := sample_peer]})
          1%Z true.

(** [n] candidates of the first client fanned out one after the other while
    nobody drains the channels. *)
Definition fan_out (n : nat) (s : Server.t string) : option (Server.t string) :=
  Nat.iter n
    (λ os, s ← os;
       OnICECandidate sample_ToJSON ticking_clock 0 sample_sender (Some "host")
                      (map_to_list (Room.Clients sample_room)) s)
    (Some s).

Definition sample_full_state : Server.t string :=
  default Server.NewServer (fan_out 100 sample_state).

(** The same run under the stuck clock: both joins are given the identifier
    [client_42], and the second client takes the place of the first in the
    room, while the connection of the first stays. *)
Definition namesake_requests : list Request :=
  [CreateRoom (gin.Decoded "standup");
   JoinRoom (gin.Decoded "room_42") true;
   JoinRoom (gin.Decoded "room_42") true].

Definition sample_namesake_state : Server.t string :=
  default Server.NewServer
    (serve_all stuck_clock namesake_requests Server.NewServer).

Definition first_namesake : Client.t :=
  Client.mk "client_42" "u1" "alice" (Some 0) None (Some 0) 42%Z false "".
Definition second_namesake : Client.t :=
  Client.mk "client_42" "u1" "alice" (Some 1) None (Some 1) 42%Z false "".

(** The second client has left: its channel is closed. *)
Definition sample_left_state : Server.t string :=
  default Server.NewServer
    (serve_all ticking_clock
       (sample_requests ++ [LeaveRoom (gin.Decoded ("room_0", "client_4"))])
       Server.NewServer).

End server.

(* ===================================================================== *)
(** * More of package server: listing rooms, repeated fan-out, and the
      bookkeeping the handlers keep *)
(* ===================================================================== *)
Module server_ext.
Import server.

(** One entry of the list [listRoomsHandler] answers with. *)
Record RoomSummary := mkRoomSummary {
  id : string;
  name : string;
  creator_id : string;
  participant_count : nat;
  created_at : Time;
  is_active : bool
}.

Section Ext.
Context {any ICECandidate : Type}.
Variable ToJSON : ICECandidate → any.
Variable time_Now : nat → Time.

#[local] Abbreviation ServerT := (Server.t any).
Implicit Types s : ServerT.

(** [func (s *Server) listRoomsHandler(c *gin.Context)]: the list put under
    ["rooms"] in the 200 answer.  [order] is the order in which the range
    visits the entries of [s.roomManager.Rooms]. *)
Definition listRoomsHandler (order : list (string * nat)) s
  : option (list RoomSummary) :=
  mapM (λ kv, r ← Server.room_store s !! kv.2;
          Some (mkRoomSummary (Room.ID r) (Room.Name r) (Room.CreatorID r)
                              (size (Room.Clients r)) (Room.CreatedAt r)
                              (Room.IsActive r)))
       order.

(** The [OnICECandidate] callback of one client called once per candidate,
    each range over the client map in an order of its own. *)
Fixpoint fan_outs (room : nat) (client : Client.t)
    (events : list (ICECandidate * list (string * Client.t))) s
  : option ServerT :=
  match events with
  | [] => Some s
  | (candidate, order) :: rest =>
      s1 ← OnICECandidate ToJSON time_Now room client (Some candidate) order s;
      fan_outs room client rest s1
  end.

(** The registry maps the identifier of a room to that room. *)
Definition registry_ok s : Prop :=
  ∀ id p, Server.Rooms s !! id = Some p →
    ∃ r, Server.room_store s !! p = Some r ∧ Room.ID r = id.

(** Client identifiers come from earlier readings of the clock. *)
Definition client_ids_ok s : Prop :=
  ∀ p k c, registered s p k c →
    ∃ n, n < Server.ticks s ∧ k = client_id_of (time_Now n).



End Ext.

End server_ext.

(* ===================================================================== *)
(** * Package auth, and the two public handlers of the server that use it *)
(* ===================================================================== *)
Module auth.

(** [type User struct] *)
Record User := mkUser {
  ID : string;
  Username : string;
  Email : string;
  Password : string
}.

(** The package variables: [users] (a stored record is never assigned
    afterwards, so the pointers of the map are represented by the records
    they point to) and [idCounter].  The package takes no lock; its functions
    are modelled called one at a time. *)
Record State := mkState {
  users : gmap string User;
  idCounter : Z
}.

Definition init : State := mkState ∅ 0.

(** A [w]-bit signed integer after an operation that may overflow. *)
Definition wrap (w : Z) (z : Z) : Z :=
  ((z + 2 ^ (w - 1)) `mod` 2 ^ w - 2 ^ (w - 1))%Z.

Definition byte (z : Z) : Ascii.ascii := Ascii.ascii_of_N (Z.to_N z).

(** The replacement character U+FFFD in UTF-8. *)
Definition RuneError : string :=
  String (byte 239) (String (byte 191) (String (byte 189) "")).

(** [string(r)] for a rune [r]: the UTF-8 encoding of the code point [r], and
    of U+FFFD when [r] is not a valid code point. *)
Definition string_of_rune (r : Z) : string :=
  if decide (r < 0 ∨ 1114111 < r ∨ (55296 ≤ r ∧ r ≤ 57343))%Z then RuneError
  else if decide (r < 128)%Z then String (byte r) ""
  else if decide (r < 2048)%Z then
    String (byte (Z.lor 192 (Z.shiftr r 6)))
      (String (byte (Z.lor 128 (Z.land r 63))) "")
  else if decide (r < 65536)%Z then
    String (byte (Z.lor 224 (Z.shiftr r 12)))
      (String (byte (Z.lor 128 (Z.land (Z.shiftr r 6) 63)))
         (String (byte (Z.lor 128 (Z.land r 63))) ""))
  else
    String (byte (Z.lor 240 (Z.shiftr r 18)))
      (String (byte (Z.lor 128 (Z.land (Z.shiftr r 12) 63)))
         (String (byte (Z.lor 128 (Z.land (Z.shiftr r 6) 63)))
            (String (byte (Z.lor 128 (Z.land r 63))) ""))).

(** A valid code point: in range and not a surrogate. *)
Definition valid_rune (r : Z) : Prop :=
  (0 ≤ r ≤ 1114111 ∧ ¬ (55296 ≤ r ≤ 57343))%Z.

(** [generateUserID]: [idCounter++; return string(rune(idCounter))], with
    [int] of 64 bits and [rune] of 32. *)
Definition generateUserID (st : State) : string * State :=
  let counter := wrap 64 (idCounter st + 1) in
  (string_of_rune (wrap 32 counter), mkState (users st) counter).

Section WithBcrypt.

(** [HashPassword]: [bcrypt.GenerateFromPassword] at cost 14, an error or a
    hash. *)
Variable HashPassword : string → string + string.
(** [CheckPasswordHash password hash] *)
Variable CheckPasswordHash : string → string → bool.

(** The loop of [RegisterUser] over [users], in the order the range visits
    the entries: is there a user with this name or this e-mail address? *)
Fixpoint taken (username email : string) (order : list (string * User))
  : bool :=
  match order with
  | [] => false
  | (_, user) :: rest =>
      if decide (Username user = username ∨ Email user = email) then true
      else taken username email rest
  end.

(** [func RegisterUser(username, email, password string)]: an error message,
    or the user stored. *)
Definition RegisterUser (order : list (string * User))
    (username email password : string) (st : State)
  : State * (string + User) :=
  if taken username email order then (st, inl "user already exists")
  else
    match HashPassword password with
    | inl err => (st, inl err)
    | inr hashedPassword =>
        let '(id, st1) := generateUserID st in
        let user := mkUser id username email hashedPassword in
        (mkState (<[ID user := user]> (users st1)) (idCounter st1), inr user)
    end.

(** The loop of [AuthenticateUser]: the first user in range order whose name
    or e-mail address is the identifier. *)
Fixpoint find_user (identifier : string) (order : list (string * User))
  : option User :=
  match order with
  | [] => None
  | (_, u) :: rest =>
      if decide (Username u = identifier ∨ Email u = identifier) then Some u
      else find_user identifier rest
  end.

(** [func AuthenticateUser(identifier, password string)]: an error message,
    or the user found. *)
Definition AuthenticateUser (order : list (string * User))
    (identifier password : string) : string + User :=
  match find_user identifier order with
  | None => inl "user not found"
  | Some user =>
      if negb (CheckPasswordHash password (Password user)) then
        inl "invalid password"
      else inr user
  end.

(** [func GetUserByID(userID string)] *)
Definition GetUserByID (userID : string) (st : State) : option User :=
  users st !! userID.

(** States of the package: registrations from the initial state, each range
    visiting the users in some order. *)
Inductive reachable : State → Prop :=
  | reachable_init : reachable init
  | reachable_register st order username email password :
      reachable st →
      order ≡ₚ map_to_list (users st) →
      reachable (RegisterUser order username email password st).1.

(** ** The public handlers of the server (server.go) *)

(** [auth.GenerateJWT], an error or a token. *)
Variable GenerateJWT : string → string → string + string.

(** [func (m *Metrics) IncrementUsersRegistered()] *)
Definition IncrementUsersRegistered (m : server.Metrics.t) : server.Metrics.t :=
  server.Metrics.mk
    (server.Metrics.RoomsCreatedTotal m) (server.Metrics.RoomsActive m)
    (server.Metrics.RoomParticipants m)
    (S (server.Metrics.UsersRegisteredTotal m))
    (server.Metrics.UsersOnline m) (server.Metrics.WebSocketConnections m)
    (server.Metrics.WebSocketMessagesSent m)
    (server.Metrics.WebSocketErrorsTotal m)
    (server.Metrics.CallsStartedTotal m) (server.Metrics.CallsActive m)
    (server.Metrics.RecordingsStartedTotal m)
    (server.Metrics.RecordingsCompletedTotal m)
    (server.Metrics.RecordingErrorsTotal m)
    (server.Metrics.ChatMessagesSentTotal m).

(** The body of a register request, decoded. *)
Record register_body := mkRegisterBody {
  rb_username : string;
  rb_email : string;
  rb_password : string
}.

(** The validator's messages for the required fields left empty, one a line. *)
Definition missing (field value : string) : list string :=
  if decide (value = "") then [server.gin.required_error field] else [].

Fixpoint join_lines (lines : list string) : string :=
  match lines with
  | [] => ""
  | [l] => l
  | l :: rest => l +:+ server.gin.newline +:+ join_lines rest
  end.

(** [c.ShouldBindJSON(&req)] for the register request. *)
Definition bind_register (body : server.gin.Body register_body)
  : string + register_body :=
  match body with
  | server.gin.Malformed err => inl err
  | server.gin.Decoded req =>
      match missing "Username" (rb_username req) ++
            missing "Email" (rb_email req) ++
            missing "Password" (rb_password req) with
      | [] => inr req
      | errs => inl (join_lines errs)
      end
  end.

(** [func (s *Server) registerHandler(c *gin.Context)], on the users and the
    metrics. *)
Definition registerHandler (order : list (string * User))
    (body : server.gin.Body register_body) (st : State * server.Metrics.t)
  : (State * server.Metrics.t) * server.gin.Response :=
  match bind_register body with
  | inl err =>
      (st, server.gin.JSON server.StatusBadRequest {["error" := err]})
  | inr req =>
      match RegisterUser order (rb_username req) (rb_email req)
                         (rb_password req) st.1 with
      | (st1, inl err) =>
          ((st1, st.2),
           server.gin.JSON server.StatusBadRequest {["error" := err]})
      | (st1, inr user) =>
          ((st1, IncrementUsersRegistered st.2),
           server.gin.JSON server.StatusOK
             (<["message" := "User registered successfully"]>
              {["user_id" := ID user]}))
      end
  end.

(** [c.ShouldBindJSON(&req)] for the login request: identifier and
    password. *)
Definition bind_login (body : server.gin.Body (string * string))
  : string + (string * string) :=
  match body with
  | server.gin.Malformed err => inl err
  | server.gin.Decoded (identifier, password) =>
      match missing "Identifier" identifier ++ missing "Password" password with
      | [] => inr (identifier, password)
      | errs => inl (join_lines errs)
      end
  end.

(** [func (s *Server) loginHandler(c *gin.Context)] *)
Definition loginHandler (order : list (string * User))
    (body : server.gin.Body (string * string)) : server.gin.Response :=
  match bind_login body with
  | inl err => server.gin.JSON server.StatusBadRequest {["error" := err]}
  | inr (identifier, password) =>
      match AuthenticateUser order identifier password with
      | inl _ =>
          server.gin.JSON server.StatusUnauthorized
            {["error" := "Invalid credentials"]}
      | inr user =>
          match GenerateJWT (ID user) (Username user) with
          | inl _ =>
              server.gin.JSON server.StatusInternalServerError
                {["error" := "Failed to generate token"]}
          | inr token =>
              server.gin.JSON server.StatusOK
                (<["message" := "Login successful"]>
                 (<["token" := token]> {["user_id" := ID user]}))
          end
      end
  end.

(** Register requests served one after the other, each with the order its
    range took; the answers are collected. *)
Fixpoint register_all
    (requests : list (list (string * User) * server.gin.Body register_body))
    (st : State * server.Metrics.t)
  : (State * server.Metrics.t) * list server.gin.Response :=
  match requests with
  | [] => (st, [])
  | (order, body) :: rest =>
      let '(st1, response) := registerHandler order body st in
      let '(st2, responses) := register_all rest st1 in
      (st2, response :: responses)
  end.

End WithBcrypt.

(** The users stored when [n] registrations have succeeded since the start:
    the counter is [n], the keys are the encodings of [1..n], and all users
    are there but those that got the identifier of an earlier one. *)
Definition users_after (n : nat) (st : State) : Prop :=
  idCounter st = Z.of_nat n ∧
  (∀ k, is_Some (users st !! k) ↔
        ∃ c, (1 ≤ c ≤ Z.of_nat n)%Z ∧ k = string_of_rune c) ∧
  Z.of_nat (size (users st)) = (Z.of_nat n `min` 55296)%Z.

(** A stand-in for bcrypt to run examples with. *)
Definition sample_HashPassword (password : string) : string + string :=
  inr ("hash:" +:+ password).
Definition sample_CheckPasswordHash (password hash : string) : bool :=
  bool_decide (hash = "hash:" +:+ password).

(** Two registrations; the second user gives the name of the first as e-mail
    address. *)
Definition sample_first : State :=
  (RegisterUser sample_HashPassword [] "alice" "alice@example.org" "secret"
                init).1.
Definition sample_users : State :=
  (RegisterUser sample_HashPassword (map_to_list (users sample_first))
                "bob" "alice" "hunter2" sample_first).1.
Definition sample_GenerateJWT (userID username : string) : string + string :=
  inr ("token:" +:+ userID).

(** Three register requests; the last one asks for a name that is taken. *)
Definition sample_registrations
  : list (list (string * User) * server.gin.Body register_body) :=
  [([], server.gin.Decoded
          (mkRegisterBody "alice" "alice@example.org" "secret"));
   (map_to_list (users sample_first),
    server.gin.Decoded (mkRegisterBody "bob" "alice" "hunter2"));
   (map_to_list (users sample_users),
    server.gin.Decoded (mkRegisterBody "bob" "bob@example.org" "pw"))].
Definition alice : User :=
  mkUser (string_of_rune 1) "alice" "alice@example.org" "hash:secret".
Definition bob : User := mkUser (string_of_rune 2) "bob" "alice" "hash:hunter2".

End auth.


(* ===================================================================== *)
(** * Properties of package chat *)
(* ===================================================================== *)
Module chat_facts.
Import chat.

Lemma last_n_app_one {A} (n : nat) (l : list A) (x : A) :
  0 < n → last_n n (last_n n l ++ [x]) = last_n n (l ++ [x]).
Proof.
  intros Hn. unfold last_n.
  rewrite !length_app, length_drop. simpl.
  destruct (decide (length l ≤ n)) as [Hle|Hgt].
  - replace (length l - n) with 0 by lia. rewrite drop_0.
    by replace (length l - 0 + 1 - n) with (length l + 1 - n) by lia.
  - rewrite !drop_app_le by (rewrite ?length_drop; lia).
    rewrite drop_drop. f_equal. f_equal. lia.
Qed.

Lemma last_n_short {A} (n : nat) (l : list A) :
  length l ≤ n → last_n n l = l.
Proof. intros H. unfold last_n. by replace (length l - n) with 0 by lia. Qed.

Lemma last_n_fmap {A B} (f : A → B) n (l : list A) :
  last_n n (f <$> l) = f <$> last_n n l.
Proof. unfold last_n. by rewrite fmap_drop, length_fmap. Qed.

Lemma length_last_n {A} n (l : list A) : length (last_n n l) = n `min` length l.
Proof. unfold last_n. rewrite length_drop. lia. Qed.

Lemma elems_length h s : slice_ok h s → length (elems h s) = s_len s.
Proof.
  intros [Hle [H0|(a & Ha & Hfit)]]; unfold elems.
  - replace (s_len s) with 0 by lia. done.
  - rewrite Ha. simpl. rewrite length_take, length_drop. lia.
Qed.

Lemma elems_nil h : elems h nil_slice = [].
Proof. done. Qed.

Lemma elems_cap0 h s : slice_ok h s → s_cap s = 0 → elems h s = [].
Proof.
  intros [Hle _] H0. unfold elems. by replace (s_len s) with 0 by lia.
Qed.

Section Append.
Variable growslice : nat → nat → nat.
Hypothesis growslice_ge : ∀ oldcap needed, needed ≤ growslice oldcap needed.

Lemma append_elems h s x :
  slice_ok h s →
  elems (append growslice h s x).1 (append growslice h s x).2 = elems h s ++ [x].
Proof.
  intros Hok. pose proof (elems_length _ _ Hok) as Hlen.
  destruct Hok as [Hle Harr]. unfold append. case_decide as Hroom; simpl.
  - destruct Harr as [H0|(a & Ha & Hfit)]; [lia|].
    unfold elems. simpl. rewrite list_lookup_alter_eq, Ha. simpl.
    rewrite drop_insert_ge by lia.
    replace (s_off s + s_len s - s_off s) with (s_len s) by lia.
    rewrite (take_S_r _ _ x).
    + by rewrite take_insert_ge.
    + apply list_lookup_insert_eq. rewrite length_drop. lia.
  - unfold elems at 1. simpl.
    rewrite lookup_app_r, Nat.sub_diag by done. simpl.
    rewrite drop_0, cons_middle, (assoc_L (++)).
    apply take_app_length'. rewrite length_app. simpl. lia.
Qed.

Lemma append_slice_ok h s x :
  slice_ok h s →
  slice_ok (append growslice h s x).1 (append growslice h s x).2.
Proof.
  intros Hok. pose proof (elems_length _ _ Hok) as Hlen.
  destruct Hok as [Hle Harr]. unfold append. case_decide as Hroom; simpl.
  - destruct Harr as [H0|(a & Ha & Hfit)]; [lia|].
    split; simpl; [lia|]. right. exists (<[s_off s + s_len s := x]> a).
    rewrite list_lookup_alter_eq, Ha, length_insert. done.
  - pose proof (growslice_ge (s_cap s) (S (s_len s))) as Hg.
    split; simpl; [lia|]. right. eexists. split.
    + rewrite lookup_app_r, Nat.sub_diag by done. done.
    + rewrite length_app. simpl. rewrite length_replicate, Hlen. lia.
Qed.

(** Appending to [s] leaves every slice on another array as it was. *)
Lemma append_frame h s x s' :
  slice_ok h s' →
  (0 < s_cap s' → s_len s < s_cap s → s_arr s' ≠ s_arr s) →
  elems (append growslice h s x).1 s' = elems h s' ∧
  slice_ok (append growslice h s x).1 s'.
Proof.
  intros [Hle Harr] Hne.
  destruct Harr as [H0|(a & Ha & Hfit)].
  { split; [|split; auto]. unfold elems.
    by replace (s_len s') with 0 by lia. }
  unfold append. case_decide as Hroom; simpl.
  - destruct (decide (s_cap s' = 0)) as [H0|Hpos].
    { split; [|split; auto]. unfold elems.
      by replace (s_len s') with 0 by lia. }
    assert (s_arr s' ≠ s_arr s) as Hd by (apply Hne; lia).
    split.
    + unfold elems. simpl. by rewrite list_lookup_alter_ne.
    + split; [done|]. right. exists a. simpl.
      by rewrite list_lookup_alter_ne.
  - split.
    + unfold elems. simpl.
      by rewrite lookup_app_l by (by eapply lookup_lt_Some).
    + split; [done|]. right. exists a. simpl.
      by rewrite lookup_app_l by (by eapply lookup_lt_Some).
Qed.

(** The array a slice grown by [append] lives on: its old one, or a fresh
    one. *)
Lemma append_arr h s x :
  (s_len s < s_cap s ∧ s_arr (append growslice h s x).2 = s_arr s) ∨
  (¬ s_len s < s_cap s ∧
   s_arr (append growslice h s x).2 = length (arrays h)).
Proof. unfold append. case_decide; simpl; auto. Qed.

Lemma append_len h s x : s_len (append growslice h s x).2 = S (s_len s).
Proof. unfold append. by case_decide. Qed.

Lemma append_cap_pos h s x : 0 < s_cap (append growslice h s x).2.
Proof.
  unfold append. case_decide; simpl; [lia|].
  pose proof (growslice_ge (s_cap s) (S (s_len s))). lia.
Qed.

Lemma append_objects h s x :
  objects (append growslice h s x).1 = objects h.
Proof. unfold append. by case_decide. Qed.

End Append.

Lemma elems_slice_from h s i :
  i ≤ s_len s →
  elems h (slice_from s i) = drop i (elems h s).
Proof.
  intros Hi. unfold elems, slice_from. simpl.
  rewrite <- drop_drop, take_drop_commute.
  by replace (i + (s_len s - i)) with (s_len s) by lia.
Qed.

Lemma slice_from_ok h s i :
  slice_ok h s → i ≤ s_len s → slice_ok h (slice_from s i).
Proof.
  intros [Hle Harr] Hi. split; simpl; [lia|].
  destruct Harr as [H0|(a & Ha & Hfit)]; [left; lia|].
  right. exists a. split; [done|lia].
Qed.

Lemma nil_slice_ok h : slice_ok h nil_slice.
Proof. split; simpl; auto. Qed.

Lemma room_slice_ok h cm r : wf h cm → slice_ok h (room_slice cm r).
Proof.
  intros [Hwf _]. unfold room_slice.
  destruct (rooms cm !! r) as [s|] eqn:Hr; simpl.
  - by apply (Hwf r s).
  - apply nil_slice_ok.
Qed.

Lemma room_slice_valid h cm r :
  wf h cm → Forall (valid_ref h) (elems h (room_slice cm r)).
Proof.
  intros [Hwf _]. unfold room_slice.
  destruct (rooms cm !! r) as [s|] eqn:Hr; simpl.
  - by apply (Hwf r s).
  - constructor.
Qed.

Lemma room_slice_len h cm r : wf h cm → s_len (room_slice cm r) ≤ 100.
Proof.
  intros [Hwf _]. unfold room_slice.
  destruct (rooms cm !! r) as [s|] eqn:Hr; simpl.
  - by apply (Hwf r s).
  - lia.
Qed.

(** Allocating a message object changes no array and keeps old pointers. *)
Lemma deref_new_message h m p :
  valid_ref h p → deref (new_message h m).1 p = deref h p.
Proof.
  destruct p as [a|]; [|done]. simpl. intros Ha.
  by rewrite lookup_app_l.
Qed.

Lemma deref_new_message_fresh h m :
  deref (new_message h m).1 (new_message h m).2 = Some m.
Proof. simpl. by rewrite lookup_app_r, Nat.sub_diag. Qed.

Lemma valid_ref_mono h h' p :
  length (objects h) ≤ length (objects h') → valid_ref h p → valid_ref h' p.
Proof. destruct p; simpl; [lia|done]. Qed.

Section AddMessage.
Variable growslice : nat → nat → nat.
Hypothesis growslice_ge : ∀ oldcap needed, needed ≤ growslice oldcap needed.

Lemma AddMessage_unfold uuid now h cm r u n c :
  let m := mkMessage uuid r u n c now in
  let h1 := (new_message h m).1 in
  let p := (new_message h m).2 in
  let a := append growslice h1 (room_slice cm r) p in
  AddMessage growslice uuid now h cm r u n c =
    (a.1, mkChatManager (<[r := trimmed a.2]> (rooms cm)), p).
Proof.
  simpl. unfold AddMessage, new_message.
  destruct (append _ _ _ _) as [h2 s2]. simpl.
  unfold room_slice, trimmed. simpl. rewrite lookup_insert_eq. simpl.
  case_decide; [|done]. by rewrite insert_insert_eq.
Qed.

Lemma trimmed_elems h s :
  slice_ok h s → s_len s ≤ 101 →
  elems h (trimmed s) = last_n 100 (elems h s).
Proof.
  intros Hok Hle. unfold trimmed, last_n. rewrite (elems_length _ _ Hok).
  case_decide.
  - rewrite elems_slice_from by lia. f_equal. lia.
  - by replace (s_len s - 100) with 0 by lia.
Qed.

Lemma trimmed_ok h s : slice_ok h s → slice_ok h (trimmed s).
Proof.
  intros Hok. unfold trimmed. case_decide; [|done].
  apply slice_from_ok; [done|lia].
Qed.

Lemma trimmed_len s : s_len s ≤ 101 → s_len (trimmed s) ≤ 100.
Proof. unfold trimmed. case_decide; simpl; lia. Qed.

Lemma trimmed_arr s : s_arr (trimmed s) = s_arr s.
Proof. unfold trimmed. by case_decide. Qed.

Lemma AddMessage_spec uuid now h cm r u n c :
  wf h cm →
  let res := AddMessage growslice uuid now h cm r u n c in
  let m := mkMessage uuid r u n c now in
  wf res.1.1 res.1.2 ∧
  deref res.1.1 res.2 = Some m ∧
  history res.1.1 res.1.2 r = last_n 100 (history h cm r ++ [Some m]) ∧
  (∀ r', r' ≠ r → history res.1.1 res.1.2 r' = history h cm r').
Proof.
  intros Hwf. cbv zeta. rewrite AddMessage_unfold. cbv zeta.
  set (m := mkMessage uuid r u n c now).
  set (h1 := (new_message h m).1). set (p := (new_message h m).2).
  set (s := room_slice cm r).
  pose proof (room_slice_ok h cm r Hwf) as Hok.
  pose proof (room_slice_valid h cm r Hwf) as Hval.
  pose proof (room_slice_len h cm r Hwf) as Hlen.
  fold s in Hok, Hval, Hlen.
  assert (Harr1 : arrays h1 = arrays h) by done.
  assert (∀ t, slice_ok h t → slice_ok h1 t) as Hok1.
  { intros t. unfold slice_ok. by rewrite Harr1. }
  assert (∀ t, elems h1 t = elems h t) as Hel1.
  { intros t. unfold elems. by rewrite Harr1. }
  pose proof (append_elems growslice h1 s p (Hok1 _ Hok)) as Hel.
  pose proof (append_slice_ok growslice growslice_ge h1 s p (Hok1 _ Hok)) as Hok2.
  pose proof (append_len growslice h1 s p) as Hlen2.
  pose proof (append_cap_pos growslice growslice_ge h1 s p) as Hcap2.
  pose proof (append_objects growslice h1 s p) as Hobj2.
  pose proof (append_arr growslice h1 s p) as Harr2.
  pose proof (append_frame growslice h1 s p) as Hframe.
  destruct (append growslice h1 s p) as [h2 s2]. simpl in *.
  assert (Hderef : ∀ q, valid_ref h q → deref h2 q = deref h q).
  { intros q Hq. unfold deref. rewrite Hobj2.
    by apply (deref_new_message h m q). }
  assert (Hp : deref h2 p = Some m).
  { unfold deref. rewrite Hobj2. apply (deref_new_message_fresh h m). }
  assert (Hother : ∀ r' s', r' ≠ r → rooms cm !! r' = Some s' →
            elems h2 s' = elems h s' ∧ slice_ok h2 s').
  { intros r' s' Hne Hr'. destruct Hwf as [Hwf1 Hwf2].
    destruct (Hwf1 r' s' Hr') as (Hok' & _ & _).
    destruct (Hframe s' (Hok1 _ Hok')) as [He Ho]; [|by rewrite He, Hel1].
    intros Hc' Hroom. unfold s, room_slice in *.
    destruct (rooms cm !! r) as [s0|] eqn:Hr; simpl in *; [|lia].
    apply (Hwf2 r' r s' s0); auto. lia. }
  split; [|split; [done|split]].
  - (* well-formedness *)
    split; simpl.
    + intros r' s'. rewrite lookup_insert. case_decide as Hr.
      * intros [= <-]. split; [by apply trimmed_ok|].
        split; [apply trimmed_len; lia|].
        rewrite trimmed_elems by (done || lia). unfold last_n.
        apply Forall_drop. rewrite Hel, Hel1. apply Forall_app. split.
        -- eapply Forall_impl; [exact Hval|]. intros q Hq.
           eapply valid_ref_mono; [|exact Hq].
           rewrite Hobj2. simpl. rewrite length_app. lia.
        -- constructor; [|constructor]. simpl. rewrite Hobj2. simpl.
           rewrite length_app. simpl. lia.
      * intros Hr'. destruct (Hother r' s' (not_eq_sym Hr) Hr') as [He Ho].
        destruct Hwf as [Hwf1 _].
        destruct (Hwf1 r' s' Hr') as (_ & Hl & Hv).
        split; [done|]. split; [done|]. rewrite He.
        eapply Forall_impl; [exact Hv|]. intros q Hq.
        eapply valid_ref_mono; [|exact Hq].
        rewrite Hobj2. simpl. rewrite length_app. lia.
    + assert (Hfresh : ∀ r' s', r' ≠ r → rooms cm !! r' = Some s' →
                0 < s_cap s' → s_arr s' ≠ s_arr s2).
      { intros r' s' Hne Hr' Hc'. destruct Hwf as [Hwf1 Hwf2].
        destruct (Hwf1 r' s' Hr') as ([_ [H0|(a & Ha & _)]] & _ & _); [lia|].
        apply lookup_lt_Some in Ha.
        destruct Harr2 as [[Hroom ->]|[_ ->]]; [|lia].
        unfold s, room_slice in *.
        destruct (rooms cm !! r) as [s0|] eqn:Hr; simpl in *; [|lia].
        apply (Hwf2 r' r s' s0); auto. lia. }
      intros r1 r2 s1 s1' Hne. rewrite !lookup_insert.
      repeat case_decide; subst.
      * done.
      * intros [= <-] Hr2 _ Hc. rewrite trimmed_arr.
        apply not_eq_sym. by apply (Hfresh r2).
      * intros Hr1 [= <-] Hc _. rewrite trimmed_arr. by apply (Hfresh r1).
      * destruct Hwf as [_ Hwf2]. by apply Hwf2.
  - (* the room that received the message *)
    unfold history, room_slice. simpl. rewrite lookup_insert_eq. simpl.
    rewrite trimmed_elems by (done || lia).
    rewrite <- last_n_fmap. f_equal. rewrite Hel, Hel1, fmap_app.
    change (deref h2 <$> [p]) with [deref h2 p].
    rewrite Hp. f_equal. fold s.
    apply Forall_fmap_ext_1. eapply Forall_impl; [exact Hval|].
    intros q Hq. by apply Hderef.
  - (* every other room *)
    intros r' Hne. unfold history, room_slice. simpl.
    rewrite lookup_insert_ne by done.
    destruct (rooms cm !! r') as [s'|] eqn:Hr'; simpl; [|done].
    destruct (Hother r' s' Hne Hr') as [-> _].
    destruct Hwf as [Hwf1 _]. destruct (Hwf1 r' s' Hr') as (_ & _ & Hv).
    apply Forall_fmap_ext_1. eapply Forall_impl; [exact Hv|].
    intros q Hq. by apply Hderef.
Qed.

End AddMessage.

(** ** Reading: [make] and [copy] work on a fresh array *)

Lemma extends_frame h h' t :
  extends h h' → slice_ok h t →
  elems h' t = elems h t ∧ slice_ok h' t.
Proof.
  intros [_ Hext] [Hle Harr].
  destruct Harr as [H0|(a & Ha & Hfit)].
  { split; [|split; auto]. unfold elems.
    by replace (s_len t) with 0 by lia. }
  pose proof (lookup_lt_Some _ _ _ Ha) as Hlt.
  split.
  - unfold elems. by rewrite Hext.
  - split; [done|]. right. exists a. by rewrite Hext.
Qed.

Lemma extends_wf h h' cm : extends h h' → wf h cm → wf h' cm.
Proof.
  intros Hext [Hwf1 Hwf2]. split; [|done].
  intros r s Hr. destruct (Hwf1 r s Hr) as (Hok & Hl & Hv).
  destruct (extends_frame h h' s Hext Hok) as [-> Hok'].
  split; [done|]. split; [done|].
  eapply Forall_impl; [exact Hv|]. intros q Hq.
  eapply valid_ref_mono; [|exact Hq]. destruct Hext as [-> _]. done.
Qed.

Lemma extends_history h h' cm r :
  extends h h' → wf h cm → history h' cm r = history h cm r.
Proof.
  intros Hext Hwf. unfold history.
  destruct (extends_frame h h' _ Hext (room_slice_ok h cm r Hwf)) as [-> _].
  unfold deref. by destruct Hext as [-> _].
Qed.

(** [make] followed by [copy] from a source of the same length yields a
    slice on a fresh array that shows the source's elements. *)
Lemma make_copy h src k :
  slice_ok h src → s_len src = k →
  let h' := copy (make h k).1 (make h k).2 src in
  let dst := (make h k).2 in
  extends h h' ∧
  elems h' dst = elems h src ∧
  s_arr dst = length (arrays h) ∧ s_len dst = k ∧
  length (arrays h') = S (length (arrays h)) ∧
  slice_ok h' dst ∧ s_cap dst = k.
Proof.
  intros Hok Hk. simpl.
  assert (Hext : extends h (mkMem (arrays h ++ [replicate k None]) (objects h))).
  { split; [done|]. intros i Hi. simpl. by rewrite lookup_app_l. }
  destruct (extends_frame _ _ src Hext Hok) as [Hsrc _].
  pose proof (elems_length _ _ Hok) as Hlen.
  split; [|split; [|split; [done|split; [done|split; [|split; [|done]]]]]].
  - split; [done|]. intros i Hi. unfold copy. simpl.
    rewrite list_lookup_alter_ne by lia. by rewrite lookup_app_l.
  - unfold copy, elems at 1. simpl.
    rewrite list_lookup_alter_eq, lookup_app_r, Nat.sub_diag by done. simpl.
    rewrite Hsrc, Hk, Nat.min_id, drop_0.
    rewrite (take_ge (elems h src)) by lia.
    apply take_app_length'. lia.
  - unfold copy. simpl. rewrite length_alter, length_app. simpl. lia.
  - split; [done|]. right. unfold copy. simpl. eexists. split.
    + by rewrite list_lookup_alter_eq, lookup_app_r, Nat.sub_diag.
    + simpl. rewrite !length_app, length_take, length_drop, length_replicate.
      rewrite Hsrc, Hlen. lia.
Qed.

Lemma GetMessages_spec h cm r :
  wf h cm →
  let res := GetMessages h cm r in
  extends h res.1 ∧
  elems res.1 res.2 = elems h (room_slice cm r) ∧
  s_arr res.2 = length (arrays h).
Proof.
  intros Hwf. unfold GetMessages.
  pose proof (make_copy h (room_slice cm r) _ (room_slice_ok h cm r Hwf) eq_refl)
    as (Hext & Hel & Harr & _).
  simpl in *. done.
Qed.

Lemma GetRecentMessages_spec h cm r count :
  wf h cm → (0 ≤ count)%Z →
  ∃ h' res,
    GetRecentMessages h cm r count = Some (h', res) ∧
    extends h h' ∧
    elems h' res = last_n (Z.to_nat count) (elems h (room_slice cm r)) ∧
    s_arr res = length (arrays h) ∧
    s_len res = Z.to_nat count `min` s_len (room_slice cm r) ∧
    length (arrays h') = S (length (arrays h)) ∧
    slice_ok h' res ∧ s_cap res = s_len res.
Proof.
  intros Hwf Hcount. unfold GetRecentMessages.
  pose proof (room_slice_ok h cm r Hwf) as Hok.
  pose proof (elems_length _ _ Hok) as Hlen.
  set (s := room_slice cm r) in *.
  case_decide as Hall.
  - pose proof (make_copy h s _ Hok eq_refl)
      as (Hext & Hel & Harr & Hl & Hn & Hokd & Hcap).
    simpl in *. eexists _, _. split; [done|].
    split; [done|]. split; [|split; [done|split; [simpl; lia|done]]].
    rewrite Hel, last_n_short; [done|lia].
  - rewrite decide_False by lia.
    set (start := Z.to_nat (Z.of_nat (s_len s) - count)).
    assert (Hstart : start ≤ s_len s) by lia.
    pose proof (make_copy h (slice_from s start) (Z.to_nat count)
                  (slice_from_ok _ _ _ Hok Hstart)) as Hmc.
    destruct Hmc as (Hext & Hel & Harr & Hl & Hn & Hokd & Hcap); [simpl; lia|].
    simpl in *. eexists _, _. split; [done|].
    split; [done|]. split; [|split; [done|split; [simpl; lia|done]]].
    rewrite Hel, elems_slice_from by done. unfold last_n.
    f_equal. lia.
Qed.

(** Writing a cell of a slice that lives on an array allocated after [h]
    does not touch [h]. *)
Lemma slice_set_extends h h' res i x h'' :
  extends h h' → length (arrays h) ≤ s_arr res →
  slice_set h' res i x = Some h'' → extends h h''.
Proof.
  intros [Hobj Harr] Hfresh. unfold slice_set. case_decide; [|done].
  intros [= <-]. split; [done|]. intros j Hj. simpl.
  rewrite list_lookup_alter_ne by lia. by apply Harr.
Qed.

(** ** The invariant holds in every reachable state *)

Lemma wf_empty : wf empty_mem NewChatManager.
Proof. split; intros *; simpl; by rewrite ?lookup_empty. Qed.

Lemma wf_delete h cm r : wf h cm → wf h (DeleteMessagesForRoom cm r).
Proof.
  intros [Hwf1 Hwf2]. split; simpl.
  - intros r' s Hr. apply lookup_delete_Some in Hr as [_ Hr]. eauto.
  - intros r1 r2 s1 s2 Hne H1 H2.
    apply lookup_delete_Some in H1 as [_ H1].
    apply lookup_delete_Some in H2 as [_ H2]. eauto.
Qed.

Section Reachable.
Variable growslice : nat → nat → nat.
Hypothesis growslice_ge : ∀ oldcap needed, needed ≤ growslice oldcap needed.

Lemma chat_step_wf st o : wf st.1 st.2 → wf (step growslice st o).1 (step growslice st o).2.
Proof.
  destruct st as [h cm]. intros Hwf. destruct o as [c|r|r n|r]; simpl in *.
  - by apply (AddMessage_spec growslice growslice_ge).
  - destruct (GetMessages_spec h cm r Hwf) as (Hext & _).
    by apply (extends_wf h).
  - destruct (decide (0 ≤ n)%Z) as [Hn|Hn].
    + destruct (GetRecentMessages_spec h cm r n Hwf Hn)
        as (h' & res & -> & Hext & _). simpl. by apply (extends_wf h).
    + by destruct (GetRecentMessages h cm r n) as [[h' res']|] eqn:Hg;
        [|done]; unfold GetRecentMessages in Hg;
        rewrite decide_False, decide_True in Hg by lia.
  - by apply wf_delete.
Qed.

Lemma chat_reachable_wf st : reachable growslice st → wf st.1 st.2.
Proof.
  intros [ops <-]. unfold run.
  induction ops as [|o ops IH] using rev_ind; [apply wf_empty|].
  rewrite foldl_snoc. by apply chat_step_wf.
Qed.

Lemma step_history st o r :
  wf st.1 st.2 →
  ∀ l, history st.1 st.2 r = Some <$> last_n 100 l →
  history (step growslice st o).1 (step growslice st o).2 r =
    Some <$> last_n 100 (arrived r l o).
Proof.
  destruct st as [h cm]. intros Hwf l Hl. simpl in *.
  destruct o as [c|r0|r0 n|r0]; simpl.
  - destruct (AddMessage_spec growslice growslice_ge (c_uuid c) (c_now c)
                h cm (c_room c) (c_user c) (c_username c) (c_content c) Hwf)
      as (_ & _ & Hsame & Hother).
    case_decide as Hr.
    + subst r. rewrite Hsame, Hl.
      rewrite <- last_n_fmap, last_n_app_one by lia.
      by rewrite <- last_n_fmap, fmap_app.
    + rewrite Hother by done. done.
  - destruct (GetMessages_spec h cm r0 Hwf) as (Hext & _).
    by rewrite (extends_history h) by done.
  - destruct (decide (0 ≤ n)%Z) as [Hn|Hn].
    + destruct (GetRecentMessages_spec h cm r0 n Hwf Hn)
        as (h' & res & -> & Hext & _). simpl.
      by rewrite (extends_history h) by done.
    + by destruct (GetRecentMessages h cm r0 n) as [[h' res']|] eqn:Hg;
        [|done]; unfold GetRecentMessages in Hg;
        rewrite decide_False, decide_True in Hg by lia.
  - case_decide as Hr.
    + subst r0. unfold history, room_slice. simpl.
      by rewrite lookup_delete_eq.
    + rewrite <- Hl. unfold history, room_slice. simpl.
      by rewrite lookup_delete_ne.
Qed.

Lemma run_history ops r :
  history (run growslice ops).1 (run growslice ops).2 r =
    Some <$> last_n 100 (arrivals r ops).
Proof.
  unfold run, arrivals.
  induction ops as [|o ops IH] using rev_ind; [done|].
  rewrite !foldl_snoc. apply step_history; [|done].
  apply chat_reachable_wf. by exists ops.
Qed.

End Reachable.

(** ** The claims about the chat log *)

(** C5. The chat log of every room retains exactly the last 100 messages in
    arrival order: after any run of the package the log of a room is the last
    100 of the messages that arrived for it (so exactly 100 entries once more
    than 100 have arrived), and in any reachable state where a room's log
    holds exactly 100 messages, adding the 101st drops precisely the oldest
    one and keeps all the others in order, followed by the new one. *)
Theorem AddMessage_keeps_last_100 (growslice : nat → nat → nat)
    (growslice_ge : ∀ oldcap needed, needed ≤ growslice oldcap needed) :
  (∀ ops r,
     history (run growslice ops).1 (run growslice ops).2 r =
       Some <$> last_n 100 (arrivals r ops) ∧
     (100 < length (arrivals r ops) →
      length (history (run growslice ops).1 (run growslice ops).2 r) = 100)) ∧
  (∀ st c oldest rest,
     reachable growslice st →
     history st.1 st.2 (c_room c) = Some <$> (oldest :: rest) →
     length rest = 99 →
     history (step growslice st (OpAdd c)).1 (step growslice st (OpAdd c)).2
             (c_room c) = Some <$> (rest ++ [message_of c])).
Proof.
  split.
  - intros ops r. pose proof (run_history growslice growslice_ge ops r) as H.
    split; [done|]. intros Hlong. rewrite H, length_fmap, length_last_n. lia.
  - intros st c oldest rest Hreach Hhist Hlen.
    pose proof (chat_reachable_wf growslice growslice_ge st Hreach) as Hwf.
    rewrite (step_history growslice growslice_ge st (OpAdd c) (c_room c) Hwf
               (oldest :: rest)).
    + simpl. rewrite decide_True by done. f_equal. unfold last_n.
      rewrite length_cons, length_app, Hlen. done.
    + rewrite Hhist. f_equal. apply symmetry, last_n_short. simpl. lia.
Qed.

Lemma double_growslice_ge oldcap needed :
  needed ≤ double_growslice oldcap needed.
Proof. unfold double_growslice. lia. Defined.

Lemma AddMessage_keeps_last_100_witness :
  let ops : list op := OpAdd <$> sample_calls "standup" 101 in
  let st := run double_growslice (OpAdd <$> sample_calls "standup" 100) in
  let c := mkCall "uuid" 100%Z "standup" "u1" "alice" "hello" in
  history (run double_growslice ops).1 (run double_growslice ops).2 "standup"
    = Some <$> last_n 100 (arrivals "standup" ops) ∧
  length (history (run double_growslice ops).1 (run double_growslice ops).2
                  "standup") = 100 ∧
  history (step double_growslice st (OpAdd c)).1
          (step double_growslice st (OpAdd c)).2 "standup"
    = Some <$> (message_of <$> tail (sample_calls "standup" 100))
               ++ [message_of c].
Proof.
  intros ops st c.
  pose proof (AddMessage_keeps_last_100 double_growslice double_growslice_ge)
    as [Hrun Hstep].
  split; [apply Hrun|]. split.
  - apply Hrun. vm_compute. lia.
  - apply (Hstep st c (message_of (mkCall "uuid" 0%Z "standup" "u1" "alice" "hello"))).
    + by exists (OpAdd <$> sample_calls "standup" 100).
    + vm_compute. reflexivity.
    + vm_compute. reflexivity.
Defined.

(** C9. For a non-negative [count], [GetRecentMessages] returns exactly the
    last [min(count, number of stored messages)] messages of the room's log in
    stored order, and what it returns is a copy: the stored history of every
    room is the same after the call, after any assignment [res[i] = x] to the
    returned slice (which succeeds for every index below its length), and
    after appending to it. *)
Theorem GetRecentMessages_last_copy (growslice : nat → nat → nat)
    (st : Mem * ChatManager) (roomID : string) (count : Z) :
  (∀ oldcap needed, needed ≤ growslice oldcap needed) →
  reachable growslice st → (0 ≤ count)%Z →
  ∃ h' res,
    GetRecentMessages st.1 st.2 roomID count = Some (h', res) ∧
    deref h' <$> elems h' res =
      last_n (Z.to_nat count `min` length (history st.1 st.2 roomID))
             (history st.1 st.2 roomID) ∧
    (∀ r, history h' st.2 r = history st.1 st.2 r) ∧
    (∀ i x, i < length (elems h' res) → is_Some (slice_set h' res i x)) ∧
    (∀ i x h'', slice_set h' res i x = Some h'' →
       ∀ r, history h'' st.2 r = history st.1 st.2 r) ∧
    (∀ x r, history (append growslice h' res x).1 st.2 r =
            history st.1 st.2 r).
Proof.
  intros growslice_ge Hreach Hcount.
  pose proof (chat_reachable_wf growslice growslice_ge st Hreach) as Hwf.
  destruct st as [h cm]. simpl in *.
  pose proof (room_slice_ok h cm roomID Hwf) as Hok.
  destruct (GetRecentMessages_spec h cm roomID count Hwf Hcount)
    as (h' & res & Hget & Hext & Hel & Harr & Hlen & Hnew & Hokres & Hcap).
  exists h', res. split; [done|].
  split; [|split; [|split; [|split]]].
  - rewrite Hel. unfold history. rewrite length_fmap, (elems_length _ _ Hok).
    destruct Hext as [Hobj _]. unfold deref. rewrite Hobj.
    rewrite <- last_n_fmap. unfold last_n. rewrite !length_fmap.
    rewrite (elems_length _ _ Hok). f_equal. lia.
  - intros r. by apply extends_history.
  - intros i x Hi. rewrite (elems_length _ _ Hokres) in Hi.
    unfold slice_set. by rewrite decide_True.
  - intros i x h'' Hset r. apply extends_history; [|done].
    eapply slice_set_extends; [exact Hext| |exact Hset]. lia.
  - intros x r. apply extends_history; [|done].
    destruct Hext as [Hobj Hcells]. unfold append.
    rewrite decide_False by lia. simpl. split; [done|]. simpl.
    intros i Hi. rewrite lookup_app_l by lia. by apply Hcells.
Qed.

Lemma GetRecentMessages_last_copy_witness :
  let st := run double_growslice (OpAdd <$> sample_calls "standup" 3) in
  ∃ h' res,
    GetRecentMessages st.1 st.2 "standup" 2 = Some (h', res) ∧
    deref h' <$> elems h' res =
      last_n (Z.to_nat 2 `min` length (history st.1 st.2 "standup"))
             (history st.1 st.2 "standup") ∧
    (∀ r, history h' st.2 r = history st.1 st.2 r) ∧
    (∀ i x, i < length (elems h' res) → is_Some (slice_set h' res i x)) ∧
    (∀ i x h'', slice_set h' res i x = Some h'' →
       ∀ r, history h'' st.2 r = history st.1 st.2 r) ∧
    (∀ x r, history (append double_growslice h' res x).1 st.2 r =
            history st.1 st.2 r).
Proof.
  intros st.
  apply (GetRecentMessages_last_copy double_growslice st "standup" 2).
  - apply double_growslice_ge.
  - by exists (OpAdd <$> sample_calls "standup" 3).
  - lia.
Defined.

End chat_facts.

(* ===================================================================== *)
(** * Properties of package recording *)
(* ===================================================================== *)
Module recording_facts.
Import recording.

Lemma wf_new basePath : wf [] (NewRecorder basePath).
Proof. split; intros *; simpl; by rewrite lookup_empty. Qed.

Section WithFilepath.
Variable filepath_Join : string → string → string.

#[local] Abbreviation recording_filename :=
  (recording.recording_filename filepath_Join).
#[local] Abbreviation StartRecording := (recording.StartRecording filepath_Join).
#[local] Abbreviation step := (recording.step filepath_Join).
#[local] Abbreviation run := (recording.run filepath_Join).
#[local] Abbreviation reachable := (recording.reachable filepath_Join).

Lemma StartRecording_wf uuid now created h r roomID :
  wf h r →
  wf (StartRecording uuid now created h r roomID).1.1
     (StartRecording uuid now created h r roomID).1.2.
Proof.
  intros [Hval Hinj].
  assert (wf (h ++ [mkRecording uuid roomID
                      (recording_filename (basePath r) roomID uuid)
                      now zero_time true])
             (mkRecorder (<[uuid := length h]> (recordings r)) (basePath r)))
    as Hwf.
  { split; simpl.
    - intros id p. rewrite lookup_insert, length_app. simpl.
      case_decide; [intros [= <-]; lia|]. intros Hp%Hval. lia.
    - intros id1 id2 p. rewrite !lookup_insert.
      repeat case_decide; subst; try done.
      + intros [= <-] Hp%Hval. lia.
      + intros Hp%Hval [= <-]. lia.
      + apply Hinj. }
  unfold recording.StartRecording. by destruct created.
Qed.

Lemma StopRecording_wf now h r id :
  wf h r → wf (StopRecording now h r id).1.1 (StopRecording now h r id).1.2.
Proof.
  intros [Hval Hinj]. unfold StopRecording.
  destruct (recordings r !! id) as [p|]; [|done].
  destruct (Active (h !!! p)); cbn [negb fst snd]; [|done].
  split; [|done]. intros id' p'. rewrite length_insert. apply Hval.
Qed.

Lemma ListRecordings_wf h r roomID :
  wf h r → wf (ListRecordings h r roomID).1 r.
Proof.
  intros [Hval Hinj]. split; [|done]. intros id p Hp%Hval.
  unfold ListRecordings. simpl. rewrite length_app. lia.
Qed.

Lemma DeleteRecording_wf removed h r id :
  wf h r → wf h (DeleteRecording removed h r id).1.
Proof.
  intros [Hval Hinj]. unfold DeleteRecording.
  destruct (recordings r !! id) as [p|]; [|done].
  destruct removed; [|done]. split; simpl.
  - intros id' p' [_ Hp]%lookup_delete_Some. eauto.
  - intros id1 id2 p' [_ H1]%lookup_delete_Some [_ H2]%lookup_delete_Some.
    eauto.
Qed.

Lemma recorder_step_wf st o : wf st.1 st.2 → wf (step st o).1 (step st o).2.
Proof.
  destruct st as [h r]. intros Hwf. destruct o; simpl.
  - by apply StartRecording_wf.
  - by apply StopRecording_wf.
  - by apply ListRecordings_wf.
  - by apply DeleteRecording_wf.
Qed.

Lemma recorder_reachable_wf st : reachable st → wf st.1 st.2.
Proof.
  intros (basePath & ops & <-). unfold run.
  induction ops as [|o ops IH] using rev_ind; [apply wf_new|].
  rewrite foldl_snoc. by apply recorder_step_wf.
Qed.

(** C10. [StopRecording] returns an error exactly when the recording is
    absent from the registry or already inactive; in either error case the
    recorder's state (registry and recording objects) is unchanged; on success
    the registry is unchanged, the recording has [Active = false] and
    [EndedAt = now] with its other fields kept, and every other recording is
    untouched. *)
Theorem StopRecording_spec (st : Heap * Recorder) (recordingID : string)
    (now : Time) :
  reachable st →
  let res := StopRecording now st.1 st.2 recordingID in
  (res.2 ≠ nil ↔
     recordings st.2 !! recordingID = None ∨
     ∃ rec, recording_at st.1 st.2 recordingID = Some rec ∧
            Active rec = false) ∧
  (res.2 ≠ nil → res.1 = st) ∧
  (res.2 = nil →
     res.1.2 = st.2 ∧
     ∃ rec, recording_at st.1 st.2 recordingID = Some rec ∧
       Active rec = true ∧
       recording_at res.1.1 res.1.2 recordingID =
         Some (mkRecording (ID rec) (RoomID rec) (Filename rec)
                           (StartedAt rec) now false) ∧
       ∀ id', id' ≠ recordingID →
         recording_at res.1.1 res.1.2 id' = recording_at st.1 st.2 id').
Proof.
  intros Hreach. destruct (recorder_reachable_wf st Hreach) as [Hval Hinj].
  destruct st as [h r]. simpl in *. unfold StopRecording, recording_at.
  destruct (recordings r !! recordingID) as [p|] eqn:Hp; simpl.
  - pose proof (Hval _ _ Hp) as Hlt.
    destruct (lookup_lt_is_Some_2 h p Hlt) as [rec Hrec].
    rewrite (list_lookup_total_correct h p rec Hrec), Hrec.
    destruct (Active rec) eqn:Hact; cbn [negb fst snd].
    + split; [|split; [done|]].
      * split; [done|]. intros [[=]|(rec' & [= <-] & Hf)]. congruence.
      * intros _. split; [done|]. exists rec.
        split; [done|]. split; [done|]. split.
        -- rewrite Hp. simpl. by apply list_lookup_insert_eq.
        -- intros id' Hne. destruct (recordings r !! id') as [p'|] eqn:Hp';
             simpl; [|done].
           apply list_lookup_insert_ne. intros ->. apply Hne.
           by apply (Hinj id' recordingID p').
    + split; [|split; [done|done]].
      split; [|done]. intros _. right. by exists rec.
  - split; [|split; [done|done]]. split; [|done]. intros _. by left.
Qed.

End WithFilepath.

Lemma StopRecording_spec_witness :
  let st := run sample_Join "recordings"
              [OpStart "room_1" "rec-a" 5%Z nil; OpStart "room_1" "rec-b" 6%Z nil] in
  let res := StopRecording 9%Z st.1 st.2 "rec-a" in
  res.2 = nil ∧
  recording_at res.1.1 res.1.2 "rec-a" =
    Some (mkRecording "rec-a" "room_1" "recordings/room_1_rec-a.webm"
                      5%Z 9%Z false) ∧
  recording_at res.1.1 res.1.2 "rec-b" = recording_at st.1 st.2 "rec-b".
Proof.
  intros st res.
  assert (Hreach : reachable sample_Join st) by (by eexists _, _).
  destruct (StopRecording_spec sample_Join st "rec-a" 9%Z Hreach)
    as (_ & _ & Hok).
  assert (Hnil : res.2 = nil) by reflexivity.
  destruct (Hok Hnil) as (_ & rec & Hrec & _ & Hstop & Hother).
  split; [done|]. split.
  - vm_compute. reflexivity.
  - by apply Hother.
Defined.

End recording_facts.

(* ===================================================================== *)
(** * Properties of package server *)
(* ===================================================================== *)
Module server_facts.
Import server.

(** ** Authentication *)

(** C8. A protected request whose identity token is missing (no
    [Authorization] header and no [token] query parameter) or invalid
    ([ValidateJWT] fails on it) is answered with 401 Unauthorized and the rest
    of the handler chain does not run: whatever the handler behind the
    middleware is, the state is exactly what it was.  In particular the room
    routes leave the server's state untouched. *)
Theorem authMiddleware_rejects_before_state
    (ValidateJWT : string → option Claims) (c : gin.Context) :
  (gin.Authorization c = "" ∧ gin.token c = "") ∨
  ValidateJWT (if decide (gin.Authorization c = "") then gin.token c
               else gin.Authorization c) = None →
  (∀ (S : Type) (next : gin.Context → S → option (S * gin.Response)) (st : S),
     ∃ resp, authMiddleware ValidateJWT next c st = Some (st, resp) ∧
             gin.code resp = StatusUnauthorized) ∧
  (∀ (any : Type) (time_Now : nat → Time) (rq : Request) (s : Server.t any),
     ∃ resp, serve time_Now ValidateJWT c rq s = Some (s, resp) ∧
             gin.code resp = StatusUnauthorized).
Proof.
  intros Hbad.
  assert (∀ (S : Type) (next : gin.Context → S → option (S * gin.Response))
            (st : S),
            ∃ resp, authMiddleware ValidateJWT next c st = Some (st, resp) ∧
                    gin.code resp = StatusUnauthorized) as Hgen.
  { intros S next st. unfold authMiddleware.
    destruct Hbad as [[Hh Hq]|Hinv].
    - rewrite Hh. simpl. rewrite Hq. simpl. eauto.
    - destruct (decide ((if decide (gin.Authorization c = "") then gin.token c
                         else gin.Authorization c) = "")); [eauto|].
      rewrite Hinv. eauto. }
  split; [exact Hgen|]. intros any time_Now rq s. apply Hgen.
Qed.

Lemma authMiddleware_rejects_before_state_witness :
  ∃ resp,
    serve (any:=string) ticking_clock sample_ValidateJWT
          (gin.mkContext "" "forged" ∅) (CreateRoom (gin.Decoded "standup"))
          Server.NewServer
      = Some (Server.NewServer, resp) ∧
    gin.code resp = StatusUnauthorized.
Proof.
  apply (authMiddleware_rejects_before_state sample_ValidateJWT
           (gin.mkContext "" "forged" ∅)).
  right. reflexivity.
Defined.

(** ** Leaving a room *)

(** C4. After a successful removal of a client, removing the same client
    again reports NotFound ("Client not found", 404) and has no effect at
    all: the state after the second call is the state before it, so the
    Signal channel is not closed a second time and the room's client map is
    unchanged. *)
Theorem leaveRoomHandler_twice {any : Type}
    (body : gin.Body (string * string)) (c : gin.Context)
    (s s1 : Server.t any) (resp : gin.Response) :
  leaveRoomHandler body c s = Some (s1, resp) →
  gin.code resp = StatusOK →
  leaveRoomHandler body c s1 =
    Some (s1, gin.JSON StatusNotFound {["error" := "Client not found"]}).
Proof.
  unfold leaveRoomHandler.
  destruct (gin.Keys c !! "user_id") as [uid|]; simpl; [|done].
  destruct (bind_leave body) as [err|[roomID clientID]].
  { by intros [= <- <-]. }
  destruct (Server.Rooms s !! roomID) as [room|] eqn:Hroom.
  2:{ by intros [= <- <-]. }
  destruct (Server.room_store s !! room) as [r|] eqn:Hr; simpl; [|done].
  destruct (Room.Clients r !! clientID) as [client|] eqn:Hclient.
  2:{ by intros [= <- <-]. }
  set (s' := match Client.Conn client with
             | Some conn => Conn_Close conn s
             | None => s
             end).
  assert (Server.room_store s' = Server.room_store s ∧
          Server.Rooms s' = Server.Rooms s) as [Hstore' Hrooms'].
  { unfold s'. by destruct (Client.Conn client). }
  destruct (close (Client.Signal client) s') as [s2|] eqn:Hclose; simpl;
    [|done].
  assert (Server.room_store s2 = Server.room_store s ∧
          Server.Rooms s2 = Server.Rooms s) as [Hstore2 Hrooms2].
  { revert Hclose. unfold close.
    destruct (Client.Signal client) as [ch|]; simpl; [|done].
    destruct (Server.chan_store s' !! ch) as [q|]; simpl; [|done].
    destruct (Chan.closed q); [done|]. by intros [= <-]. }
  intros [= <- <-] _. simpl. rewrite Hrooms2, Hroom, Hstore2.
  rewrite list_lookup_insert_eq by (by eapply lookup_lt_Some). simpl.
  by rewrite lookup_delete_eq.
Qed.

Lemma leaveRoomHandler_twice_witness :
  let c := gin.mkContext "token-alice" ""
             (<["username" := "alice"]> {["user_id" := "u1"]}) in
  let body := gin.Decoded ("room_0", "client_2") in
  let s := default Server.NewServer
             (serve_all (any:=string) ticking_clock
                [CreateRoom (gin.Decoded "standup");
                 JoinRoom (gin.Decoded "room_0") true]
                Server.NewServer) in
  ∃ s1,
    leaveRoomHandler body c s =
      Some (s1, gin.JSON StatusOK {["message" := "Left room successfully"]}) ∧
    leaveRoomHandler body c s1 =
      Some (s1, gin.JSON StatusNotFound {["error" := "Client not found"]}).
Proof.
  intros c body s.
  assert (∃ s1, leaveRoomHandler body c s =
                  Some (s1, gin.JSON StatusOK
                              {["message" := "Left room successfully"]}))
    as [s1 H1] by (vm_compute; eexists; reflexivity).
  exists s1. split; [exact H1|].
  by apply (leaveRoomHandler_twice body c s s1 _ H1).
Defined.

(** ** The invariant of the reachable states *)

Section Invariant.
Context {any ICECandidate : Type}.
Variable ToJSON : ICECandidate → any.
Variable time_Now : nat → Time.
Variable ValidateJWT : string → option Claims.

#[local] Abbreviation ServerT := (Server.t any).
Implicit Types s : ServerT.

Lemma wf_init : wf time_Now (Server.NewServer (any:=any)).
Proof.
  assert (∀ room k c, ¬ registered (Server.NewServer (any:=any)) room k c)
    as Hreg by (by intros room k c (r & Hr & _)).
  assert (∀ c, ¬ known (Server.NewServer (any:=any)) c) as Hknown.
  { intros c [(room & k & H)|(conn & room & H)]; [by eapply Hreg|done]. }
  split; try done.
  - intros room k c H. by destruct (Hreg _ _ _ H).
  - intros ???? c H. by destruct (Hreg _ _ _ H).
  - intros room k c H. by destruct (Hreg _ _ _ H).
  - intros c H. by destruct (Hknown _ H).
  - intros c1 c2 H. by destruct (Hknown _ H).
Qed.

(** Steps that register no client keep the invariant. *)
Lemma wf_shrink_gen s s' :
  wf time_Now s →
  (∀ id room, Server.Rooms s' !! id = Some room →
     Server.Rooms s !! id = Some room ∨
     (room < length (Server.room_store s') ∧
      ∃ n, n < Server.ticks s' ∧ id = room_id_of (time_Now n))) →
  (∀ room r', Server.room_store s' !! room = Some r' →
     (∃ r, Server.room_store s !! room = Some r ∧ Room.ID r' = Room.ID r) ∨
     (∃ n, n < Server.ticks s' ∧ Room.ID r' = room_id_of (time_Now n))) →
  length (Server.room_store s) ≤ length (Server.room_store s') →
  Server.ticks s ≤ Server.ticks s' →
  (∀ room k c, registered s' room k c → registered s room k c) →
  (∀ conn, callbacks s' conn = callbacks s conn) →
  length (Server.chan_store s') = length (Server.chan_store s) →
  (∀ ch q', Server.chan_store s' !! ch = Some q' →
     ∃ q, Server.chan_store s !! ch = Some q ∧ Chan.cap q' = Chan.cap q ∧
          (length (Chan.buf q') ≤ length (Chan.buf q) ∨
           length (Chan.buf q') ≤ Chan.cap q)) →
  (∀ room k c ch q,
     registered s' room k c → Client.Signal c = Some ch →
     Server.chan_store s !! ch = Some q → Chan.closed q = false →
     ∃ q', Server.chan_store s' !! ch = Some q' ∧ Chan.closed q' = false) →
  wf time_Now s'.
Proof.
  intros Hwf HRooms Hobjs Hlen Hticks Hreg Hcb Hclen Hchan Hopen.
  assert (∀ c, known s' c → known s c) as Hknown.
  { intros c [(room & k & H)|(conn & room & H)].
    - left. exists room, k. by apply Hreg.
    - right. exists conn, room. by rewrite <- Hcb. }
  destruct Hwf. split.
  - intros id room H. destruct (HRooms _ _ H) as [H0|[H0 _]]; [|done].
    apply wf_rooms0 in H0. lia.
  - intros id room H. destruct (HRooms _ _ H) as [H0|[_ H0]]; [|done].
    destruct (wf_room_ids0 _ _ H0) as (n & Hn & ->). exists n. split; [lia|done].
  - intros room r' H. destruct (Hobjs _ _ H) as [(r & Hr & ->)|H0]; [|done].
    destruct (wf_room_objs0 _ _ Hr) as (n & Hn & ->). exists n. split; [lia|done].
  - intros conn room client. rewrite Hcb. intros H%wf_callbacks0. lia.
  - eauto.
  - eauto.
  - intros room k c H.
    destruct (wf_open0 _ _ _ (Hreg _ _ _ H)) as (ch & q & Hsig & Hq & Hcl).
    destruct (Hopen _ _ _ _ _ H Hsig Hq Hcl) as (q' & Hq' & Hcl').
    eauto.
  - intros c H. rewrite Hclen. eauto.
  - eauto.
  - intros ch q' H. destruct (Hchan _ _ H) as (q & Hq & Hcap & Hbuf).
    destruct (wf_chan0 _ _ Hq) as [Hc Hb]. split; [congruence|]. lia.
Qed.

Lemma wf_shrink s s' :
  wf time_Now s →
  Server.Rooms s' = Server.Rooms s →
  (∀ room r', Server.room_store s' !! room = Some r' →
     ∃ r, Server.room_store s !! room = Some r ∧ Room.ID r' = Room.ID r) →
  length (Server.room_store s') = length (Server.room_store s) →
  Server.ticks s ≤ Server.ticks s' →
  (∀ room k c, registered s' room k c → registered s room k c) →
  (∀ conn, callbacks s' conn = callbacks s conn) →
  length (Server.chan_store s') = length (Server.chan_store s) →
  (∀ ch q', Server.chan_store s' !! ch = Some q' →
     ∃ q, Server.chan_store s !! ch = Some q ∧ Chan.cap q' = Chan.cap q ∧
          (length (Chan.buf q') ≤ length (Chan.buf q) ∨
           length (Chan.buf q') ≤ Chan.cap q)) →
  (∀ room k c ch q,
     registered s' room k c → Client.Signal c = Some ch →
     Server.chan_store s !! ch = Some q → Chan.closed q = false →
     ∃ q', Server.chan_store s' !! ch = Some q' ∧ Chan.closed q' = false) →
  wf time_Now s'.
Proof.
  intros Hwf HRooms Hobjs Hlen. apply wf_shrink_gen; [done| | |lia].
  - intros id room. rewrite HRooms. auto.
  - intros room r' H. left. auto.
Qed.

Lemma with_Clients_same_ID (store : list Room.t) room r clients room' r' :
  store !! room = Some r →
  <[room := Room.with_Clients clients r]> store !! room' = Some r' →
  ∃ r0, store !! room' = Some r0 ∧ Room.ID r' = Room.ID r0.
Proof.
  intros Hr. destruct (decide (room' = room)) as [->|Hne].
  - rewrite list_lookup_insert_eq by (by eapply lookup_lt_Some).
    intros [= <-]. eauto.
  - rewrite list_lookup_insert_ne by done. eauto.
Qed.

Lemma chans_le_refl (chans : list (Chan.t any)) : chans_le chans chans.
Proof. split; [done|]. intros ch q Hq. exists q. repeat split; auto. Qed.

Lemma chans_le_trans (c1 c2 c3 : list (Chan.t any)) :
  chans_le c1 c2 → chans_le c2 c3 → chans_le c1 c3.
Proof.
  intros [Hl1 H1] [Hl2 H2]. split; [congruence|]. intros ch q3 Hq3.
  destruct (H2 _ _ Hq3) as (q2 & Hq2 & Hcap2 & Hcl2 & Hb2).
  destruct (H1 _ _ Hq2) as (q1 & Hq1 & Hcap1 & Hcl1 & Hb1).
  exists q1. split; [done|]. split; [congruence|]. split; [congruence|]. lia.
Qed.

Lemma chans_le_insert (chans : list (Chan.t any)) ch q q' :
  chans !! ch = Some q →
  Chan.cap q' = Chan.cap q → Chan.closed q' = Chan.closed q →
  (length (Chan.buf q') ≤ length (Chan.buf q) ∨
   length (Chan.buf q') ≤ Chan.cap q) →
  chans_le chans (<[ch := q']> chans).
Proof.
  intros Hq Hcap Hcl Hb. split; [by rewrite length_insert|].
  intros ch' q0. destruct (decide (ch' = ch)) as [->|Hne].
  - rewrite list_lookup_insert_eq by (by eapply lookup_lt_Some).
    intros [= <-]. eauto.
  - rewrite list_lookup_insert_ne by done. intros Hq0. exists q0.
    repeat split; auto.
Qed.

Lemma try_send_le ch m (chans chans' : list (Chan.t any)) sent :
  try_send ch m chans = Some (chans', sent) → chans_le chans chans'.
Proof.
  unfold try_send. destruct (chans !! ch) as [q|] eqn:Hq; simpl; [|done].
  destruct (Chan.closed q) eqn:Hcl; [done|]. case_decide as Hroom.
  - intros [= <- <-]. eapply chans_le_insert; eauto. simpl.
    right. rewrite length_app. simpl. lia.
  - intros [= <- <-]. apply chans_le_refl.
Qed.

(** What a fan-out leaves alone, whatever the order of the range. *)
Lemma broadcast_frame client candidate order s s' :
  broadcast ToJSON time_Now client candidate order s = Some s' →
  Server.Rooms s' = Server.Rooms s ∧
  Server.room_store s' = Server.room_store s ∧
  Server.conn_store s' = Server.conn_store s ∧
  Server.metrics s' = Server.metrics s ∧
  Server.ticks s ≤ Server.ticks s' ∧
  chans_le (Server.chan_store s) (Server.chan_store s').
Proof.
  revert s. induction order as [|[k c] rest IH]; intros s; simpl.
  { intros [= <-]. do 5 (split; [done|]). apply chans_le_refl. }
  destruct (decide (k ≠ Client.ID client)); [|by apply IH].
  destruct (Client.Signal c) as [ch|]; [|by apply IH].
  destruct (try_send ch _ _) as [[chans sent]|] eqn:Hsend; simpl; [|done].
  apply try_send_le in Hsend. simpl in Hsend.
  destruct sent; intros H; apply IH in H; simpl in H;
    destruct H as (-> & -> & -> & -> & Ht & Hle);
    (do 4 (split; [done|])); (split; [lia|]); by eapply chans_le_trans.
Qed.

Lemma wf_chans_le s s' :
  wf time_Now s →
  Server.Rooms s' = Server.Rooms s →
  Server.room_store s' = Server.room_store s →
  Server.conn_store s' = Server.conn_store s →
  Server.ticks s ≤ Server.ticks s' →
  chans_le (Server.chan_store s) (Server.chan_store s') →
  wf time_Now s'.
Proof.
  intros Hwf HR Hrs Hcs Ht [Hlen Hle].
  apply (wf_shrink s s' Hwf); auto.
  - rewrite Hrs. eauto.
  - by rewrite Hrs.
  - unfold registered. by rewrite Hrs.
  - unfold callbacks. by rewrite Hcs.
  - intros ch q' Hq'. destruct (Hle _ _ Hq') as (q & ? & ? & ? & ?). eauto.
  - intros room k c ch q _ _ Hq Hcl.
    destruct (lookup_lt_is_Some_2 (Server.chan_store s') ch) as [q' Hq'].
    { rewrite Hlen. by eapply lookup_lt_Some. }
    destruct (Hle _ _ Hq') as (q0 & Hq0 & _ & Hcl0 & _).
    exists q'. split; [done|]. congruence.
Qed.

Lemma wf_OnICECandidate room client candidate order s s' :
  wf time_Now s →
  OnICECandidate ToJSON time_Now room client candidate order s = Some s' →
  wf time_Now s'.
Proof.
  intros Hwf. destruct candidate as [cand|]; simpl; [|by intros [= <-]].
  intros (HR & Hrs & Hcs & _ & Ht & Hle)%broadcast_frame.
  by apply (wf_chans_le s s').
Qed.

Lemma wf_OnTrack client kind s :
  wf time_Now s → wf time_Now (OnTrack client kind s).
Proof.
  intros Hwf. apply (wf_chans_le s); auto. apply chans_le_refl.
Qed.

Lemma wf_receive ch m s s' :
  wf time_Now s → receive ch s = Some (m, s') → wf time_Now s'.
Proof.
  intros Hwf. unfold receive.
  destruct (Server.chan_store s !! ch) as [q|] eqn:Hq; simpl; [|done].
  destruct (Chan.buf q) as [|m' rest] eqn:Hbuf; [done|].
  intros [= <- <-]. apply (wf_chans_le s); auto. simpl.
  eapply chans_le_insert; eauto. simpl. left. rewrite Hbuf. simpl. lia.
Qed.

(** Deleting a key from the client map of one room. *)
Lemma registered_delete s s' room r k0 :
  Server.room_store s !! room = Some r →
  Server.room_store s' =
    <[room := Room.with_Clients (delete k0 (Room.Clients r)) r]>
      (Server.room_store s) →
  ∀ room' k c,
    registered s' room' k c ↔
    registered s room' k c ∧ ¬ (room' = room ∧ k = k0).
Proof.
  intros Hr Hs' room' k c. unfold registered. rewrite Hs'.
  destruct (decide (room' = room)) as [->|Hne].
  - rewrite list_lookup_insert_eq by (by eapply lookup_lt_Some).
    rewrite Hr. split.
    + intros (r' & [= <-] & Hk). simpl in Hk.
      apply lookup_delete_Some in Hk as [Hne Hk].
      split; [eauto|]. intros [_ ->]. done.
    + intros [(r' & [= <-] & Hk) Hne]. eexists. split; [done|]. simpl.
      apply lookup_delete_Some. split; [|done]. intros ->. by apply Hne.
  - rewrite list_lookup_insert_ne by done. split.
    + intros H. split; [done|]. intros [-> _]. done.
    + by intros [H _].
Qed.

Lemma wf_OnConnectionStateChange room client state s s' :
  wf time_Now s →
  OnConnectionStateChange room client state s = Some s' →
  wf time_Now s'.
Proof.
  intros Hwf. unfold OnConnectionStateChange.
  set (s1 := log_Printf _ s).
  assert (wf time_Now s1) as Hwf1.
  { apply (wf_chans_le s); auto. apply chans_le_refl. }
  assert (∀ s2, Some s1 = Some s2 → wf time_Now s2) as Hsame
    by (by intros ? [= <-]).
  destruct state; try apply Hsame.
  all: destruct (Server.room_store s1 !! room) as [r|] eqn:Hr; simpl; [|done].
  all: intros [= <-].
  all: match goal with
       | |- wf _ ?s2 =>
           pose proof (registered_delete s1 s2 room r (Client.ID client) Hr
                         eq_refl) as Hreg
       end.
  all: apply (wf_shrink s1); auto; simpl.
  all: try (by intros room' r'; apply with_Clients_same_ID).
  all: try (by rewrite length_insert).
  all: try (intros room' k c H; by apply Hreg, proj1 in H).
  all: try (intros ch q' Hq'; exists q'; repeat split; auto).
  all: intros room' k c ch q _ _ Hq Hcl; eauto.
Qed.

(** *** Requests *)

Lemma callbacks_Conn_Close conn0 s conn :
  callbacks (Conn_Close conn0 s) conn = callbacks s conn.
Proof.
  unfold callbacks, Conn_Close. simpl.
  destruct (decide (conn = conn0)) as [->|Hne].
  - rewrite list_lookup_alter_eq.
    by destruct (Server.conn_store s !! conn0).
  - by rewrite list_lookup_alter_ne.
Qed.

(** What [leaveRoomHandler] does when it answers 200, and that it does
    nothing otherwise. *)
Lemma leaveRoomHandler_inv body c s s' resp :
  leaveRoomHandler body c s = Some (s', resp) →
  (s' = s ∧ gin.code resp ≠ StatusOK) ∨
  (gin.code resp = StatusOK ∧
   ∃ roomID clientID room r client ch q,
     bind_leave body = inr (roomID, clientID) ∧
     Server.Rooms s !! roomID = Some room ∧
     Server.room_store s !! room = Some r ∧
     Room.Clients r !! clientID = Some client ∧
     Client.Signal client = Some ch ∧
     Server.chan_store s !! ch = Some q ∧ Chan.closed q = false ∧
     Server.Rooms s' = Server.Rooms s ∧
     Server.room_store s' =
       <[room := Room.with_Clients (delete clientID (Room.Clients r)) r]>
         (Server.room_store s) ∧
     Server.chan_store s' =
       <[ch := Chan.mk (Chan.buf q) (Chan.cap q) true]> (Server.chan_store s) ∧
     (∀ conn, callbacks s' conn = callbacks s conn) ∧
     Server.ticks s' = Server.ticks s ∧ Server.log s' = Server.log s).
Proof.
  unfold leaveRoomHandler.
  destruct (gin.Keys c !! "user_id") as [uid|]; simpl; [|done].
  destruct (bind_leave body) as [err|[roomID clientID]].
  { intros [= <- <-]. by left. }
  destruct (Server.Rooms s !! roomID) as [room|] eqn:Hroom.
  2:{ intros [= <- <-]. by left. }
  destruct (Server.room_store s !! room) as [r|] eqn:Hr; simpl; [|done].
  destruct (Room.Clients r !! clientID) as [client|] eqn:Hclient.
  2:{ intros [= <- <-]. by left. }
  set (s1 := match Client.Conn client with
             | Some conn => Conn_Close conn s
             | None => s
             end).
  assert (Server.room_store s1 = Server.room_store s ∧
          Server.Rooms s1 = Server.Rooms s ∧
          Server.chan_store s1 = Server.chan_store s ∧
          Server.ticks s1 = Server.ticks s ∧ Server.log s1 = Server.log s ∧
          ∀ conn, callbacks s1 conn = callbacks s conn)
    as (Hrs1 & HR1 & Hch1 & Ht1 & Hl1 & Hcb1).
  { unfold s1. destruct (Client.Conn client); [|done].
    repeat split; auto. intros. apply callbacks_Conn_Close. }
  unfold close. destruct (Client.Signal client) as [ch|] eqn:Hsig; simpl;
    [|done].
  rewrite Hch1.
  destruct (Server.chan_store s !! ch) as [q|] eqn:Hq; simpl; [|done].
  destruct (Chan.closed q) eqn:Hcl; simpl; [done|].
  intros [= <- <-]. right. split; [done|].
  exists roomID, clientID, room, r, client, ch, q. simpl.
  rewrite ?Hrs1, ?HR1, ?Hch1, ?Ht1, ?Hl1. repeat split; auto.
Qed.

Lemma wf_leaveRoomHandler body c s s' resp :
  wf time_Now s → leaveRoomHandler body c s = Some (s', resp) →
  wf time_Now s'.
Proof.
  intros Hwf [[-> _]|[_ H]]%leaveRoomHandler_inv; [done|].
  destruct H as (roomID & clientID & room & r & client & ch & q & _ & _ &
                 Hr & Hclient & Hsig & Hq & Hcl & HR & Hrs & Hch & Hcb &
                 Ht & _).
  pose proof (registered_delete s s' room r clientID Hr Hrs) as Hreg.
  apply (wf_shrink s s' Hwf); auto.
  - intros room' r'. rewrite Hrs. by apply with_Clients_same_ID.
  - by rewrite Hrs, length_insert.
  - lia.
  - intros room' k c' H. by apply Hreg in H as [H _].
  - by rewrite Hch, length_insert.
  - intros ch' q'. rewrite Hch. destruct (decide (ch' = ch)) as [->|Hne].
    + rewrite list_lookup_insert_eq by (by eapply lookup_lt_Some).
      intros [= <-]. exists q. simpl. auto.
    + rewrite list_lookup_insert_ne by done. intros Hq'. exists q'. auto.
  - intros room' k c' ch' q' H Hsig' Hq' Hcl'. rewrite Hch.
    apply Hreg in H as [H Hne]. exists q'. split; [|done].
    rewrite list_lookup_insert_ne; [done|]. intros <-.
    assert (registered s room clientID client) as Hregc by (by exists r).
    assert (c' = client) as ->.
    { apply (wf_owner _ _ Hwf); [left; eauto|left; eauto|congruence]. }
    apply Hne. split.
    + by apply (wf_home _ _ Hwf _ _ _ _ _ H Hregc).
    + rewrite <- (wf_key _ _ Hwf _ _ _ H). by apply (wf_key _ _ Hwf _ _ _ Hregc).
Qed.

(** What [createRoomHandler] does: with a body that does not bind it
    answers 400 and does nothing; otherwise it stores a new, empty room under
    the identifier made from the clock reading. *)
Lemma createRoomHandler_inv body c s s' resp :
  createRoomHandler time_Now body c s = Some (s', resp) →
  (s' = s ∧ gin.code resp = StatusBadRequest ∧
   ∃ err, bind_one "Name" body = inl err) ∨
  (∃ name userID,
     bind_one "Name" body = inr name ∧
     gin.Keys c !! "user_id" = Some userID ∧
     let roomID := room_id_of (time_Now (Server.ticks s)) in
     resp = gin.JSON StatusOK
              (<["message" := "Room created successfully"]>
               (<["room_id" := roomID]> {["name" := name]})) ∧
     Server.Rooms s' =
       <[roomID := length (Server.room_store s)]> (Server.Rooms s) ∧
     Server.room_store s' =
       Server.room_store s ++
       [Room.mk roomID name userID ∅ (time_Now (S (Server.ticks s))) true] ∧
     Server.chan_store s' = Server.chan_store s ∧
     Server.conn_store s' = Server.conn_store s ∧
     Server.ticks s' = S (S (Server.ticks s)) ∧
     Server.log s' = Server.log s).
Proof.
  unfold createRoomHandler.
  destruct (gin.Keys c !! "user_id") as [userID|]; simpl; [|done].
  destruct (gin.Keys c !! "username") as [username|]; simpl; [|done].
  destruct (bind_one "Name" body) as [err|name].
  - intros [= <- <-]. left. eauto.
  - intros [= <- <-]. right. exists name, userID. simpl. repeat split; auto.
Qed.

Lemma wf_createRoomHandler body c s s' resp :
  wf time_Now s → createRoomHandler time_Now body c s = Some (s', resp) →
  wf time_Now s'.
Proof.
  intros Hwf [(-> & _)|H]%createRoomHandler_inv; [done|].
  destruct H as (name & userID & _ & _ & _ & HR & Hrs & Hch & Hcs & Ht & _).
  assert (∀ room k c', registered s' room k c' → registered s room k c')
    as Hreg.
  { intros room k c' (r & Hr & Hk). rewrite Hrs in Hr.
    apply lookup_app_Some in Hr as [Hr|[_ Hr]]; [by exists r|].
    apply list_lookup_singleton_Some in Hr as [_ <-]. done. }
  apply (wf_shrink_gen s s' Hwf).
  - intros id room. rewrite HR, Hrs, length_app, Ht. simpl.
    rewrite lookup_insert. case_decide as Hid; [|auto].
    intros [= <-]. right. split; [lia|]. exists (Server.ticks s).
    split; [lia|done].
  - intros room r'. rewrite Hrs, Ht.
    intros [Hr|[_ Hr]]%lookup_app_Some; [left; eauto|].
    apply list_lookup_singleton_Some in Hr as [_ <-]. right.
    exists (Server.ticks s). split; [lia|done].
  - rewrite Hrs, length_app. lia.
  - lia.
  - done.
  - intros conn. unfold callbacks. by rewrite Hcs.
  - by rewrite Hch.
  - intros ch q'. rewrite Hch. intros Hq'. exists q'. auto.
  - intros room k c' ch q _ _. rewrite Hch. eauto.
Qed.

(** What [joinRoomHandler] does when it answers 200, and that it does nothing
    otherwise. *)
Lemma joinRoomHandler_inv body newPC c s s' resp :
  joinRoomHandler time_Now body newPC c s = Some (s', resp) →
  (s' = s ∧ gin.code resp ≠ StatusOK) ∨
  (gin.code resp = StatusOK ∧
   ∃ roomID room r userID username,
     bind_one "RoomID" body = inr roomID ∧
     Server.Rooms s !! roomID = Some room ∧
     Server.room_store s !! room = Some r ∧
     let client :=
       Client.mk (client_id_of (time_Now (Server.ticks s))) userID username
                 (Some (length (Server.conn_store s))) None
                 (Some (length (Server.chan_store s)))
                 (time_Now (S (Server.ticks s))) false "" in
     Server.Rooms s' = Server.Rooms s ∧
     Server.room_store s' =
       <[room := Room.with_Clients
                   (<[Client.ID client := client]> (Room.Clients r)) r]>
         (Server.room_store s) ∧
     Server.chan_store s' = Server.chan_store s ++ [Chan.mk [] 100 false] ∧
     Server.conn_store s' =
       Server.conn_store s ++
       [webrtc.mkPeerConnection false (Some (room, client))] ∧
     Server.ticks s' = S (S (Server.ticks s)) ∧
     Server.log s' = Server.log s).
Proof.
  unfold joinRoomHandler.
  destruct (gin.Keys c !! "user_id") as [userID|]; simpl; [|done].
  destruct (gin.Keys c !! "username") as [username|]; simpl; [|done].
  destruct (bind_one "RoomID" body) as [err|roomID].
  { intros [= <- <-]. by left. }
  destruct (Server.Rooms s !! roomID) as [room|] eqn:Hroom.
  2:{ intros [= <- <-]. by left. }
  destruct newPC; simpl.
  2:{ intros [= <- <-]. by left. }
  destruct (Server.room_store s !! room) as [r|] eqn:Hr; simpl; [|done].
  intros [= <- <-]. right. split; [done|].
  exists roomID, room, r, userID, username. simpl.
  do 6 (split; [done|]). split; [|done].
  rewrite alter_app_r_alt, Nat.sub_diag by done. done.
Qed.

Lemma wf_joinRoomHandler body newPC c s s' resp :
  wf time_Now s → joinRoomHandler time_Now body newPC c s = Some (s', resp) →
  wf time_Now s'.
Proof.
  intros Hwf [[-> _]|[_ H]]%joinRoomHandler_inv; [done|].
  destruct H as (roomID & room & r & userID & username & _ & HRoom & Hr & H).
  cbv zeta in H. set (client := Client.mk _ _ _ _ _ _ _ _ _) in H.
  destruct H as (HR & Hrs & Hch & Hcs & Ht & _).
  assert (∀ room' k c', registered s' room' k c' →
            (room' = room ∧ k = Client.ID client ∧ c' = client) ∨
            registered s room' k c') as Hreg.
  { intros room' k c' (r' & Hr' & Hk). rewrite Hrs in Hr'.
    destruct (decide (room' = room)) as [->|Hne].
    - rewrite list_lookup_insert_eq in Hr' by (by eapply lookup_lt_Some).
      injection Hr' as <-. simpl in Hk.
      apply lookup_insert_Some in Hk as [[<- <-]|[_ Hk]]; [by left|].
      right. by exists r.
    - rewrite list_lookup_insert_ne in Hr' by done. right. by exists r'. }
  assert (∀ conn x, callbacks s' conn = Some x →
            x = (room, client) ∨ callbacks s conn = Some x) as Hcb.
  { intros conn x. unfold callbacks. rewrite Hcs. intros H.
    destruct ((Server.conn_store s ++ _) !! conn) as [pc|] eqn:Hpc; [|done].
    apply lookup_app_Some in Hpc as [Hpc|[_ Hpc]].
    - right. by rewrite Hpc.
    - apply list_lookup_singleton_Some in Hpc as [_ <-]. left.
      simpl in H. congruence. }
  assert (∀ c', known s' c' → c' = client ∨ known s c') as Hknown.
  { intros c' [(room' & k & H)|(conn & room' & H)].
    - destruct (Hreg _ _ _ H) as [(_ & _ & ->)|H']; [by left|].
      right. left. eauto.
    - destruct (Hcb _ _ H) as [[= _ ->]|H']; [by left|].
      right. right. eauto. }
  assert (∀ c', known s c' → Client.Signal c' ≠ Client.Signal client)
    as Hfresh.
  { intros c' Hc' Heq. destruct (wf_signal _ _ Hwf _ Hc') as (ch & Hsig & Hlt).
    rewrite Hsig in Heq. simpl in Heq. injection Heq as ->. lia. }
  assert (∀ ch q, Server.chan_store s !! ch = Some q →
            Server.chan_store s' !! ch = Some q) as Hold.
  { intros ch q Hq. rewrite Hch. by apply lookup_app_l_Some. }
  split.
  - intros id room'. rewrite HR, Hrs, length_insert. apply (wf_rooms _ _ Hwf).
  - intros id room'. rewrite HR, Ht. intros H.
    destruct (wf_room_ids _ _ Hwf _ _ H) as (n & Hn & ->).
    exists n. split; [lia|done].
  - intros room' r'. rewrite Hrs, Ht. intros H.
    destruct (with_Clients_same_ID _ _ _ _ _ _ Hr H) as (r0 & Hr0 & ->).
    destruct (wf_room_objs _ _ Hwf _ _ Hr0) as (n & Hn & ->).
    exists n. split; [lia|done].
  - intros conn room' c' H. rewrite Hrs, length_insert.
    destruct (Hcb _ _ H) as [[= -> _]|H'].
    + by eapply lookup_lt_Some.
    + by apply (wf_callbacks _ _ Hwf _ _ _ H').
  - intros room' k c' H. destruct (Hreg _ _ _ H) as [(_ & -> & ->)|H'];
      [done|]. by apply (wf_key _ _ Hwf _ _ _ H').
  - intros room1 room2 k1 k2 c' H1 H2.
    destruct (Hreg _ _ _ H1) as [(-> & _ & ->)|H1'],
             (Hreg _ _ _ H2) as [(-> & _ & E2)|H2']; try done.
    + destruct (Hfresh client); [left; eauto|done].
    + subst c'. destruct (Hfresh client); [left; eauto|done].
    + by apply (wf_home _ _ Hwf _ _ _ _ _ H1' H2').
  - intros room' k c' H. destruct (Hreg _ _ _ H) as [(_ & _ & ->)|H'].
    + exists (length (Server.chan_store s)), (Chan.mk [] 100 false).
      split; [done|]. split; [|done]. rewrite Hch.
      by rewrite lookup_app_r, Nat.sub_diag.
    + destruct (wf_open _ _ Hwf _ _ _ H') as (ch & q & Hsig & Hq & Hcl).
      exists ch, q. auto.
  - intros c' H. rewrite Hch, length_app. simpl.
    destruct (Hknown _ H) as [->|H'].
    + eexists. split; [done|]. lia.
    + destruct (wf_signal _ _ Hwf _ H') as (ch & Hsig & Hlt).
      exists ch. split; [done|]. lia.
  - intros c1 c2 H1 H2 Heq.
    destruct (Hknown _ H1) as [->|H1'], (Hknown _ H2) as [->|H2']; try done.
    + by destruct (Hfresh _ H2').
    + by destruct (Hfresh _ H1').
    + by apply (wf_owner _ _ Hwf).
  - intros ch q. rewrite Hch. intros [Hq|[_ Hq]]%lookup_app_Some.
    + by apply (wf_chan _ _ Hwf _ _ Hq).
    + apply list_lookup_singleton_Some in Hq as [_ <-]. simpl. lia.
Qed.

(** *** Every reachable state satisfies the invariant *)

Lemma wf_serve c rq s s' resp :
  wf time_Now s → serve time_Now ValidateJWT c rq s = Some (s', resp) →
  wf time_Now s'.
Proof.
  intros Hwf. unfold serve, authMiddleware.
  case_decide; [by intros [= <- <-]|].
  destruct (ValidateJWT _); [|by intros [= <- <-]].
  destruct rq; simpl.
  - by apply wf_createRoomHandler.
  - by apply wf_joinRoomHandler.
  - by apply wf_leaveRoomHandler.
Qed.

Lemma wf_step s s' :
  wf time_Now s → step ToJSON time_Now ValidateJWT s s' → wf time_Now s'.
Proof.
  intros Hwf Hstep. destruct Hstep.
  - by eapply wf_serve.
  - by eapply wf_OnICECandidate.
  - by apply wf_OnTrack.
  - by eapply wf_OnConnectionStateChange.
  - by eapply wf_receive.
Qed.

Lemma reachable_wf s :
  reachable ToJSON time_Now ValidateJWT s → wf time_Now s.
Proof.
  induction 1 as [|s s' _ IH Hstep]; [apply wf_init|by eapply wf_step].
Qed.

(** ** Client identifiers *)

Lemma client_id_of_inj (m n : Z) : client_id_of m = client_id_of n → m = n.
Proof.
  unfold client_id_of. intros H. simpl in H. injection H as H.
  by apply (inj pretty).
Qed.

Lemma known_shrink s s' :
  (∀ room k c, registered s' room k c → registered s room k c) →
  (∀ conn, callbacks s' conn = callbacks s conn) →
  ∀ c, known s' c → known s c.
Proof.
  intros Hreg Hcb c [(room & k & H)|(conn & room & H)].
  - left. exists room, k. by apply Hreg.
  - right. exists conn, room. by rewrite <- Hcb.
Qed.

(** How a step changes the clients the server knows: it adds none, or it is
    a join, which adds the one client it made and named after the clock
    reading it took. *)
Lemma step_known s s' :
  step ToJSON time_Now ValidateJWT s s' →
  Server.ticks s ≤ Server.ticks s' ∧
  ((∀ c, known s' c → known s c) ∨
   (∃ client,
      Client.ID client = client_id_of (time_Now (Server.ticks s)) ∧
      Server.ticks s < Server.ticks s' ∧
      ∀ c, known s' c → c = client ∨ known s c)).
Proof.
  intros Hstep. destruct Hstep as
    [c rq s s' resp Hserve
    |conn room client candidate order r s s' Hcb Hr Hperm Hice
    |conn room client kind s Hcb
    |conn room client state s s' Hcb Hstate
    |ch m s s' Hrecv].
  - (* a request *)
    revert Hserve. unfold serve, authMiddleware.
    case_decide; [intros [= <- <-]; split; [lia|by left]|].
    destruct (ValidateJWT _) as [claims|];
      [|intros [= <- <-]; split; [lia|by left]].
    generalize (gin.Set_ "username" (claims_Username claims)
                  (gin.Set_ "user_id" (claims_UserID claims) c)).
    intros c'. destruct rq as [body|body newPC|body]; simpl.
    + intros [(-> & _)|Hinv]%createRoomHandler_inv; [split; [lia|by left]|].
      destruct Hinv as (name & userID & _ & _ & _ & _ & Hrs & _ & Hcs & Ht & _).
      split; [lia|]. left. apply known_shrink.
      * intros room k c0 (r & Hr & Hk). rewrite Hrs in Hr.
        apply lookup_app_Some in Hr as [Hr|[_ Hr]]; [by exists r|].
        apply list_lookup_singleton_Some in Hr as [_ <-]. done.
      * intros conn. unfold callbacks. by rewrite Hcs.
    + intros [[-> _]|[_ Hinv]]%joinRoomHandler_inv; [split; [lia|by left]|].
      destruct Hinv as (roomID & room & r & userID & username & _ & _ & Hr &
                        Hinv).
      cbv zeta in Hinv. set (client := Client.mk _ _ _ _ _ _ _ _ _) in Hinv.
      destruct Hinv as (_ & Hrs & _ & Hcs & Ht & _).
      split; [lia|]. right. exists client. split; [done|]. split; [lia|].
      intros c0 [(room' & k & (r' & Hr' & Hk))|(conn & room' & Hconn)].
      * rewrite Hrs in Hr'. destruct (decide (room' = room)) as [->|Hne].
        -- rewrite list_lookup_insert_eq in Hr' by (by eapply lookup_lt_Some).
           injection Hr' as <-. simpl in Hk.
           apply lookup_insert_Some in Hk as [[_ <-]|[_ Hk]]; [by left|].
           right. left. exists room, k, r. done.
        -- rewrite list_lookup_insert_ne in Hr' by done.
           right. left. exists room', k, r'. done.
      * revert Hconn. unfold callbacks. rewrite Hcs. intros Hconn.
        destruct ((Server.conn_store s ++ _) !! conn) as [pc|] eqn:Hpc; [|done].
        apply lookup_app_Some in Hpc as [Hpc|[_ Hpc]].
        -- right. right. exists conn, room'. unfold callbacks. by rewrite Hpc.
        -- apply list_lookup_singleton_Some in Hpc as [_ <-]. left.
           simpl in Hconn. congruence.
    + intros [[-> _]|[_ Hinv]]%leaveRoomHandler_inv; [split; [lia|by left]|].
      destruct Hinv as (roomID & clientID & room & r & client & ch & q & _ & _ &
                     Hr & _ & _ & _ & _ & _ & Hrs & _ & Hcb' & Ht & _).
      split; [lia|]. left. apply known_shrink; [|done].
      intros room' k c0 Hreg.
      by apply (registered_delete s s' room r clientID Hr Hrs) in Hreg
        as [Hreg _].
  - (* an ICE candidate *)
    destruct candidate as [cand|]; simpl in Hice;
      [|injection Hice as <-; split; [lia|by left]].
    pose proof (broadcast_frame _ _ _ _ _ Hice) as (_ & Hrs & Hcs & _ & Ht & _).
    split; [done|]. left. apply known_shrink.
    + unfold registered. by rewrite Hrs.
    + unfold callbacks. by rewrite Hcs.
  - split; [simpl; lia|]. by left.
  - (* a connection state change *)
    revert Hstate. unfold OnConnectionStateChange.
    destruct state; simpl; try (intros [= <-]; split; [simpl; lia|by left]).
    all: destruct (Server.room_store s !! room) as [r|] eqn:Hr; simpl; [|done].
    all: intros [= <-]; split; [simpl; lia|]; left.
    all: apply known_shrink; [|done].
    all: intros room' k c0 H.
    all: by eapply (registered_delete s _ room r (Client.ID client) Hr) in H
           as [H _].
  - (* a receive *)
    revert Hrecv. unfold receive.
    destruct (Server.chan_store s !! ch) as [q|]; simpl; [|done].
    destruct (Chan.buf q); [done|]. intros [= _ <-].
    split; [simpl; lia|]. by left.
Qed.

(** When no two clock readings are equal, the clients the server knows,
    registered in a room or captured by the callbacks of a connection, have
    identifiers of their own. *)
Lemma reachable_known_ids s :
  (∀ m n, time_Now m = time_Now n → m = n) →
  reachable ToJSON time_Now ValidateJWT s →
  (∀ c, known s c →
     ∃ n, n < Server.ticks s ∧ Client.ID c = client_id_of (time_Now n)) ∧
  (∀ c1 c2, known s c1 → known s c2 → Client.ID c1 = Client.ID c2 → c1 = c2).
Proof.
  intros Hclock. induction 1 as [|s s' Hreach [IHid IHuniq] Hstep].
  { assert (∀ c, ¬ known (Server.NewServer (any:=any)) c) as Hknown.
    { intros c [(room & k & (r & Hr & _))|(conn & room & H)]; done. }
    split; [intros c H|intros c1 c2 H]; by destruct (Hknown _ H). }
  destruct (step_known s s' Hstep) as [Ht [Hold|(client & Hid & Hlt & Hnew)]].
  - split.
    + intros c Hc. destruct (IHid c (Hold c Hc)) as (n & Hn & Heq).
      exists n. split; [lia|done].
    + intros c1 c2 H1 H2. apply IHuniq; by apply Hold.
  - assert (∀ c, known s c → Client.ID c ≠ Client.ID client) as Hfresh.
    { intros c Hc Heq. destruct (IHid c Hc) as (n & Hn & Hidc).
      rewrite Hidc, Hid in Heq. apply client_id_of_inj, Hclock in Heq. lia. }
    split.
    + intros c Hc. destruct (Hnew c Hc) as [->|Hc'].
      * exists (Server.ticks s). split; [lia|done].
      * destruct (IHid c Hc') as (n & Hn & Heq). exists n. split; [lia|done].
    + intros c1 c2 H1 H2 Heq.
      destruct (Hnew c1 H1) as [->|H1'], (Hnew c2 H2) as [->|H2']; try done.
      * by destruct (Hfresh c2 H2').
      * by destruct (Hfresh c1 H1').
      * by apply IHuniq.
Qed.

(** So, with distinct clock readings, the entry a room holds under the
    identifier of a client is that client. *)
Lemma other_client_other_key s conn room client r k c :
  (∀ m n, time_Now m = time_Now n → m = n) →
  reachable ToJSON time_Now ValidateJWT s →
  callbacks s conn = Some (room, client) →
  Server.room_store s !! room = Some r →
  Room.Clients r !! k = Some c → c ≠ client → k ≠ Client.ID client.
Proof.
  intros Hclock Hreach Hcb Hr Hk Hne Heq.
  destruct (reachable_known_ids s Hclock Hreach) as [_ Huniq].
  pose proof (reachable_wf s Hreach) as Hwf.
  assert (registered s room k c) as Hreg by (by exists r).
  apply Hne, Huniq.
  - left. eauto.
  - right. eauto.
  - by rewrite (wf_key _ _ Hwf _ _ _ Hreg).
Qed.

(** ** The fan-out in detail *)

Lemma try_send_open ch m (chans : list (Chan.t any)) q :
  chans !! ch = Some q → Chan.closed q = false →
  try_send ch m chans =
    if decide (length (Chan.buf q) < Chan.cap q) then
      Some (<[ch := Chan.mk (Chan.buf q ++ [m]) (Chan.cap q) false]> chans, true)
    else Some (chans, false).
Proof. unfold try_send. intros -> Hcl. simpl. by rewrite Hcl. Qed.

(** A fan-out over entries that all have an open channel of their own: it
    does not panic, touches no channel but those of the entries other than the
    sender's key, appends the event to each of those that has room, and logs
    a line for each of those that is full. *)
Lemma broadcast_spec client candidate order s :
  (∀ k c, (k, c) ∈ order →
     ∃ ch q, Client.Signal c = Some ch ∧
             Server.chan_store s !! ch = Some q ∧ Chan.closed q = false) →
  NoDup ((λ kc, Client.Signal kc.2) <$> order) →
  ∃ s' lines,
    broadcast ToJSON time_Now client candidate order s = Some s' ∧
    Server.log s' = Server.log s ++ lines ∧
    (∀ ch, (∀ k c, (k, c) ∈ order → k ≠ Client.ID client →
                   Client.Signal c ≠ Some ch) →
           Server.chan_store s' !! ch = Server.chan_store s !! ch) ∧
    (∀ k c ch q,
       (k, c) ∈ order → k ≠ Client.ID client →
       Client.Signal c = Some ch → Server.chan_store s !! ch = Some q →
       (length (Chan.buf q) < Chan.cap q ∧
        ∃ n, Server.ticks s ≤ n < Server.ticks s' ∧
             Server.chan_store s' !! ch =
               Some (Chan.mk (Chan.buf q ++
                                [ice_message ToJSON time_Now client candidate n])
                             (Chan.cap q) false)) ∨
       (¬ length (Chan.buf q) < Chan.cap q ∧
        Server.chan_store s' !! ch = Some q ∧ full_line k ∈ lines)).
Proof.
  revert s. induction order as [|[k0 c0] rest IH]; intros s Hall Hnd.
  { exists s, []. simpl. rewrite app_nil_r. repeat split; auto.
    intros k c ch q H. by apply elem_of_nil in H. }
  rewrite fmap_cons in Hnd. apply NoDup_cons in Hnd as [Hhead Hnd].
  simpl in Hhead.
  destruct (Hall k0 c0) as (ch0 & q0 & Hsig0 & Hq0 & Hcl0); [left|].
  assert (∀ k c, (k, c) ∈ rest → Client.Signal c ≠ Some ch0) as Hrest.
  { intros k c Hin Heq. apply Hhead. rewrite Hsig0, <- Heq.
    by apply (list_elem_of_fmap_2 (λ kc, Client.Signal kc.2) rest (k, c)). }
  simpl. destruct (decide (k0 ≠ Client.ID client)) as [Hk0|Hk0].
  2:{ (* the sender's own entry is skipped *)
    destruct (IH s) as (s' & lines & Hb & Hlog & Huntouched & Hentries);
      [intros k c Hin; apply (Hall k c); by right|done|].
    exists s', lines. split; [done|]. split; [done|]. split.
    - intros ch Hch. apply Huntouched. intros k c Hin. apply Hch. by right.
    - intros k c ch q [[= -> ->]|Hin]%elem_of_cons Hk; [done|].
      by apply Hentries. }
  rewrite Hsig0. cbn [Now Server.chan_store Server.with_ticks].
  rewrite (try_send_open ch0 _ _ q0 Hq0 Hcl0).
  fold (ice_message ToJSON time_Now client candidate (Server.ticks s)).
  set (m := ice_message ToJSON time_Now client candidate (Server.ticks s)).
  case_decide as Hroom; cbn [mbind option_bind].
  - (* the event is enqueued *)
    set (s2 := Server.with_chan_store _ _).
    assert (∀ ch, ch ≠ ch0 →
              Server.chan_store s2 !! ch = Server.chan_store s !! ch) as Hne.
    { intros ch Hch. simpl. by rewrite list_lookup_insert_ne. }
    destruct (IH s2) as (s' & lines & Hb & Hlog & Huntouched & Hentries);
      [|done|].
    { intros k c Hin. destruct (Hall k c) as (ch & q & Hsig & Hq & Hcl);
        [by right|].
      exists ch, q. split; [done|]. split; [|done]. rewrite Hne; [done|].
      intros ->. by apply (Hrest k c). }
    pose proof (broadcast_frame _ _ _ _ _ Hb) as (_ & _ & _ & _ & Ht & _).
    simpl in Ht.
    assert (Server.chan_store s' !! ch0 =
            Some (Chan.mk (Chan.buf q0 ++ [m]) (Chan.cap q0) false)) as Hch0.
    { rewrite Huntouched by (intros k c Hin _; by apply (Hrest k c)).
      simpl. apply list_lookup_insert_eq. by eapply lookup_lt_Some. }
    exists s', lines. split; [done|]. split; [done|]. split.
    + intros ch Hch. assert (ch ≠ ch0) as Hd.
      { intros ->. apply (Hch k0 c0); [left|done|done]. }
      rewrite Huntouched, Hne; [done|done|].
      intros k c Hin. apply Hch. by right.
    + intros k c ch q [[= -> ->]|Hin]%elem_of_cons Hk Hsig Hq.
      * assert (ch = ch0) as -> by congruence.
        assert (q = q0) as -> by congruence.
        left. split; [done|]. exists (Server.ticks s). split; [lia|done].
      * assert (ch ≠ ch0) as Hd by (intros ->; by apply (Hrest k c)).
        destruct (Hentries k c ch q Hin Hk Hsig) as [[Hr (n & Hn & Hres)]|Hfull].
        -- by rewrite Hne.
        -- left. split; [done|]. exists n. simpl in Hn. split; [lia|done].
        -- by right.
  - (* the channel is full: the event is dropped and a line is logged *)
    set (s2 := log_Printf _ _).
    destruct (IH s2) as (s' & lines & Hb & Hlog & Huntouched & Hentries);
      [|done|].
    { intros k c Hin. apply (Hall k c). by right. }
    pose proof (broadcast_frame _ _ _ _ _ Hb) as (_ & _ & _ & _ & Ht & _).
    simpl in Ht.
    exists s', (full_line k0 :: lines). split; [done|]. split.
    { rewrite Hlog. simpl. by rewrite <- (assoc_L (++)). }
    split.
    + intros ch Hch. apply Huntouched. intros k c Hin. apply Hch. by right.
    + intros k c ch q [[= -> ->]|Hin]%elem_of_cons Hk Hsig Hq.
      * assert (ch = ch0) as -> by congruence.
        assert (q = q0) as -> by congruence.
        right. split; [done|]. split; [|left].
        rewrite Huntouched by (intros k c Hin _; by apply (Hrest k c)). done.
      * destruct (Hentries k c ch q Hin Hk Hsig Hq)
          as [[Hr (n & Hn & Hres)]|(Hf & Hres & Hline)].
        -- left. split; [done|]. exists n. simpl in Hn. split; [lia|done].
        -- right. split; [done|]. split; [done|]. by right.
Qed.

(** In a state that satisfies the invariant, the entries a range over a
    room's client map visits are the registered clients, each with an open
    channel of its own. *)
Lemma range_ready s room r order :
  wf time_Now s →
  Server.room_store s !! room = Some r →
  order ≡ₚ map_to_list (Room.Clients r) →
  (∀ k c, (k, c) ∈ order ↔ Room.Clients r !! k = Some c) ∧
  (∀ k c, (k, c) ∈ order →
     ∃ ch q, Client.Signal c = Some ch ∧
             Server.chan_store s !! ch = Some q ∧ Chan.closed q = false) ∧
  NoDup ((λ kc, Client.Signal kc.2) <$> order).
Proof.
  intros Hwf Hr Hperm.
  assert (∀ k c, (k, c) ∈ order ↔ Room.Clients r !! k = Some c) as Hin.
  { intros k c. by rewrite Hperm, elem_of_map_to_list. }
  assert (∀ k c, (k, c) ∈ order → registered s room k c) as Hreg.
  { intros k c H%Hin. by exists r. }
  split; [done|]. split.
  - intros k c H%Hreg. by apply (wf_open _ _ Hwf _ _ _ H).
  - apply NoDup_fmap_2_strong.
    + intros [k1 c1] [k2 c2] H1%Hreg H2%Hreg Heq. simpl in Heq.
      assert (c1 = c2) as ->.
      { apply (wf_owner _ _ Hwf); [left; eauto|left; eauto|done]. }
      by rewrite <- (wf_key _ _ Hwf _ _ _ H1), <- (wf_key _ _ Hwf _ _ _ H2).
    + rewrite Hperm. apply NoDup_map_to_list.
Qed.


(** ** The claims about the signal fan-out *)

(** C1 (amended). When the ICE-candidate callback of client C of room R fans
    out an event in a reachable state, it does not panic, and the event is
    never enqueued onto C's own Signal channel.  The range skips the entry
    stored under C's identifier and serves every other entry: the event is
    appended to the channel of its client when the channel has room, and
    otherwise (100 pending events) the channel is left as it is, the event is
    dropped and a line is logged.  Provided no two clock readings are equal
    (client identifiers are made from them), the entry under C's identifier
    can only be C, so every other client registered in R is served in that
    way.  The drop is logged, not counted: the metrics, like the rooms, are
    exactly what they were. *)
Theorem ice_candidate_fanout s conn room client r candidate order :
  reachable ToJSON time_Now ValidateJWT s →
  callbacks s conn = Some (room, client) →
  Server.room_store s !! room = Some r →
  order ≡ₚ map_to_list (Room.Clients r) →
  ∃ s' lines,
    OnICECandidate ToJSON time_Now room client (Some candidate) order s
      = Some s' ∧
    (∀ ch, Client.Signal client = Some ch →
           Server.chan_store s' !! ch = Server.chan_store s !! ch) ∧
    (∀ k c, Room.Clients r !! k = Some c → k ≠ Client.ID client →
       delivered_or_dropped ToJSON time_Now client candidate lines s s' k c) ∧
    ((∀ m n, time_Now m = time_Now n → m = n) →
     ∀ k c, Room.Clients r !! k = Some c → c ≠ client →
       delivered_or_dropped ToJSON time_Now client candidate lines s s' k c) ∧
    Server.log s' = Server.log s ++ lines ∧
    Server.metrics s' = Server.metrics s ∧
    Server.room_store s' = Server.room_store s ∧
    Server.Rooms s' = Server.Rooms s.
Proof.
  intros Hreach Hcb Hr Hperm.
  pose proof (reachable_wf s Hreach) as Hwf.
  destruct (range_ready s room r order Hwf Hr Hperm) as (Hin & Hopen & Hnd).
  destruct (broadcast_spec client candidate order s Hopen Hnd)
    as (s' & lines & Hb & Hlog & Huntouched & Hentries).
  pose proof (broadcast_frame _ _ _ _ _ Hb) as (HR & Hrs & _ & Hm & _ & _).
  assert (∀ k c, Room.Clients r !! k = Some c → k ≠ Client.ID client →
            delivered_or_dropped ToJSON time_Now client candidate lines s s'
                                 k c) as Hserved.
  { intros k c Hkc Hk. apply Hin in Hkc.
    destruct (Hopen k c Hkc) as (ch & q & Hsig & Hq & Hcl).
    destruct (wf_chan _ _ Hwf _ _ Hq) as [Hcap Hlen].
    exists ch, q. split; [done|]. split; [done|].
    destruct (Hentries k c ch q Hkc Hk Hsig Hq)
      as [[Hroom (n & Hn & Hres)]|(Hfull & Hres & Hline)].
    + left. split; [lia|]. exists n. split; [done|]. by rewrite <- Hcap.
    + right. split; [lia|]. done. }
  exists s', lines. split; [done|].
  split; [|split; [exact Hserved|split; [|done]]].
  - intros ch Hsig. apply Huntouched. intros k c Hkc Hk Hsig'.
    assert (c = client) as ->.
    { apply (wf_owner _ _ Hwf).
      - left. exists room, k, r. split; [done|]. by apply Hin.
      - right. eauto.
      - congruence. }
    apply Hk. symmetry. apply (wf_key _ _ Hwf room k client).
    exists r. split; [done|]. by apply Hin.
  - intros Hclock k c Hkc Hne. apply Hserved; [done|].
    by apply (other_client_other_key s conn room client r k c).
Qed.


(** A fan-out in a state that satisfies the invariant returns, and leaves
    every closed channel as it was. *)
Lemma fanout_closed s room client r candidate order :
  wf time_Now s →
  Server.room_store s !! room = Some r →
  order ≡ₚ map_to_list (Room.Clients r) →
  ∃ s',
    OnICECandidate ToJSON time_Now room client candidate order s = Some s' ∧
    ∀ ch q, Server.chan_store s !! ch = Some q → Chan.closed q = true →
            Server.chan_store s' !! ch = Some q.
Proof.
  intros Hwf Hr Hperm. destruct candidate as [candidate|]; [|by exists s].
  destruct (range_ready s room r order Hwf Hr Hperm) as (_ & Hopen & Hnd).
  destruct (broadcast_spec client candidate order s Hopen Hnd)
    as (s' & lines & Hb & _ & Huntouched & _).
  exists s'. split; [done|]. intros ch q Hq Hclosed.
  rewrite Huntouched; [done|]. intros k c Hkc _ Hsig.
  destruct (Hopen k c Hkc) as (ch' & q' & Hsig' & Hq' & Hopen').
  congruence.
Qed.

(** No step adds an event to a closed channel or reopens it: the channel
    stays closed, and its buffer is what it was, less the events a consumer
    took from its front. *)
Lemma step_closed s s' ch q :
  wf time_Now s →
  step ToJSON time_Now ValidateJWT s s' →
  Server.chan_store s !! ch = Some q → Chan.closed q = true →
  ∃ q', Server.chan_store s' !! ch = Some q' ∧ Chan.closed q' = true ∧
        Chan.buf q' `suffix_of` Chan.buf q.
Proof.
  intros Hwf Hstep Hq Hclosed.
  assert (∀ s0 : ServerT, Server.chan_store s0 = Server.chan_store s →
            ∃ q', Server.chan_store s0 !! ch = Some q' ∧
                  Chan.closed q' = true ∧
                  Chan.buf q' `suffix_of` Chan.buf q) as Hsame.
  { intros s0 ->. by exists q. }
  destruct Hstep as
    [c rq s s' resp Hserve
    |conn room client candidate order r s s' Hcb Hr Hperm Hice
    |conn room client kind s Hcb
    |conn room client state s s' Hcb Hstate
    |ch0 m s s' Hrecv].
  - (* a request *)
    revert Hserve. unfold serve, authMiddleware.
    case_decide; [intros [= <- <-]; by apply Hsame|].
    destruct (ValidateJWT _) as [claims|];
      [|intros [= <- <-]; by apply Hsame].
    generalize (gin.Set_ "username" (claims_Username claims)
                  (gin.Set_ "user_id" (claims_UserID claims) c)).
    intros c'. destruct rq as [body|body newPC|body]; simpl.
    + intros [(-> & _)|Hinv]%createRoomHandler_inv; [by apply Hsame|].
      destruct Hinv as (name & userID & _ & _ & _ & _ & _ & Hch & _).
      by apply Hsame.
    + intros [[-> _]|[_ Hinv]]%joinRoomHandler_inv; [by apply Hsame|].
      destruct Hinv as (roomID & room & r & userID & username & _ & _ & _ &
                        Hinv).
      cbv zeta in Hinv. destruct Hinv as (_ & _ & Hch & _).
      exists q. rewrite Hch. split; [by apply lookup_app_l_Some|done].
    + intros [[-> _]|[_ Hinv]]%leaveRoomHandler_inv; [by apply Hsame|].
      destruct Hinv as (roomID & clientID & room & r & client & ch0 & q0 & _ &
                        _ & _ & _ & _ & Hq0 & Hopen0 & _ & _ & Hch & _).
      exists q. rewrite Hch. split; [|done].
      rewrite list_lookup_insert_ne; [done|]. intros ->. congruence.
  - (* an ICE candidate *)
    destruct (fanout_closed s room client r candidate order Hwf Hr Hperm)
      as (s'' & Hfan & Hkeep).
    rewrite Hice in Hfan. injection Hfan as <-.
    exists q. split; [by apply Hkeep|done].
  - by apply Hsame.
  - (* a connection state change *)
    revert Hstate. unfold OnConnectionStateChange.
    destruct state; simpl; try (intros [= <-]; by apply Hsame).
    all: destruct (Server.room_store s !! room) as [r|]; simpl; [|done].
    all: intros [= <-]; by apply Hsame.
  - (* a receive *)
    revert Hrecv. unfold receive.
    destruct (Server.chan_store s !! ch0) as [q0|] eqn:Hq0; simpl; [|done].
    destruct (Chan.buf q0) as [|m0 rest] eqn:Hbuf; [done|].
    intros [= _ <-]. simpl. destruct (decide (ch = ch0)) as [->|Hne].
    + rewrite list_lookup_insert_eq by (by eapply lookup_lt_Some).
      assert (q0 = q) as -> by congruence.
      eexists. split; [done|]. simpl. split; [done|].
      rewrite Hbuf. by apply suffix_cons_r.
    + rewrite list_lookup_insert_ne by done. by exists q.
Qed.

(** C2. In every reachable state each Signal channel has capacity 100 and
    holds at most 100 pending events.  Once a channel is closed no enqueue
    reaches it.  A channel is closed only by a leave, which removes its
    client from the room in the same step; so the channel of every registered
    client is open, every fan-out returns, without panicking and (the send
    being the [select] with a [default] case) without blocking, and leaves
    every closed channel exactly as it was; and whatever step the server
    takes, a closed channel stays closed and gets no event (a consumer may
    still take events from it). *)
Theorem signal_channel_bounded_never_closed_in_room s :
  reachable ToJSON time_Now ValidateJWT s →
  (∀ ch q, Server.chan_store s !! ch = Some q →
     Chan.cap q = 100 ∧ length (Chan.buf q) ≤ 100) ∧
  (∀ room k c, registered s room k c →
     ∃ ch q, Client.Signal c = Some ch ∧
             Server.chan_store s !! ch = Some q ∧ Chan.closed q = false) ∧
  (∀ conn room client r candidate order,
     callbacks s conn = Some (room, client) →
     Server.room_store s !! room = Some r →
     order ≡ₚ map_to_list (Room.Clients r) →
     ∃ s',
       OnICECandidate ToJSON time_Now room client candidate order s = Some s' ∧
       ∀ ch q, Server.chan_store s !! ch = Some q → Chan.closed q = true →
               Server.chan_store s' !! ch = Some q) ∧
  (∀ s' ch q,
     step ToJSON time_Now ValidateJWT s s' →
     Server.chan_store s !! ch = Some q → Chan.closed q = true →
     ∃ q', Server.chan_store s' !! ch = Some q' ∧ Chan.closed q' = true ∧
           Chan.buf q' `suffix_of` Chan.buf q).
Proof.
  intros Hreach. pose proof (reachable_wf s Hreach) as Hwf.
  split; [apply (wf_chan _ _ Hwf)|]. split; [apply (wf_open _ _ Hwf)|].
  split.
  - intros conn room client r candidate order _ Hr Hperm.
    by apply (fanout_closed s room client r).
  - intros s' ch q. by apply step_closed.
Qed.

(** ** Creating rooms *)

Lemma room_id_of_inj (m n : Z) : room_id_of m = room_id_of n → m = n.
Proof.
  unfold room_id_of. intros H. simpl in H. injection H as H.
  by apply (inj pretty).
Qed.

(** C7 (amended). The identifier of a new room is made from the clock:
    [room_<nanoseconds>].  When no two readings of the clock are equal, every
    create-room call with a valid body in a reachable state answers 200 with
    an identifier that is distinct from the identifier of every room created
    before (registered or not), stores a new room without clients under it,
    and keeps the rooms that were registered.  A body that does not bind (no
    name) is answered with 400 and nothing is created. *)
Theorem createRoomHandler_fresh_when_clock_distinct s :
  (∀ m n, time_Now m = time_Now n → m = n) →
  reachable ToJSON time_Now ValidateJWT s →
  let roomID := room_id_of (time_Now (Server.ticks s)) in
  (∀ c name userID,
     name ≠ "" → gin.Keys c !! "user_id" = Some userID →
     is_Some (gin.Keys c !! "username") →
     ∃ s',
       createRoomHandler time_Now (gin.Decoded name) c s =
         Some (s', gin.JSON StatusOK
                     (<["message" := "Room created successfully"]>
                      (<["room_id" := roomID]> {["name" := name]}))) ∧
       (∀ room r, Server.room_store s !! room = Some r → Room.ID r ≠ roomID) ∧
       Server.Rooms s !! roomID = None ∧
       (∃ room,
          Server.Rooms s' !! roomID = Some room ∧
          Server.room_store s' !! room =
            Some (Room.mk roomID name userID ∅
                          (time_Now (S (Server.ticks s))) true)) ∧
       (∀ id room, Server.Rooms s !! id = Some room →
          Server.Rooms s' !! id = Some room ∧
          Server.room_store s' !! room = Server.room_store s !! room)) ∧
  (∀ c body err,
     bind_one "Name" body = inl err →
     is_Some (gin.Keys c !! "user_id") → is_Some (gin.Keys c !! "username") →
     createRoomHandler time_Now body c s =
       Some (s, gin.JSON StatusBadRequest {["error" := err]})).
Proof.
  intros Hclock Hreach roomID. pose proof (reachable_wf s Hreach) as Hwf.
  assert (∀ n, n < Server.ticks s → room_id_of (time_Now n) ≠ roomID) as Hnew.
  { intros n Hn Heq. apply room_id_of_inj, Hclock in Heq. lia. }
  split.
  - intros c name userID Hname Huid [username Huser].
    destruct (createRoomHandler time_Now (gin.Decoded name) c s)
      as [[s' resp]|] eqn:Hcreate.
    2:{ revert Hcreate. unfold createRoomHandler. rewrite Huid, Huser. simpl.
        by rewrite decide_False by done. }
    destruct (createRoomHandler_inv _ _ _ _ _ Hcreate)
      as [(_ & _ & err & Herr)|H].
    { simpl in Herr. by rewrite decide_False in Herr by done. }
    destruct H as (name' & userID' & Hbind & Huid' & H).
    simpl in Hbind. rewrite decide_False in Hbind by done.
    injection Hbind as <-. rewrite Huid in Huid'. injection Huid' as <-.
    cbv zeta in H. fold roomID in H.
    destruct H as (-> & HR & Hrs & _).
    exists s'. split; [done|].
    assert (Server.Rooms s !! roomID = None) as Hfree.
    { destruct (Server.Rooms s !! roomID) as [room|] eqn:Hroom; [|done].
      destruct (wf_room_ids _ _ Hwf _ _ Hroom) as (n & Hn & Heq).
      by destruct (Hnew n Hn). }
    split; [|split; [done|split]].
    + intros room r Hr Heq.
      destruct (wf_room_objs _ _ Hwf _ _ Hr) as (n & Hn & Hid).
      apply (Hnew n Hn). congruence.
    + exists (length (Server.room_store s)). rewrite HR, Hrs.
      rewrite lookup_insert_eq. split; [done|].
      by rewrite lookup_app_r, Nat.sub_diag.
    + intros id room Hroom. rewrite HR, Hrs. split.
      * rewrite lookup_insert_ne; [done|]. intros <-. congruence.
      * apply lookup_app_l. by apply (wf_rooms _ _ Hwf id).
  - intros c body err Hbind [userID Huid] [username Huser].
    unfold createRoomHandler. rewrite Huid, Huser. simpl. by rewrite Hbind.
Qed.

(** ** The two ways a client goes away *)

(** What the connection-state callback does for a terminal state: the client's
    key is deleted from the room, and no channel is touched. *)
Lemma OnConnectionStateChange_terminal room client state s r :
  state = webrtc.Closed ∨ state = webrtc.Failed →
  Server.room_store s !! room = Some r →
  ∃ s', OnConnectionStateChange room client state s = Some s' ∧
    Server.room_store s' =
      <[room := Room.with_Clients (delete (Client.ID client) (Room.Clients r)) r]>
        (Server.room_store s) ∧
    Server.chan_store s' = Server.chan_store s.
Proof.
  intros [-> | ->] Hr; unfold OnConnectionStateChange; simpl; rewrite Hr;
    simpl; eauto.
Qed.

End Invariant.

(** ** Concrete runs *)

Lemma reachable_serve_all {any ICECandidate : Type}
    (ToJSON : ICECandidate → any) (time_Now : nat → Time)
    (rqs : list Request) (s s' : Server.t any) :
  reachable ToJSON time_Now sample_ValidateJWT s →
  serve_all time_Now rqs s = Some s' →
  reachable ToJSON time_Now sample_ValidateJWT s'.
Proof.
  unfold serve_all. revert s'.
  induction rqs as [|rq rqs IH] using rev_ind; intros s' Hs.
  { by intros [= <-]. }
  rewrite foldl_snoc.
  destruct (foldl _ (Some s) rqs) as [s1|]; simpl; [|done].
  destruct (serve _ _ _ _ s1) as [[s2 resp]|] eqn:Hserve; simpl; [|done].
  intros [= <-]. eapply reachable_step; [by apply IH|].
  by eapply step_serve.
Qed.

Lemma reachable_sample_state :
  reachable sample_ToJSON ticking_clock sample_ValidateJWT sample_state.
Proof.
  apply (reachable_serve_all sample_ToJSON ticking_clock sample_requests
           Server.NewServer); [apply reachable_init|].
  vm_compute. reflexivity.
Qed.

Lemma ice_candidate_fanout_witness :
  ∃ s' lines,
    OnICECandidate sample_ToJSON ticking_clock 0 sample_sender (Some "host")
                   (map_to_list (Room.Clients sample_room)) sample_state
      = Some s' ∧
    (∀ ch, Client.Signal sample_sender = Some ch →
           Server.chan_store s' !! ch = Server.chan_store sample_state !! ch) ∧
    (∀ k c, Room.Clients sample_room !! k = Some c →
       k ≠ Client.ID sample_sender →
       delivered_or_dropped sample_ToJSON ticking_clock sample_sender "host"
                            lines sample_state s' k c) ∧
    ((∀ m n, ticking_clock m = ticking_clock n → m = n) →
     ∀ k c, Room.Clients sample_room !! k = Some c → c ≠ sample_sender →
       delivered_or_dropped sample_ToJSON ticking_clock sample_sender "host"
                            lines sample_state s' k c) ∧
    Server.log s' = Server.log sample_state ++ lines ∧
    Server.metrics s' = Server.metrics sample_state ∧
    Server.room_store s' = Server.room_store sample_state ∧
    Server.Rooms s' = Server.Rooms sample_state.
Proof.
  apply (ice_candidate_fanout sample_ToJSON ticking_clock sample_ValidateJWT
           sample_state 0 0 sample_sender sample_room "host").
  - apply reachable_sample_state.
  - vm_compute. reflexivity.
  - vm_compute. reflexivity.
  - reflexivity.
Defined.

(** C1, as stated, fails on the code: with 100 events pending on the peer's
    channel, the next event is dropped and a line is logged, but the drop is
    not counted; no counter or gauge moves. *)
Lemma fanout_drop_not_counted :
  ∃ s',
    OnICECandidate sample_ToJSON ticking_clock 0 sample_sender (Some "host")
                   (map_to_list (Room.Clients sample_room)) sample_full_state
      = Some s' ∧
    length <$> (Chan.buf <$> Server.chan_store sample_full_state !! 1)
      = Some 100 ∧
    Server.chan_store s' !! 1 = Server.chan_store sample_full_state !! 1 ∧
    Server.log s' = Server.log sample_full_state ++ [full_line "client_4"] ∧
    ¬ drop_counted sample_full_state s'.
Proof.
  eexists. split; [vm_compute; reflexivity|].
  split; [vm_compute; reflexivity|].
  split; [vm_compute; reflexivity|].
  split; [vm_compute; reflexivity|].
  intros Hcounted. apply Hcounted. vm_compute. reflexivity.
Qed.

(** The proviso on the clock is needed.  With a stuck clock the run below is
    one the server can make; the room then holds the second client under the
    identifier both were given, and a fan-out of the first client, whose
    connection is still there, skips that entry: the second client gets
    nothing and nothing is logged. *)
Lemma fanout_skips_namesake :
  reachable sample_ToJSON stuck_clock sample_ValidateJWT sample_namesake_state ∧
  callbacks sample_namesake_state 0 = Some (0, first_namesake) ∧
  registered sample_namesake_state 0 "client_42" second_namesake ∧
  second_namesake ≠ first_namesake ∧
  OnICECandidate sample_ToJSON stuck_clock 0 first_namesake (Some "host")
                 [("client_42", second_namesake)] sample_namesake_state
    = Some sample_namesake_state.
Proof.
  split.
  { apply (reachable_serve_all sample_ToJSON stuck_clock namesake_requests
             Server.NewServer); [apply reachable_init|].
    vm_compute. reflexivity. }
  split; [vm_compute; reflexivity|]. split.
  { eexists. split; vm_compute; reflexivity. }
  split; [discriminate|]. vm_compute. reflexivity.
Qed.


Lemma reachable_sample_left_state :
  reachable sample_ToJSON ticking_clock sample_ValidateJWT sample_left_state.
Proof.
  apply (reachable_serve_all sample_ToJSON ticking_clock
           (sample_requests ++ [LeaveRoom (gin.Decoded ("room_0", "client_4"))])
           Server.NewServer); [apply reachable_init|].
  vm_compute. reflexivity.
Qed.

Lemma signal_channel_bounded_never_closed_in_room_witness :
  Server.chan_store sample_left_state !! 1 = Some (Chan.mk [] 100 true) ∧
  ∃ s',
    OnICECandidate sample_ToJSON ticking_clock 0 sample_sender (Some "host")
                   [("client_2", sample_sender)] sample_left_state = Some s' ∧
    Server.chan_store s' !! 1 = Some (Chan.mk [] 100 true).
Proof.
  split; [vm_compute; reflexivity|].
  destruct (signal_channel_bounded_never_closed_in_room sample_ToJSON
              ticking_clock sample_ValidateJWT sample_left_state
              reachable_sample_left_state) as (_ & _ & Hfan & _).
  destruct (Hfan 0 0 sample_sender
              (Room.mk "room_0" "standup" "u1" {["client_2" := sample_sender]}
                       1%Z true)
              (Some "host") [("client_2", sample_sender)])
    as (s' & Hs' & Hclosed).
  - vm_compute. reflexivity.
  - vm_compute. reflexivity.
  - cbn [Room.Clients]. by rewrite map_to_list_singleton.
  - exists s'. split; [exact Hs'|].
    apply (Hclosed 1 (Chan.mk [] 100 true)); [vm_compute; reflexivity|done].
Defined.

Lemma ticking_clock_inj (m n : nat) : ticking_clock m = ticking_clock n → m = n.
Proof. unfold ticking_clock. lia. Qed.

Lemma createRoomHandler_fresh_when_clock_distinct_witness :
  let roomID := room_id_of (ticking_clock (Server.ticks sample_state)) in
  ∃ s',
    createRoomHandler ticking_clock (gin.Decoded "retro") sample_authorized
                      sample_state =
      Some (s', gin.JSON StatusOK
                  (<["message" := "Room created successfully"]>
                   (<["room_id" := roomID]> {["name" := "retro"]}))) ∧
    (∀ room r, Server.room_store sample_state !! room = Some r →
               Room.ID r ≠ roomID) ∧
    Server.Rooms sample_state !! roomID = None ∧
    (∃ room,
       Server.Rooms s' !! roomID = Some room ∧
       Server.room_store s' !! room =
         Some (Room.mk roomID "retro" "u1" ∅
                       (ticking_clock (S (Server.ticks sample_state))) true)) ∧
    (∀ id room, Server.Rooms sample_state !! id = Some room →
       Server.Rooms s' !! id = Some room ∧
       Server.room_store s' !! room = Server.room_store sample_state !! room).
Proof.
  intros roomID.
  apply (createRoomHandler_fresh_when_clock_distinct sample_ToJSON
           ticking_clock sample_ValidateJWT sample_state
           ticking_clock_inj reachable_sample_state).
  - discriminate.
  - vm_compute. reflexivity.
  - eexists. vm_compute. reflexivity.
Defined.

(** C7, as stated, fails on the code: when the clock returns the same reading
    twice, two create-room calls get the same identifier and the second room
    replaces the first in the registry; and a create-room call without a name
    fails with 400. *)
Lemma create_room_identifier_reused :
  ∃ s1 s2 : Server.t string,
    createRoomHandler stuck_clock (gin.Decoded "standup") sample_authorized
                      Server.NewServer =
      Some (s1, gin.JSON StatusOK
                  (<["message" := "Room created successfully"]>
                   (<["room_id" := "room_42"]> {["name" := "standup"]}))) ∧
    createRoomHandler stuck_clock (gin.Decoded "retro") sample_authorized s1 =
      Some (s2, gin.JSON StatusOK
                  (<["message" := "Room created successfully"]>
                   (<["room_id" := "room_42"]> {["name" := "retro"]}))) ∧
    size (Server.Rooms s2) = 1 ∧
    length (Server.room_store s2) = 2 ∧
    Room.ID <$> Server.room_store s2 = ["room_42"; "room_42"] ∧
    createRoomHandler stuck_clock (gin.Decoded "") sample_authorized
                      (Server.NewServer (any:=string)) =
      Some (Server.NewServer,
            gin.JSON StatusBadRequest
                     {["error" := gin.required_error "Name"]}).
Proof.
  eexists _, _. split; [vm_compute; reflexivity|].
  do 4 (split; [vm_compute; reflexivity|]).
  vm_compute. reflexivity.
Qed.

(** C3 fails on the code.  When the connection of a registered client reports
    [failed] (or [closed]), the callback deletes the client from the room but
    does not close its Signal channel, and a later leave request finds no
    client and closes nothing either: the channel is closed zero times.  The
    explicit leave of the same client closes it. *)
Lemma connection_failure_leaves_channel_open :
  callbacks sample_state 1 = Some (0, sample_peer) ∧
  Client.Signal sample_peer = Some 1 ∧
  ∃ s1 s2 s3,
    (* the transport reports a terminal state *)
    OnConnectionStateChange 0 sample_peer webrtc.Failed sample_state
      = Some s1 ∧
    OnConnectionStateChange 0 sample_peer webrtc.Closed sample_state
      = Some s2 ∧
    Room.Clients <$> Server.room_store s1 !! 0
      = Some {["client_2" := sample_sender]} ∧
    Server.chan_store s1 !! 1 = Some (Chan.mk [] 100 false) ∧
    Server.chan_store s2 !! 1 = Some (Chan.mk [] 100 false) ∧
    leaveRoomHandler (gin.Decoded ("room_0", "client_4")) sample_authorized s1
      = Some (s1, gin.JSON StatusNotFound {["error" := "Client not found"]}) ∧
    (* the explicit leave *)
    leaveRoomHandler (gin.Decoded ("room_0", "client_4")) sample_authorized
                     sample_state
      = Some (s3, gin.JSON StatusOK {["message" := "Left room successfully"]}) ∧
    Room.Clients <$> Server.room_store s3 !! 0
      = Some {["client_2" := sample_sender]} ∧
    Server.chan_store s3 !! 1 = Some (Chan.mk [] 100 true).
Proof.
  split; [vm_compute; reflexivity|]. split; [reflexivity|].
  eexists _, _, _. split; [vm_compute; reflexivity|].
  do 7 (split; [vm_compute; reflexivity|]).
  vm_compute. reflexivity.
Qed.

End server_facts.

(* ===================================================================== *)
(** * Further properties of package chat *)
(* ===================================================================== *)
Module chat_props.
Import chat chat_facts.

Lemma arrivals_room roomID ops :
  Forall (λ m, RoomID m = roomID) (arrivals roomID ops).
Proof.
  unfold arrivals. induction ops as [|o ops IH] using rev_ind; [constructor|].
  rewrite foldl_snoc. destruct o as [c|r|r n|r]; simpl; try done.
  - case_decide as Hr; [|done]. apply Forall_app. split; [done|].
    constructor; [|constructor]. done.
  - case_decide; [constructor|done].
Qed.

Section WithRuntime.
Variable growslice : nat → nat → nat.
Hypothesis growslice_ge : ∀ oldcap needed, needed ≤ growslice oldcap needed.

(** X1. [GetMessages] returns the whole log of the room in stored order, on a
    slice of its own: the stored history of every room is the same after the
    call and after any assignment to a cell of the returned slice (possible
    at every index below its length). *)
Theorem GetMessages_whole_log_copy (st : Mem * ChatManager) (roomID : string) :
  reachable growslice st →
  let res := GetMessages st.1 st.2 roomID in
  deref res.1 <$> elems res.1 res.2 = history st.1 st.2 roomID ∧
  (∀ r, history res.1 st.2 r = history st.1 st.2 r) ∧
  (∀ i x, i < length (history st.1 st.2 roomID) →
          is_Some (slice_set res.1 res.2 i x)) ∧
  (∀ i x h', slice_set res.1 res.2 i x = Some h' →
     ∀ r, history h' st.2 r = history st.1 st.2 r).
Proof.
  intros Hreach.
  pose proof (chat_reachable_wf growslice growslice_ge st Hreach) as Hwf.
  destruct st as [h cm]. simpl in *.
  pose proof (room_slice_ok h cm roomID Hwf) as Hok.
  pose proof (make_copy h (room_slice cm roomID) _ Hok eq_refl)
    as (Hext & Hel & Harr & Hlen & _ & Hokd & _).
  unfold GetMessages. simpl in *.
  split; [|split; [|split]].
  - unfold history. rewrite Hel. unfold deref. by destruct Hext as [-> _].
  - intros r. by apply extends_history.
  - intros i x Hi. unfold history in Hi.
    rewrite length_fmap, (elems_length _ _ Hok) in Hi.
    unfold slice_set. simpl. by rewrite decide_True.
  - intros i x h' Hset r. apply extends_history; [|done].
    eapply slice_set_extends; [exact Hext| |exact Hset]. simpl. lia.
Qed.

(** X2. In every reachable state the log of every room holds at most 100
    entries, and each entry points to a message whose [RoomID] is that
    room. *)
Theorem chat_log_bounded_and_tagged (st : Mem * ChatManager) (roomID : string) :
  reachable growslice st →
  length (history st.1 st.2 roomID) ≤ 100 ∧
  Forall (λ e, ∃ m, e = Some m ∧ RoomID m = roomID) (history st.1 st.2 roomID).
Proof.
  intros [ops <-]. rewrite (run_history growslice growslice_ge ops roomID).
  split.
  - rewrite length_fmap, length_last_n. lia.
  - apply Forall_fmap. unfold last_n. apply Forall_drop.
    eapply Forall_impl; [apply arrivals_room|]. simpl. eauto.
Qed.

(** X3. [DeleteMessagesForRoom] empties the log of that room and of no other,
    and the next message added to the room starts a new log that holds just
    that message. *)
Theorem DeleteMessagesForRoom_clears_one_room (st : Mem * ChatManager)
    (roomID : string) (c : call) :
  reachable growslice st → c_room c = roomID →
  let cm1 := DeleteMessagesForRoom st.2 roomID in
  let st2 := step growslice (st.1, cm1) (OpAdd c) in
  history st.1 cm1 roomID = [] ∧
  (∀ r, r ≠ roomID → history st.1 cm1 r = history st.1 st.2 r) ∧
  history st2.1 st2.2 roomID = [Some (message_of c)] ∧
  (∀ r, r ≠ roomID → history st2.1 st2.2 r = history st.1 st.2 r).
Proof.
  intros Hreach Hc. subst roomID. set (roomID := c_room c).
  pose proof (chat_reachable_wf growslice growslice_ge st Hreach) as Hwf.
  destruct st as [h cm]. simpl in *.
  assert (history h (DeleteMessagesForRoom cm roomID) roomID = []) as Hgone.
  { unfold history, room_slice. simpl. by rewrite lookup_delete_eq. }
  assert (∀ r, r ≠ roomID →
            history h (DeleteMessagesForRoom cm roomID) r = history h cm r)
    as Hkept.
  { intros r Hr. unfold history, room_slice. simpl.
    by rewrite lookup_delete_ne. }
  pose proof (wf_delete h cm roomID Hwf) as Hwf1.
  destruct (AddMessage_spec growslice growslice_ge (c_uuid c) (c_now c) h
              (DeleteMessagesForRoom cm roomID) (c_room c) (c_user c)
              (c_username c) (c_content c) Hwf1)
    as (_ & _ & Hsame & Hother).
  cbv zeta. unfold step. cbn [fst snd]. fold roomID.
  split; [done|]. split; [done|]. split.
  - fold roomID in Hsame. rewrite Hsame, Hgone. done.
  - intros r Hr. rewrite Hother by done. by apply Hkept.
Qed.

(** X4. [AddMessage] returns a pointer to the message it built from its
    arguments; that message is the newest entry of the room's log, the log
    grows by one entry while it holds fewer than 100, and the log of every
    other room is unchanged. *)
Theorem AddMessage_returns_newest (st : Mem * ChatManager) (uuid : string)
    (now : Time) (roomID userID username content : string) :
  reachable growslice st →
  let res := AddMessage growslice uuid now st.1 st.2 roomID userID username
                        content in
  let m := mkMessage uuid roomID userID username content now in
  deref res.1.1 res.2 = Some m ∧
  last (history res.1.1 res.1.2 roomID) = Some (Some m) ∧
  (length (history st.1 st.2 roomID) < 100 →
   history res.1.1 res.1.2 roomID = history st.1 st.2 roomID ++ [Some m]) ∧
  (∀ r, r ≠ roomID → history res.1.1 res.1.2 r = history st.1 st.2 r).
Proof.
  intros Hreach.
  pose proof (chat_reachable_wf growslice growslice_ge st Hreach) as Hwf.
  destruct (AddMessage_spec growslice growslice_ge uuid now st.1 st.2 roomID
              userID username content Hwf) as (_ & Hp & Hsame & Hother).
  cbv zeta. split; [done|]. split; [|split; [|done]].
  - rewrite Hsame. unfold last_n. rewrite length_app. simpl.
    rewrite drop_app_le by lia. by rewrite last_snoc.
  - intros Hlt. rewrite Hsame. apply last_n_short. rewrite length_app.
    simpl. lia.
Qed.

End WithRuntime.

(** X5. A negative [count] makes [GetRecentMessages] panic ([make] with a
    negative length), whatever the state; with [count = 0] in a reachable
    state it returns an empty slice. *)
Theorem GetRecentMessages_edge_counts (growslice : nat → nat → nat)
    (st : Mem * ChatManager) (roomID : string) :
  (∀ oldcap needed, needed ≤ growslice oldcap needed) →
  reachable growslice st →
  (∀ count, (count < 0)%Z →
            GetRecentMessages st.1 st.2 roomID count = None) ∧
  (∃ h' res, GetRecentMessages st.1 st.2 roomID 0 = Some (h', res) ∧
             elems h' res = []).
Proof.
  intros Hge Hreach. split.
  - intros count Hneg. unfold GetRecentMessages.
    rewrite decide_False by lia. by rewrite decide_True.
  - pose proof (chat_reachable_wf growslice Hge st Hreach) as Hwf.
    destruct (GetRecentMessages_spec st.1 st.2 roomID 0 Hwf)
      as (h' & res & Hget & _ & Hel & _); [lia|].
    exists h', res. split; [done|]. rewrite Hel. unfold last_n. simpl.
    rewrite Nat.sub_0_r. apply drop_all.
Qed.

Lemma GetMessages_whole_log_copy_witness :
  let st := run double_growslice (OpAdd <$> sample_calls "standup" 3) in
  let res := GetMessages st.1 st.2 "standup" in
  deref res.1 <$> elems res.1 res.2 = history st.1 st.2 "standup" ∧
  (∀ r, history res.1 st.2 r = history st.1 st.2 r).
Proof.
  intros st res.
  destruct (GetMessages_whole_log_copy double_growslice double_growslice_ge
              st "standup") as (H1 & H2 & _).
  - by exists (OpAdd <$> sample_calls "standup" 3).
  - split; [exact H1|exact H2].
Defined.

Lemma chat_log_bounded_and_tagged_witness :
  let st := run double_growslice (OpAdd <$> sample_calls "standup" 120) in
  length (history st.1 st.2 "standup") ≤ 100 ∧
  Forall (λ e, ∃ m, e = Some m ∧ RoomID m = "standup")
         (history st.1 st.2 "standup").
Proof.
  intros st.
  apply (chat_log_bounded_and_tagged double_growslice double_growslice_ge).
  by exists (OpAdd <$> sample_calls "standup" 120).
Defined.

Lemma DeleteMessagesForRoom_clears_one_room_witness :
  let st := run double_growslice (OpAdd <$> sample_calls "standup" 3) in
  let c := mkCall "uuid" 7%Z "standup" "u1" "alice" "again" in
  let cm1 := DeleteMessagesForRoom st.2 "standup" in
  let st2 := step double_growslice (st.1, cm1) (OpAdd c) in
  history st.1 cm1 "standup" = [] ∧
  history st2.1 st2.2 "standup" = [Some (message_of c)].
Proof.
  intros st c cm1 st2.
  destruct (DeleteMessagesForRoom_clears_one_room double_growslice
              double_growslice_ge st "standup" c) as (H1 & _ & H3 & _).
  - by exists (OpAdd <$> sample_calls "standup" 3).
  - reflexivity.
  - split; [exact H1|exact H3].
Defined.

Lemma AddMessage_returns_newest_witness :
  let st := run double_growslice (OpAdd <$> sample_calls "standup" 3) in
  let res := AddMessage double_growslice "uuid" 7%Z st.1 st.2 "standup" "u1"
                        "alice" "again" in
  deref res.1.1 res.2 =
    Some (mkMessage "uuid" "standup" "u1" "alice" "again" 7%Z).
Proof.
  intros st res.
  apply (AddMessage_returns_newest double_growslice double_growslice_ge st).
  by exists (OpAdd <$> sample_calls "standup" 3).
Defined.

Lemma GetRecentMessages_edge_counts_witness :
  let st := run double_growslice (OpAdd <$> sample_calls "standup" 3) in
  GetRecentMessages st.1 st.2 "standup" (-1) = None.
Proof.
  intros st.
  destruct (GetRecentMessages_edge_counts double_growslice st "standup")
    as [Hneg _].
  - apply double_growslice_ge.
  - by exists (OpAdd <$> sample_calls "standup" 3).
  - apply Hneg. lia.
Defined.

End chat_props.

(* ===================================================================== *)
(** * Further properties of package recording *)
(* ===================================================================== *)
Module recording_props.
Import recording recording_facts.

Section WithFilepath.
Variable filepath_Join : string → string → string.

#[local] Abbreviation recording_filename :=
  (recording.recording_filename filepath_Join).
#[local] Abbreviation StartRecording := (recording.StartRecording filepath_Join).
#[local] Abbreviation step := (recording.step filepath_Join).
#[local] Abbreviation run := (recording.run filepath_Join).
#[local] Abbreviation reachable := (recording.reachable filepath_Join).

Lemma basePath_step st o : basePath (step st o).2 = basePath st.2.
Proof.
  destruct st as [h r]. destruct o; simpl.
  - unfold recording.StartRecording. by destruct created.
  - unfold StopRecording. destruct (recordings r !! recordingID); [|done].
    by destruct (Active _).
  - done.
  - unfold DeleteRecording. destruct (recordings r !! recordingID); [|done].
    by destruct removed.
Qed.

Lemma basePath_run base ops : basePath (run base ops).2 = base.
Proof.
  unfold run. induction ops as [|o ops IH] using rev_ind; [done|].
  by rewrite foldl_snoc, basePath_step.
Qed.

(** Registered recordings carry their key as [ID] and the file name derived
    from it. *)
Lemma names_step st o :
  wf st.1 st.2 →
  (∀ id p rec, recordings st.2 !! id = Some p → st.1 !! p = Some rec →
     ID rec = id ∧
     Filename rec = recording_filename (basePath st.2) (RoomID rec) id) →
  ∀ id p rec,
    recordings (step st o).2 !! id = Some p → (step st o).1 !! p = Some rec →
    ID rec = id ∧
    Filename rec = recording_filename (basePath (step st o).2) (RoomID rec) id.
Proof.
  destruct st as [h r]. intros [Hval Hinj] Hnames id p rec.
  rewrite basePath_step. simpl in *.
  destruct o as [roomID uuid now created|id0 now|roomID|id0 removed]; simpl.
  - assert ((StartRecording uuid now created h r roomID).1 =
            (h ++ [mkRecording uuid roomID
                     (recording_filename (basePath r) roomID uuid)
                     now zero_time true],
             mkRecorder (<[uuid := length h]> (recordings r)) (basePath r)))
      as -> by (unfold recording.StartRecording; by destruct created).
    simpl. rewrite lookup_insert. case_decide as Hid.
    + subst id. intros [= <-]. rewrite lookup_app_r, Nat.sub_diag by done.
      by intros [= <-].
    + intros Hp. rewrite lookup_app_l by (by eapply Hval). by apply Hnames.
  - unfold StopRecording.
    destruct (recordings r !! id0) as [p0|] eqn:Hp0; simpl; [|by apply Hnames].
    destruct (Active (h !!! p0)); cbn [negb fst snd]; [|by apply Hnames].
    intros Hp. destruct (decide (p = p0)) as [->|Hne].
    + pose proof (Hval _ _ Hp0) as Hlt.
      destruct (lookup_lt_is_Some_2 h p0 Hlt) as [rec0 Hrec0].
      rewrite (list_lookup_total_correct h p0 rec0 Hrec0).
      rewrite list_lookup_insert_eq by done. intros [= <-]. simpl.
      by apply (Hnames id p0 rec0).
    + rewrite list_lookup_insert_ne by done. by apply Hnames.
  - intros Hp. unfold ListRecordings. simpl.
    rewrite lookup_app_l by (by eapply Hval). by apply Hnames.
  - unfold DeleteRecording.
    destruct (recordings r !! id0) as [p0|]; [|by apply Hnames].
    destruct removed; simpl; [|by apply Hnames].
    intros [_ Hp]%lookup_delete_Some. by apply Hnames.
Qed.

(** X6. In every reachable state each registered recording carries its
    registry key as [ID], and its [Filename] is what [filepath.Join] made of
    the base path and [<RoomID>_<ID>.webm]; this is the path
    [GetRecordingFilePath] returns for it, with a nil error. *)
Theorem recording_names_derived (st : Heap * Recorder) (recordingID : string)
    (rec : Recording) :
  reachable st →
  recording_at st.1 st.2 recordingID = Some rec →
  ID rec = recordingID ∧
  Filename rec =
    recording_filename (basePath st.2) (RoomID rec) recordingID ∧
  GetRecordingFilePath st.1 st.2 recordingID =
    (recording_filename (basePath st.2) (RoomID rec) recordingID, nil).
Proof.
  intros (base & ops & <-).
  assert (wf (run base ops).1 (run base ops).2 ∧
          ∀ id p rec, recordings (run base ops).2 !! id = Some p →
            (run base ops).1 !! p = Some rec →
            ID rec = id ∧
            Filename rec =
              recording_filename (basePath (run base ops).2) (RoomID rec) id)
    as [Hwf Hnames].
  { unfold run. induction ops as [|o ops [IHwf IH]] using rev_ind.
    - split; [apply wf_new|]. intros id p rec0. simpl.
      by rewrite lookup_empty.
    - rewrite foldl_snoc. split; [by apply recorder_step_wf|].
      by apply names_step. }
  unfold recording_at, GetRecordingFilePath.
  destruct (recordings (run base ops).2 !! recordingID) as [p|] eqn:Hp;
    simpl; [|done].
  intros Hrec. destruct (Hnames _ _ _ Hp Hrec) as [Hid Hfile].
  rewrite (list_lookup_total_correct _ _ _ Hrec). by rewrite Hfile.
Qed.

(** X7. [StartRecording] registers the recording before it creates the file:
    whatever [os.Create] returns, the registry afterwards holds an active
    recording under the new identifier, with the file name [filepath.Join]
    made of the base path and [<roomID>_<uuid>.webm], start time [now] and a
    zero end time.  The call returns a nil pointer and an
    error exactly when the file could not be created, and every recording
    registered under another identifier is untouched. *)
Theorem StartRecording_registers_first (st : Heap * Recorder)
    (uuid roomID : string) (now : Time) (created : error) :
  reachable st →
  let res := StartRecording uuid now created st.1 st.2 roomID in
  let rec := mkRecording uuid roomID
               (recording_filename (basePath st.2) roomID uuid)
               now zero_time true in
  recording_at res.1.1 res.1.2 uuid = Some rec ∧
  (created = nil →
   res.2.2 = nil ∧ ∃ p, res.2.1 = Some p ∧ res.1.1 !! p = Some rec) ∧
  (∀ err, created = Errorf err →
   res.2 = (None, Errorf ("failed to create recording file: " +:+ err))) ∧
  (∀ id, id ≠ uuid →
     recording_at res.1.1 res.1.2 id = recording_at st.1 st.2 id).
Proof.
  intros Hreach. destruct (recorder_reachable_wf _ st Hreach) as [Hval Hinj].
  destruct st as [h r]. simpl in *. unfold recording_at.
  assert (∀ id, id ≠ uuid →
            <[uuid := length h]> (recordings r) !! id ≫=
              (λ p, (h ++ [mkRecording uuid roomID
                             (recording_filename (basePath r) roomID uuid)
                             now zero_time true]) !! p)
            = recordings r !! id ≫= (λ p, h !! p)) as Hother.
  { intros id Hne. rewrite lookup_insert_ne by done.
    destruct (recordings r !! id) as [p|] eqn:Hp; simpl; [|done].
    apply lookup_app_l. by eapply Hval. }
  unfold recording.StartRecording. destruct created as [|err]; simpl.
  - rewrite lookup_insert_eq. simpl.
    rewrite lookup_app_r, Nat.sub_diag by done. simpl.
    split; [done|]. split; [|split; [done|done]].
    intros _. split; [done|]. exists (length h). split; [done|].
    by rewrite lookup_app_r, Nat.sub_diag.
  - rewrite lookup_insert_eq. simpl.
    rewrite lookup_app_r, Nat.sub_diag by done. simpl.
    split; [done|]. split; [done|]. split; [|done].
    by intros err' [= <-].
Qed.

Lemma StartRecording_state uuid now created h r roomID :
  (StartRecording uuid now created h r roomID).1 =
    (h ++ [mkRecording uuid roomID
             (recording_filename (basePath r) roomID uuid) now zero_time true],
     mkRecorder (<[uuid := length h]> (recordings r)) (basePath r)).
Proof. unfold recording.StartRecording. by destruct created. Qed.

Lemma StopRecording_active now (h : Heap) r id p rec :
  recordings r !! id = Some p → h !! p = Some rec → Active rec = true →
  StopRecording now h r id =
    (<[p := mkRecording (ID rec) (RoomID rec) (Filename rec) (StartedAt rec)
                        now false]> h, r, nil).
Proof.
  intros Hp Hrec Hact. unfold StopRecording.
  by rewrite Hp, (list_lookup_total_correct h p rec Hrec), Hact.
Qed.

Lemma StopRecording_inactive now (h : Heap) r id p rec :
  recordings r !! id = Some p → h !! p = Some rec → Active rec = false →
  StopRecording now h r id =
    (h, r, Errorf ("recording is not active: " +:+ id)).
Proof.
  intros Hp Hrec Hact. unfold StopRecording.
  by rewrite Hp, (list_lookup_total_correct h p rec Hrec), Hact.
Qed.

(** X8. A recording that was just started can be stopped once: the first
    [StopRecording] returns nil and leaves it inactive with [EndedAt] set,
    also when creating its file had failed; a second one returns the error
    "recording is not active" and changes nothing.  This holds in every
    state, reachable or not. *)
Theorem start_stop_stop (st : Heap * Recorder) (uuid roomID : string)
    (now1 now2 now3 : Time) (created : error) :
  let st1 := (StartRecording uuid now1 created st.1 st.2 roomID).1 in
  let stop1 := StopRecording now2 st1.1 st1.2 uuid in
  let stop2 := StopRecording now3 stop1.1.1 stop1.1.2 uuid in
  stop1.2 = nil ∧
  recording_at stop1.1.1 stop1.1.2 uuid =
    Some (mkRecording uuid roomID
            (recording_filename (basePath st.2) roomID uuid) now1 now2 false) ∧
  stop2 = (stop1.1, Errorf ("recording is not active: " +:+ uuid)).
Proof.
  destruct st as [h r]. cbv zeta. cbn [fst snd].
  rewrite StartRecording_state. cbn [fst snd].
  set (rec := mkRecording uuid roomID
                (recording_filename (basePath r) roomID uuid)
                now1 zero_time true).
  set (r1 := mkRecorder (<[uuid := length h]> (recordings r)) (basePath r)).
  assert (recordings r1 !! uuid = Some (length h)) as Hp
    by apply lookup_insert_eq.
  assert ((h ++ [rec]) !! length h = Some rec) as Hrec
    by (by rewrite lookup_app_r, Nat.sub_diag).
  rewrite (StopRecording_active now2 (h ++ [rec]) r1 uuid (length h) rec Hp
             Hrec eq_refl).
  cbn [fst snd ID RoomID Filename StartedAt rec].
  set (rec2 := mkRecording uuid roomID
                 (recording_filename (basePath r) roomID uuid)
                 now1 now2 false).
  assert (<[length h := rec2]> (h ++ [rec]) !! length h = Some rec2) as Hrec2.
  { apply list_lookup_insert_eq. rewrite length_app. simpl. lia. }
  split; [done|]. split.
  - unfold recording_at. rewrite Hp. exact Hrec2.
  - by rewrite (StopRecording_inactive now3 _ r1 uuid (length h) rec2 Hp
                  Hrec2 eq_refl).
Qed.

(** X9. [DeleteRecording] on an unknown identifier returns "recording not
    found", and when the file cannot be removed it returns that error; in both
    cases the registry is unchanged.  When the file is removed the identifier
    leaves the registry: [GetRecording] no longer finds it, [StopRecording]
    reports "recording not found", and every other identifier keeps its
    recording. *)
Theorem DeleteRecording_outcomes (h : Heap) (r : Recorder)
    (recordingID : string) (removed : error) :
  let res := DeleteRecording removed h r recordingID in
  (recordings r !! recordingID = None →
   res = (r, Errorf ("recording not found: " +:+ recordingID))) ∧
  (∀ err, is_Some (recordings r !! recordingID) → removed = Errorf err →
   res = (r, Errorf ("failed to delete recording file: " +:+ err))) ∧
  (is_Some (recordings r !! recordingID) → removed = nil →
   res.2 = nil ∧
   GetRecording res.1 recordingID = (None, false) ∧
   (∀ now, StopRecording now h res.1 recordingID =
           (h, res.1, Errorf ("recording not found: " +:+ recordingID))) ∧
   (∀ id, id ≠ recordingID →
          recording_at h res.1 id = recording_at h r id)).
Proof.
  cbv zeta. unfold DeleteRecording. split; [|split].
  - by intros ->.
  - intros err [p ->] ->. done.
  - intros [p ->] ->. simpl. split; [done|].
    unfold GetRecording, StopRecording, recording_at. simpl.
    rewrite lookup_delete_eq. split; [done|]. split; [done|].
    intros id Hne. by rewrite lookup_delete_ne.
Qed.

Lemma lookup_app_seq {A} (h l : list A) :
  (λ q, (h ++ l) !! q) <$> seq (length h) (length l) = Some <$> l.
Proof.
  apply list_eq. intros i. rewrite !list_lookup_fmap.
  destruct (decide (i < length l)) as [Hi|Hi].
  - rewrite lookup_seq_lt by done. simpl.
    rewrite lookup_app_r by lia.
    replace (length h + i - length h) with i by lia.
    destruct (lookup_lt_is_Some_2 l i Hi) as [x Hx]. by rewrite Hx.
  - rewrite lookup_seq_ge by lia. simpl.
    rewrite lookup_ge_None_2; [done|lia].
Qed.

(** X10. [ListRecordings] returns pointers to fresh objects, each a copy of a
    registered recording of the room, and every registered recording of the
    room has a copy among them.  The registry and its recordings are
    unchanged by the call, and overwriting a returned copy changes no
    registered recording. *)
Theorem ListRecordings_copies (st : Heap * Recorder) (roomID : string) :
  reachable st →
  let res := ListRecordings st.1 st.2 roomID in
  (∀ rec, Some rec ∈ (λ q, res.1 !! q) <$> res.2 ↔
          ∃ id, recording_at st.1 st.2 id = Some rec ∧ RoomID rec = roomID) ∧
  Forall (λ q, length st.1 ≤ q < length res.1) res.2 ∧
  NoDup res.2 ∧
  (∀ id, recording_at res.1 st.2 id = recording_at st.1 st.2 id) ∧
  (∀ q x id, q ∈ res.2 →
     recording_at (<[q := x]> res.1) st.2 id = recording_at st.1 st.2 id).
Proof.
  intros Hreach. destruct (recorder_reachable_wf _ st Hreach) as [Hval Hinj].
  destruct st as [h r]. cbv zeta. unfold ListRecordings. simpl in *.
  set (found := filter (λ rec, RoomID rec = roomID)
                       ((λ kv, h !!! kv.2) <$> map_to_list (recordings r))).
  assert (∀ id p, recordings r !! id = Some p →
            (h ++ found) !! p = h !! p) as Hold.
  { intros id p Hp. apply lookup_app_l. by eapply Hval. }
  split; [|split; [|split; [|split]]].
  - intros rec. rewrite lookup_app_seq. rewrite list_elem_of_fmap. split.
    + intros (rec' & [= <-] & Hin). unfold found in Hin.
      apply list_elem_of_filter in Hin as [Hroom Hin].
      apply list_elem_of_fmap in Hin as ([id p] & -> & Hkv).
      apply elem_of_map_to_list in Hkv. simpl in *.
      exists id. split; [|done]. unfold recording_at. rewrite Hkv. simpl.
      destruct (lookup_lt_is_Some_2 h p (Hval _ _ Hkv)) as [rec Hrec].
      by rewrite (list_lookup_total_correct _ _ _ Hrec).
    + intros (id & Hrec & Hroom). unfold recording_at in Hrec.
      destruct (recordings r !! id) as [p|] eqn:Hp; simpl in Hrec; [|done].
      exists rec. split; [done|]. unfold found.
      apply list_elem_of_filter. split; [done|].
      apply list_elem_of_fmap. exists (id, p). simpl.
      split; [by rewrite (list_lookup_total_correct _ _ _ Hrec)|].
      by apply elem_of_map_to_list.
  - apply Forall_forall. intros q Hq%elem_of_seq. rewrite length_app. lia.
  - apply NoDup_seq.
  - intros id. unfold recording_at.
    destruct (recordings r !! id) as [p|] eqn:Hp; simpl; [|done]. eauto.
  - intros q x id Hq%elem_of_seq. unfold recording_at.
    destruct (recordings r !! id) as [p|] eqn:Hp; simpl; [|done].
    pose proof (Hval _ _ Hp). rewrite list_lookup_insert_ne by lia. eauto.
Qed.

End WithFilepath.

Lemma sample_reachable ops :
  reachable sample_Join (run sample_Join "recordings" ops).
Proof. by exists "recordings", ops. Qed.

Lemma recording_names_derived_witness :
  let st := run sample_Join "recordings" [OpStart "room_1" "rec-a" 5%Z nil] in
  GetRecordingFilePath st.1 st.2 "rec-a" =
    (recording_filename sample_Join "recordings" "room_1" "rec-a", nil).
Proof.
  intros st.
  pose proof (recording_names_derived sample_Join st "rec-a"
                (mkRecording "rec-a" "room_1" "recordings/room_1_rec-a.webm"
                             5%Z zero_time true)
                (sample_reachable _)) as H.
  destruct H as (_ & _ & Hpath); [vm_compute; reflexivity|]. exact Hpath.
Defined.

Lemma StartRecording_registers_first_witness :
  let st := run sample_Join "recordings" [OpStart "room_1" "rec-a" 5%Z nil] in
  let res := StartRecording sample_Join "rec-b" 6%Z (Errorf "disk full")
                            st.1 st.2 "room_1" in
  recording_at res.1.1 res.1.2 "rec-b" =
    Some (mkRecording "rec-b" "room_1"
            (recording_filename sample_Join "recordings" "room_1" "rec-b")
            6%Z zero_time true) ∧
  recording_at res.1.1 res.1.2 "rec-a" = recording_at st.1 st.2 "rec-a".
Proof.
  intros st res.
  destruct (StartRecording_registers_first sample_Join st "rec-b" "room_1" 6%Z
              (Errorf "disk full") (sample_reachable _))
    as (Hnew & _ & _ & Hother).
  split; [exact Hnew|]. by apply Hother.
Defined.

Lemma ListRecordings_copies_witness :
  let st := run sample_Join "recordings"
              [OpStart "room_1" "rec-a" 5%Z nil;
               OpStart "room_2" "rec-b" 6%Z nil] in
  let res := ListRecordings st.1 st.2 "room_1" in
  NoDup res.2 ∧
  (∀ id, recording_at res.1 st.2 id = recording_at st.1 st.2 id).
Proof.
  intros st res.
  destruct (ListRecordings_copies sample_Join st "room_1"
              (sample_reachable _))
    as (_ & _ & Hnd & Hsame & _).
  split; [exact Hnd|exact Hsame].
Defined.

End recording_props.

(* ===================================================================== *)
(** * Further properties of package server *)
(* ===================================================================== *)
Module server_props.
Import server server_ext server_facts.

Section Effects.
Context {any ICECandidate : Type}.
Variable ToJSON : ICECandidate → any.
Variable time_Now : nat → Time.
Variable ValidateJWT : string → option Claims.

#[local] Abbreviation ServerT := (Server.t any).
Implicit Types s : ServerT.

(** What one step does to the registry, the rooms, the metrics and the clock:
    nothing, or it creates a room, or it changes the clients of one room by
    deleting a key or by inserting a client under a new identifier. *)
Lemma step_effect s s' :
  step ToJSON time_Now ValidateJWT s s' →
  (Server.Rooms s' = Server.Rooms s ∧
   Server.room_store s' = Server.room_store s ∧
   Server.metrics s' = Server.metrics s ∧
   Server.ticks s ≤ Server.ticks s') ∨
  (∃ name userID,
     Server.Rooms s' =
       <[room_id_of (time_Now (Server.ticks s)) := length (Server.room_store s)]>
         (Server.Rooms s) ∧
     Server.room_store s' =
       Server.room_store s ++
       [Room.mk (room_id_of (time_Now (Server.ticks s))) name userID ∅
                (time_Now (S (Server.ticks s))) true] ∧
     Server.metrics s' =
       Metrics.SetRoomsActive (size (Server.Rooms s'))
         (Metrics.IncrementRoomsCreated (Server.metrics s)) ∧
     Server.ticks s' = S (S (Server.ticks s))) ∨
  (∃ room r clients',
     Server.room_store s !! room = Some r ∧
     Server.Rooms s' = Server.Rooms s ∧
     Server.room_store s' =
       <[room := Room.with_Clients clients' r]> (Server.room_store s) ∧
     Server.metrics s' =
       Metrics.SetRoomParticipants (Room.ID r) (size clients')
                                   (Server.metrics s) ∧
     Server.ticks s ≤ Server.ticks s' ∧
     ((∃ k, clients' = delete k (Room.Clients r)) ∨
      (∃ client,
         clients' =
           <[client_id_of (time_Now (Server.ticks s)) := client]>
             (Room.Clients r) ∧
         Server.ticks s' = S (S (Server.ticks s))))).
Proof.
  assert (∀ s0 : ServerT,
            Server.Rooms s0 = Server.Rooms s0 ∧
            Server.room_store s0 = Server.room_store s0 ∧
            Server.metrics s0 = Server.metrics s0 ∧
            Server.ticks s0 ≤ Server.ticks s0) as Hrefl by (by intros).
  intros Hstep. destruct Hstep as
    [c rq s s' resp Hserve
    |conn room client candidate order r s s' Hcb Hr Hperm Hice
    |conn room client kind s Hcb
    |conn room client state s s' Hcb Hstate
    |ch m s s' Hrecv].
  - (* a request *)
    revert Hserve. unfold serve, authMiddleware.
    case_decide; [intros [= <- <-]; by left|].
    destruct (ValidateJWT _) as [claims|]; [|intros [= <- <-]; by left].
    generalize (gin.Set_ "username" (claims_Username claims)
                  (gin.Set_ "user_id" (claims_UserID claims) c)).
    intros c'. destruct rq as [body|body newPC|body]; simpl.
    + unfold createRoomHandler.
      destruct (gin.Keys c' !! "user_id") as [userID|]; simpl; [|done].
      destruct (gin.Keys c' !! "username") as [username|]; simpl; [|done].
      destruct (bind_one "Name" body) as [err|name].
      { intros [= <- <-]. by left. }
      intros [= <- <-]. right. left. exists name, userID. by simpl.
    + unfold joinRoomHandler.
      destruct (gin.Keys c' !! "user_id") as [userID|]; simpl; [|done].
      destruct (gin.Keys c' !! "username") as [username|]; simpl; [|done].
      destruct (bind_one "RoomID" body) as [err|roomID].
      { intros [= <- <-]. by left. }
      destruct (Server.Rooms s !! roomID) as [room|] eqn:Hroom.
      2:{ intros [= <- <-]. by left. }
      destruct newPC; simpl.
      2:{ intros [= <- <-]. by left. }
      destruct (Server.room_store s !! room) as [r|] eqn:Hr; simpl; [|done].
      intros [= <- <-]. right. right. eexists room, r, _. simpl.
      split; [done|]. split; [done|]. split; [done|]. split; [done|].
      split; [lia|]. right. eexists. split; [reflexivity|done].
    + intros Hleave.
      destruct (leaveRoomHandler_inv _ _ _ _ _ Hleave) as [[-> _]|[_ Hok]];
        [by left|].
      destruct Hok as (roomID & clientID & room & r & client & ch & q & Hbind &
                     Hroom & Hr & Hclient & Hsig & Hq & Hcl & HR & Hrs & _ &
                     _ & Ht & _).
      right. right. exists room, r, (delete clientID (Room.Clients r)).
      split; [done|]. split; [done|]. split; [done|]. split; [|split; [lia|]].
      2:{ left. by exists clientID. }
      revert Hleave. unfold leaveRoomHandler.
      destruct (gin.Keys c' !! "user_id"); simpl; [|done].
      rewrite Hbind, Hroom. simpl. rewrite Hr. simpl. rewrite Hclient.
      set (s1 := match Client.Conn client with
                 | Some conn => Conn_Close conn s
                 | None => s
                 end).
      assert (Server.metrics s1 = Server.metrics s ∧
              Server.chan_store s1 = Server.chan_store s) as [Hm1 Hc1]
        by (unfold s1; by destruct (Client.Conn client)).
      unfold close. rewrite Hsig. simpl. rewrite Hc1, Hq. simpl.
      rewrite Hcl. simpl. intros [= <- _]. simpl. by rewrite Hm1.
  - (* an ICE candidate *)
    left. destruct candidate as [cand|]; simpl in Hice;
      [|injection Hice as <-; apply Hrefl].
    pose proof (broadcast_frame _ _ _ _ _ _ _ Hice) as (? & ? & _ & ? & ? & _).
    done.
  - left. simpl. auto.
  - (* a connection state change *)
    revert Hstate. unfold OnConnectionStateChange.
    destruct state; simpl; try (intros [= <-]; left; simpl; by auto).
    all: destruct (Server.room_store s !! room) as [r|] eqn:Hr; simpl; [|done].
    all: intros [= <-]; right; right.
    all: exists room, r, (delete (Client.ID client) (Room.Clients r)); simpl.
    all: do 4 (split; [done|]).
    all: split; [lia|]; left; by eexists.
  - (* a receive *)
    left. revert Hrecv. unfold receive.
    destruct (Server.chan_store s !! ch) as [q|]; simpl; [|done].
    destruct (Chan.buf q); [done|]. intros [= _ <-]. simpl. auto.
Qed.

Lemma with_Clients_lookup (store : list Room.t) room r clients p r0 :
  store !! room = Some r → store !! p = Some r0 →
  ∃ r1, <[room := Room.with_Clients clients r]> store !! p = Some r1 ∧
        Room.ID r1 = Room.ID r0 ∧
        (p ≠ room → r1 = r0) ∧ (p = room → Room.Clients r1 = clients).
Proof.
  intros Hr Hp. destruct (decide (p = room)) as [->|Hne].
  - rewrite list_lookup_insert_eq by (by eapply lookup_lt_Some).
    eexists. split; [done|]. simpl. split; [congruence|]. by split.
  - rewrite list_lookup_insert_ne by done. exists r0. by repeat split.
Qed.

Lemma registered_with_Clients s s' room r clients p k c :
  Server.room_store s !! room = Some r →
  Server.room_store s' =
    <[room := Room.with_Clients clients r]> (Server.room_store s) →
  registered s' p k c →
  (p = room ∧ clients !! k = Some c) ∨ (p ≠ room ∧ registered s p k c).
Proof.
  intros Hr Hs' (r' & Hr' & Hk). rewrite Hs' in Hr'.
  destruct (decide (p = room)) as [->|Hne].
  - rewrite list_lookup_insert_eq in Hr' by (by eapply lookup_lt_Some).
    injection Hr' as <-. left. by split.
  - rewrite list_lookup_insert_ne in Hr' by done. right. split; [done|].
    by exists r'.
Qed.

(** The bookkeeping that holds in every reachable state. *)
Lemma reachable_bookkeeping s :
  reachable ToJSON time_Now ValidateJWT s →
  registry_ok s ∧ client_ids_ok time_Now s ∧
  Metrics.RoomsCreatedTotal (Server.metrics s) = length (Server.room_store s) ∧
  Metrics.RoomsActive (Server.metrics s) = size (Server.Rooms s).
Proof.
  induction 1 as [|s s' Hreach (Hreg & Hids & Hcount & Hactive) Hstep].
  { split; [|split; [|done]].
    - intros id p. simpl. by rewrite lookup_empty.
    - by intros p k c (r & Hr & _). }
  destruct (step_effect s s' Hstep)
    as [(HR & Hrs & Hm & Ht)
       |[(name & userID & HR & Hrs & Hm & Ht)
        |(room & r & clients' & Hr & HR & Hrs & Hm & Ht & Hkind)]].
  - (* nothing changed *)
    split; [|split; [|by rewrite Hm, Hrs, HR]].
    + intros id p. rewrite HR, Hrs. apply Hreg.
    + intros p k c. unfold registered. rewrite Hrs. intros H.
      destruct (Hids p k c H) as (n & Hn & ->). exists n. split; [lia|done].
  - (* a room was created *)
    split; [|split; [|split]].
    + intros id p. rewrite HR, Hrs, lookup_insert. case_decide as Hid.
      * intros [= <-]. eexists.
        split; [by rewrite lookup_app_r, Nat.sub_diag|]. done.
      * intros Hp. destruct (Hreg _ _ Hp) as (r & Hr & Hidr).
        exists r. split; [|done]. by apply lookup_app_l_Some.
    + intros p k c (r & Hr & Hk). rewrite Hrs in Hr.
      apply lookup_app_Some in Hr as [Hr|[_ Hr]].
      * destruct (Hids p k c) as (n & Hn & ->); [by exists r|].
        exists n. split; [lia|done].
      * apply list_lookup_singleton_Some in Hr as [_ <-]. done.
    + rewrite Hm, Hrs, length_app. simpl. lia.
    + by rewrite Hm.
  - (* the clients of one room changed *)
    split; [|split; [|split]].
    + intros id p. rewrite HR, Hrs. intros Hp.
      destruct (Hreg _ _ Hp) as (r0 & Hr0 & Hid0).
      destruct (with_Clients_lookup _ room r clients' p r0 Hr Hr0)
        as (r1 & Hr1 & Hid1 & _). exists r1. split; [done|congruence].
    + intros p k c Hpkc.
      assert (registered s p k c ∨
              k = client_id_of (time_Now (Server.ticks s)) ∧
              Server.ticks s < Server.ticks s') as [Hold|[-> Hlt]].
      { destruct (registered_with_Clients s s' room r clients' p k c Hr Hrs
                    Hpkc) as [[-> Hk]|[_ Hold]]; [|by left].
        destruct Hkind as [[k0 ->]|(client & -> & Ht')].
        - apply lookup_delete_Some in Hk as [_ Hk]. left. by exists r.
        - apply lookup_insert_Some in Hk as [[<- _]|[_ Hk]].
          + right. split; [done|lia].
          + left. by exists r. }
      * destruct (Hids p k c Hold) as (n & Hn & ->). exists n.
        split; [lia|done].
      * by exists (Server.ticks s).
    + rewrite Hm, Hrs, length_insert. done.
    + rewrite Hm, HR. done.
Qed.


(** What [joinRoomHandler] answers and stores when it answers 200. *)
Lemma joinRoomHandler_ok body newPC c s s' resp :
  joinRoomHandler time_Now body newPC c s = Some (s', resp) →
  gin.code resp = StatusOK →
  ∃ roomID room r userID username,
    gin.Keys c !! "user_id" = Some userID ∧
    gin.Keys c !! "username" = Some username ∧
    bind_one "RoomID" body = inr roomID ∧
    Server.Rooms s !! roomID = Some room ∧
    Server.room_store s !! room = Some r ∧
    let client :=
      Client.mk (client_id_of (time_Now (Server.ticks s))) userID username
                (Some (length (Server.conn_store s))) None
                (Some (length (Server.chan_store s)))
                (time_Now (S (Server.ticks s))) false "" in
    resp = gin.JSON StatusOK
             (<["message" := "Joined room successfully"]>
              (<["room_id" := Room.ID r]>
               {["client_id" := Client.ID client]})) ∧
    Server.room_store s' =
      <[room := Room.with_Clients
                  (<[Client.ID client := client]> (Room.Clients r)) r]>
        (Server.room_store s) ∧
    Server.chan_store s' = Server.chan_store s ++ [Chan.mk [] 100 false] ∧
    Server.conn_store s' =
      Server.conn_store s ++
      [webrtc.mkPeerConnection false (Some (room, client))].
Proof.
  unfold joinRoomHandler.
  destruct (gin.Keys c !! "user_id") as [userID|]; simpl; [|done].
  destruct (gin.Keys c !! "username") as [username|]; simpl; [|done].
  destruct (bind_one "RoomID" body) as [err|roomID].
  { by intros [= <- <-]. }
  destruct (Server.Rooms s !! roomID) as [room|] eqn:Hroom.
  2:{ by intros [= <- <-]. }
  destruct newPC; simpl.
  2:{ by intros [= <- <-]. }
  destruct (Server.room_store s !! room) as [r|] eqn:Hr; simpl; [|done].
  intros [= <- <-] _. exists roomID, room, r, userID, username. simpl.
  do 8 (split; [done|]).
  rewrite alter_app_r_alt, Nat.sub_diag by done. done.
Qed.

(** ** Requests never panic *)

(** X11. In a reachable state no request to a room route panics, whatever the
    context, the token and the body: the middleware and the handler behind it
    always return a response. *)
Theorem serve_never_panics s c rq :
  reachable ToJSON time_Now ValidateJWT s →
  is_Some (serve time_Now ValidateJWT c rq s).
Proof.
  intros Hreach. pose proof (reachable_wf _ _ _ s Hreach) as Hwf.
  unfold serve, authMiddleware. case_decide; [by eexists|].
  destruct (ValidateJWT _) as [claims|]; [|by eexists].
  set (c' := gin.Set_ _ _ _).
  assert (gin.Keys c' !! "user_id" = Some (claims_UserID claims)) as Huid.
  { unfold c'. simpl. rewrite lookup_insert_ne by done.
    apply lookup_insert_eq. }
  assert (gin.Keys c' !! "username" = Some (claims_Username claims)) as Huser
    by apply lookup_insert_eq.
  clearbody c'. destruct rq as [body|body newPC|body]; simpl.
  - unfold createRoomHandler. rewrite Huid, Huser. simpl.
    destruct (bind_one "Name" body); by eexists.
  - unfold joinRoomHandler. rewrite Huid, Huser. simpl.
    destruct (bind_one "RoomID" body) as [err|roomID]; [by eexists|].
    destruct (Server.Rooms s !! roomID) as [room|] eqn:Hroom; [|by eexists].
    destruct newPC; simpl; [|by eexists].
    destruct (lookup_lt_is_Some_2 (Server.room_store s) room) as [r Hr];
      [by apply (wf_rooms _ _ Hwf roomID)|].
    rewrite Hr. simpl. by eexists.
  - unfold leaveRoomHandler. rewrite Huid. simpl.
    destruct (bind_leave body) as [err|[roomID clientID]]; [by eexists|].
    destruct (Server.Rooms s !! roomID) as [room|] eqn:Hroom; [|by eexists].
    destruct (lookup_lt_is_Some_2 (Server.room_store s) room) as [r Hr];
      [by apply (wf_rooms _ _ Hwf roomID)|].
    rewrite Hr. simpl.
    destruct (Room.Clients r !! clientID) as [client|] eqn:Hclient;
      [|by eexists].
    destruct (wf_open _ _ Hwf room clientID client)
      as (ch & q & Hsig & Hq & Hcl); [by exists r|].
    set (s1 := match Client.Conn client with
               | Some conn => Conn_Close conn s
               | None => s
               end).
    assert (Server.chan_store s1 = Server.chan_store s) as Hc1
      by (unfold s1; by destruct (Client.Conn client)).
    unfold close. rewrite Hsig. simpl. rewrite Hc1, Hq. simpl.
    rewrite Hcl. simpl. by eexists.
Qed.

(** ** Metrics *)



(** ** Listing rooms *)

(** X14. In a reachable state [listRoomsHandler] answers with one summary per
    entry of the registry, in the order the range visited them: the summary
    carries the identifier the room is registered under, the room's name,
    creator, creation time and active flag, and as participant count the
    number of clients in its client map; no room is listed twice. *)
Theorem listRoomsHandler_lists_registry s (order : list (string * nat)) :
  reachable ToJSON time_Now ValidateJWT s →
  order ≡ₚ map_to_list (Server.Rooms s) →
  ∃ rooms,
    listRoomsHandler order s = Some rooms ∧
    id <$> rooms = order.*1 ∧
    NoDup (id <$> rooms) ∧
    (∀ rid, rid ∈ id <$> rooms ↔ is_Some (Server.Rooms s !! rid)) ∧
    (∀ sm, sm ∈ rooms →
       ∃ room r, Server.Rooms s !! id sm = Some room ∧
         Server.room_store s !! room = Some r ∧
         sm = mkRoomSummary (Room.ID r) (Room.Name r) (Room.CreatorID r)
                            (size (Room.Clients r)) (Room.CreatedAt r)
                            (Room.IsActive r)).
Proof.
  intros Hreach Hperm.
  destruct (reachable_bookkeeping s Hreach) as (Hreg & _).
  assert (∀ kv, kv ∈ order → Server.Rooms s !! kv.1 = Some kv.2) as Hin.
  { intros [k p]. rewrite Hperm. apply elem_of_map_to_list. }
  assert (∃ rooms, listRoomsHandler order s = Some rooms ∧
            Forall2 (λ kv sm, ∃ r, Server.room_store s !! kv.2 = Some r ∧
                       Room.ID r = kv.1 ∧
                       sm = mkRoomSummary (Room.ID r) (Room.Name r)
                              (Room.CreatorID r) (size (Room.Clients r))
                              (Room.CreatedAt r) (Room.IsActive r))
                    order rooms) as (rooms & Hlist & Hall).
  { unfold listRoomsHandler. clear Hperm.
    induction order as [|kv order IH]; [by exists []|].
    destruct IH as (rooms & Hrooms & Hall);
      [intros kv' Hkv'; apply Hin; by right|].
    destruct (Hreg kv.1 kv.2) as (r & Hr & Hid); [apply Hin; by left|].
    eexists (_ :: rooms). simpl. rewrite Hr. simpl.
    unfold listRoomsHandler in Hrooms. rewrite Hrooms. simpl.
    split; [done|]. constructor; [|done]. by exists r. }
  exists rooms. split; [done|].
  assert (id <$> rooms = order.*1) as Hids.
  { clear Hlist Hin Hperm. induction Hall as [|kv sm order rooms H _ IH];
      [done|]. destruct H as (r & _ & Hid & ->).
    rewrite !fmap_cons. f_equal; [by simpl|exact IH]. }
  split; [done|]. split; [|split].
  - rewrite Hids, Hperm. apply NoDup_fst_map_to_list.
  - intros rid. rewrite Hids, Hperm. rewrite list_elem_of_fmap. split.
    + intros ([k p] & -> & Hkp%elem_of_map_to_list). by exists p.
    + intros [p Hp]. exists (rid, p). split; [done|].
      by apply elem_of_map_to_list.
  - intros sm Hsm.
    destruct (proj1 (list_elem_of_lookup rooms sm) Hsm) as [i Hi].
    destruct (Forall2_lookup_r _ _ _ _ _ Hall Hi)
      as (kv & Hkv & r & Hr & Hid & ->).
    exists kv.2, r. simpl. split; [|done]. rewrite Hid. apply Hin.
    by apply (list_elem_of_lookup_2 order i).
Qed.

(** ** Joining and leaving *)

(** X15. When no two clock readings are equal, a join that answers 200 in a
    reachable state adds a participant and replaces none: the identifier it
    answers with was not in the room's client map, the map afterwards is the
    old one with the new client under that identifier (one entry more), and
    the client owns a new, empty, open channel of capacity 100 and a new
    connection whose callbacks are bound to the room and the client. *)
Theorem joinRoomHandler_adds_participant body newPC c s s' resp :
  (∀ m n, time_Now m = time_Now n → m = n) →
  reachable ToJSON time_Now ValidateJWT s →
  joinRoomHandler time_Now body newPC c s = Some (s', resp) →
  gin.code resp = StatusOK →
  ∃ room r client ch conn,
    Server.room_store s !! room = Some r ∧
    gin.H resp !! "room_id" = Some (Room.ID r) ∧
    gin.H resp !! "client_id" = Some (Client.ID client) ∧
    Room.Clients r !! Client.ID client = None ∧
    Room.Clients <$> Server.room_store s' !! room
      = Some (<[Client.ID client := client]> (Room.Clients r)) ∧
    size (<[Client.ID client := client]> (Room.Clients r))
      = S (size (Room.Clients r)) ∧
    Client.Signal client = Some ch ∧
    Server.chan_store s !! ch = None ∧
    Server.chan_store s' !! ch = Some (Chan.mk [] 100 false) ∧
    Client.Conn client = Some conn ∧
    Server.conn_store s !! conn = None ∧
    callbacks s' conn = Some (room, client).
Proof.
  intros Hclock Hreach Hjoin Hcode.
  destruct (reachable_bookkeeping s Hreach) as (_ & Hids & _).
  destruct (joinRoomHandler_ok _ _ _ _ _ _ Hjoin Hcode)
    as (roomID & room & r & userID & username & _ & _ & _ & _ & Hr & H).
  cbv zeta in H. set (client := Client.mk _ _ _ _ _ _ _ _ _) in H.
  destruct H as (-> & Hrs & Hch & Hcs).
  assert (Room.Clients r !! Client.ID client = None) as Hfree.
  { destruct (Room.Clients r !! Client.ID client) as [c0|] eqn:Hc0; [|done].
    destruct (Hids room (Client.ID client) c0) as (n & Hn & Heq);
      [by exists r|].
    simpl in Heq. apply client_id_of_inj, Hclock in Heq. lia. }
  exists room, r, client, (length (Server.chan_store s)),
         (length (Server.conn_store s)).
  split; [done|]. split; [|split; [|split; [done|split; [|split]]]].
  - simpl. rewrite lookup_insert_ne by done. apply lookup_insert_eq.
  - simpl. rewrite !lookup_insert_ne by done. apply lookup_singleton_eq.
  - rewrite Hrs, list_lookup_insert_eq by (by eapply lookup_lt_Some). done.
  - by apply map_size_insert_None.
  - split; [done|]. split; [by apply lookup_ge_None_2|]. split.
    { rewrite Hch. by rewrite lookup_app_r, Nat.sub_diag. }
    split; [done|]. split; [by apply lookup_ge_None_2|].
    unfold callbacks. rewrite Hcs. by rewrite lookup_app_r, Nat.sub_diag.
Qed.

(** X16. A leave that answers 200 in a reachable state closes the Signal
    channel of the leaving client, which was open, and keeps its pending
    events; it touches no other channel, removes that client's entry and no
    other from the client maps, and no client that remains registered uses
    the closed channel. *)
Theorem leaveRoomHandler_closes_own_channel body c s s' resp :
  reachable ToJSON time_Now ValidateJWT s →
  leaveRoomHandler body c s = Some (s', resp) →
  gin.code resp = StatusOK →
  ∃ room clientID client ch q,
    registered s room clientID client ∧
    Client.Signal client = Some ch ∧
    Server.chan_store s !! ch = Some q ∧ Chan.closed q = false ∧
    Server.chan_store s' !! ch = Some (Chan.mk (Chan.buf q) (Chan.cap q) true) ∧
    (∀ ch', ch' ≠ ch →
            Server.chan_store s' !! ch' = Server.chan_store s !! ch') ∧
    (∀ p k c', registered s' p k c' ↔
               registered s p k c' ∧ ¬ (p = room ∧ k = clientID)) ∧
    (∀ p k c', registered s' p k c' → Client.Signal c' ≠ Some ch).
Proof.
  intros Hreach Hleave Hcode.
  pose proof (reachable_wf _ _ _ s Hreach) as Hwf.
  assert (wf time_Now s') as Hwf'.
  { by apply (wf_leaveRoomHandler time_Now body c s s' resp). }
  destruct (leaveRoomHandler_inv _ _ _ _ _ Hleave) as [[_ Hne]|[_ H]];
    [done|].
  destruct H as (roomID & clientID & room & r & client & ch & q & _ & _ &
                 Hr & Hclient & Hsig & Hq & Hcl & _ & Hrs & Hch & _).
  exists room, clientID, client, ch, q.
  split; [by exists r|]. do 3 (split; [done|]). split; [|split; [|split]].
  - rewrite Hch. apply list_lookup_insert_eq. by eapply lookup_lt_Some.
  - intros ch' Hne. rewrite Hch. by apply list_lookup_insert_ne.
  - by apply (registered_delete s s' room r clientID).
  - intros p k c' Hreg Hsig'.
    destruct (wf_open _ _ Hwf' _ _ _ Hreg) as (ch' & q' & Hs & Hq' & Hcl').
    assert (ch' = ch) as -> by congruence.
    rewrite Hch, list_lookup_insert_eq in Hq' by (by eapply lookup_lt_Some).
    injection Hq' as <-. done.
Qed.

(** ** Identity *)

(** X17. Behind the middleware the handlers act for the user of the validated
    token, whatever keys the context held before: the room a create-room
    request stores has that user as creator, and the client a join-room
    request registers carries that user's id and name. *)
Theorem handlers_use_token_identity s c claims :
  (if decide (gin.Authorization c = "") then gin.token c
   else gin.Authorization c) ≠ "" →
  ValidateJWT (if decide (gin.Authorization c = "") then gin.token c
               else gin.Authorization c) = Some claims →
  (∀ body s' resp,
     serve time_Now ValidateJWT c (CreateRoom body) s = Some (s', resp) →
     gin.code resp = StatusOK →
     ∃ r, last (Server.room_store s') = Some r ∧
          gin.H resp !! "room_id" = Some (Room.ID r) ∧
          gin.H resp !! "name" = Some (Room.Name r) ∧
          Room.CreatorID r = claims_UserID claims) ∧
  (∀ body newPC s' resp,
     serve time_Now ValidateJWT c (JoinRoom body newPC) s = Some (s', resp) →
     gin.code resp = StatusOK →
     ∃ room k client,
       registered s' room k client ∧
       gin.H resp !! "client_id" = Some k ∧
       Client.UserID client = claims_UserID claims ∧
       Client.Username client = claims_Username claims).
Proof.
  intros Htok Hval.
  set (c' := gin.Set_ "username" (claims_Username claims)
               (gin.Set_ "user_id" (claims_UserID claims) c)).
  assert (gin.Keys c' !! "user_id" = Some (claims_UserID claims)) as Huid.
  { unfold c'. simpl. rewrite lookup_insert_ne by done.
    apply lookup_insert_eq. }
  assert (gin.Keys c' !! "username" = Some (claims_Username claims)) as Huser
    by apply lookup_insert_eq.
  assert (∀ rq, serve time_Now ValidateJWT c rq s =
                handler time_Now rq c' s) as Hserve.
  { intros rq. unfold serve, authMiddleware.
    rewrite decide_False by done. by rewrite Hval. }
  clearbody c'. split.
  - intros body s' resp. rewrite Hserve. simpl. intros Hcreate Hcode.
    destruct (createRoomHandler_inv _ _ _ _ _ _ Hcreate)
      as [(_ & Hbad & _)|(name & userID & _ & Huid' & H)].
    { rewrite Hbad in Hcode. done. }
    cbv zeta in H. destruct H as (-> & _ & Hrs & _).
    eexists. rewrite Hrs, last_snoc. split; [done|]. simpl.
    split; [|split; [|congruence]].
    + rewrite lookup_insert_ne by done. apply lookup_insert_eq.
    + rewrite !lookup_insert_ne by done. apply lookup_singleton_eq.
  - intros body newPC s' resp. rewrite Hserve. simpl. intros Hjoin Hcode.
    destruct (joinRoomHandler_ok _ _ _ _ _ _ Hjoin Hcode)
      as (roomID & room & r & userID & username & Huid' & Huser' & _ & _ &
          Hr & H).
    cbv zeta in H. set (client := Client.mk _ _ _ _ _ _ _ _ _) in H.
    destruct H as (-> & Hrs & _).
    exists room, (Client.ID client), client. split; [|split; [|split]].
    + eexists. split.
      * rewrite Hrs. apply list_lookup_insert_eq. by eapply lookup_lt_Some.
      * simpl. apply lookup_insert_eq.
    + simpl. rewrite !lookup_insert_ne by done. apply lookup_singleton_eq.
    + simpl. congruence.
    + simpl. congruence.
Qed.

(** ** A peer that does not drain its channel *)

Lemma fan_outs_wf room client r events s :
  wf time_Now s →
  Server.room_store s !! room = Some r →
  Forall (λ ev, ev.2 ≡ₚ map_to_list (Room.Clients r)) events →
  ∃ s',
    fan_outs ToJSON time_Now room client events s = Some s' ∧
    Server.room_store s' = Server.room_store s ∧
    Server.metrics s' = Server.metrics s ∧
    Server.ticks s ≤ Server.ticks s' ∧
    ∀ k c ch q,
      Room.Clients r !! k = Some c → k ≠ Client.ID client →
      Client.Signal c = Some ch → Server.chan_store s !! ch = Some q →
      ∃ q' ns, Server.chan_store s' !! ch = Some q' ∧
        Chan.buf q' =
          Chan.buf q ++
          zip_with (λ ev n, ice_message ToJSON time_Now client ev.1 n)
                   (take (100 - length (Chan.buf q)) events) ns ∧
        length ns = length events `min` (100 - length (Chan.buf q)) ∧
        Forall (λ n, Server.ticks s ≤ n < Server.ticks s') ns.
Proof.
  revert s. induction events as [|[cand order] events IH]; intros s Hwf Hr Hall.
  { exists s. do 3 (split; [done|]). split; [lia|]. intros k c ch q _ _ _ Hq.
    exists q, []. split; [done|]. rewrite take_nil. simpl.
    rewrite app_nil_r. done. }
  apply Forall_cons in Hall as [Hperm Hall]. simpl in Hperm.
  destruct (range_ready time_Now s room r order Hwf Hr Hperm)
    as (Hin & Hopen & Hnd).
  destruct (broadcast_spec ToJSON time_Now client cand order s Hopen Hnd)
    as (s1 & lines & Hb & _ & _ & Hentries).
  pose proof (broadcast_frame _ _ _ _ _ _ _ Hb)
    as (_ & Hrs1 & _ & Hm1 & Ht1 & _).
  assert (wf time_Now s1) as Hwf1.
  { by apply (wf_OnICECandidate ToJSON time_Now room client (Some cand) order s). }
  destruct (IH s1 Hwf1) as (s' & Hfan & Hrs' & Hm' & Ht' & Hrest);
    [by rewrite Hrs1|done|].
  exists s'. simpl. rewrite Hb. simpl.
  split; [done|]. split; [congruence|]. split; [congruence|]. split; [lia|].
  intros k c ch q Hkc Hk Hsig Hq.
  destruct (wf_chan _ _ Hwf _ _ Hq) as [Hcap Hlen].
  destruct (Hentries k c ch q (proj2 (Hin k c) Hkc) Hk Hsig Hq)
    as [[Hroom (n & Hn & Hq1)]|(Hfull & Hq1 & _)].
  - (* there was room: this event is kept, then the earliest of the rest *)
    destruct (Hrest k c ch _ Hkc Hk Hsig Hq1)
      as (q' & ns & Hq' & Hbuf & Hlenns & Hns).
    simpl in Hbuf, Hlenns. rewrite length_app in Hbuf, Hlenns.
    simpl in Hbuf, Hlenns.
    exists q', (n :: ns). split; [done|].
    replace (100 - length (Chan.buf q)) with
      (S (100 - (length (Chan.buf q) + 1))) by lia.
    split; [|split].
    + rewrite Hbuf. simpl. by rewrite <- (assoc_L (++)).
    + simpl. rewrite Hlenns. lia.
    + constructor; [lia|]. eapply Forall_impl; [exact Hns|]. simpl. lia.
  - (* the channel was full: nothing more is kept *)
    destruct (Hrest k c ch _ Hkc Hk Hsig Hq1)
      as (q' & ns & Hq' & Hbuf & Hlenns & Hns).
    exists q', ns.
    replace (100 - length (Chan.buf q)) with 0 in * by lia.
    split; [done|]. split; [|split].
    + by rewrite Hbuf.
    + lia.
    + eapply Forall_impl; [exact Hns|]. simpl. lia.
Qed.

(** X18. When no two clock readings are equal and a client fans out a series
    of candidates in a reachable state while nobody drains the channels, no
    call panics, and every other client registered in the room keeps the
    events that were pending, followed by the events of the earliest
    candidates of the series, in their order, as many as fit below 100
    pending events; the events of the later candidates are dropped.  Each
    kept event carries the candidate's data, the sender's identifier and a
    clock reading taken during the series.  The rooms and the metrics are
    unchanged. *)
Theorem fan_outs_keep_oldest s conn room client r events :
  (∀ m n, time_Now m = time_Now n → m = n) →
  reachable ToJSON time_Now ValidateJWT s →
  callbacks s conn = Some (room, client) →
  Server.room_store s !! room = Some r →
  Forall (λ ev, ev.2 ≡ₚ map_to_list (Room.Clients r)) events →
  ∃ s',
    fan_outs ToJSON time_Now room client events s = Some s' ∧
    Server.room_store s' = Server.room_store s ∧
    Server.metrics s' = Server.metrics s ∧
    ∀ k c ch q,
      Room.Clients r !! k = Some c → c ≠ client →
      Client.Signal c = Some ch → Server.chan_store s !! ch = Some q →
      ∃ q' ns, Server.chan_store s' !! ch = Some q' ∧
        Chan.buf q' =
          Chan.buf q ++
          zip_with (λ ev n, ice_message ToJSON time_Now client ev.1 n)
                   (take (100 - length (Chan.buf q)) events) ns ∧
        length ns = length events `min` (100 - length (Chan.buf q)) ∧
        Forall (λ n, Server.ticks s ≤ n < Server.ticks s') ns.
Proof.
  intros Hclock Hreach Hcb Hr Hall.
  destruct (fan_outs_wf room client r events s) as
    (s' & Hfan & Hrs & Hm & _ & Hpeers); [|done|done|].
  { by apply (reachable_wf ToJSON time_Now ValidateJWT). }
  exists s'. do 3 (split; [done|]).
  intros k c ch q Hkc Hne. apply (Hpeers k c ch q Hkc).
  by apply (other_client_other_key ToJSON time_Now ValidateJWT
              s conn room client r k c).
Qed.

End Effects.

(** ** Concrete runs *)

Lemma serve_never_panics_witness :
  is_Some (serve ticking_clock sample_ValidateJWT sample_context
                 (LeaveRoom (gin.Decoded ("room_0", "client_4")))
                 sample_state).
Proof.
  apply (serve_never_panics sample_ToJSON ticking_clock sample_ValidateJWT).
  apply reachable_sample_state.
Defined.



Lemma listRoomsHandler_lists_registry_witness :
  ∃ rooms,
    listRoomsHandler (map_to_list (Server.Rooms sample_state)) sample_state
      = Some rooms ∧
    id <$> rooms = (map_to_list (Server.Rooms sample_state)).*1.
Proof.
  destruct (listRoomsHandler_lists_registry sample_ToJSON ticking_clock
              sample_ValidateJWT sample_state
              (map_to_list (Server.Rooms sample_state)))
    as (rooms & Hlist & Hids & _).
  - apply reachable_sample_state.
  - reflexivity.
  - exists rooms. split; [exact Hlist|exact Hids].
Defined.

Lemma sample_join :
  ∃ s' resp,
    joinRoomHandler ticking_clock (gin.Decoded "room_0") true
                    sample_authorized sample_state = Some (s', resp) ∧
    gin.code resp = StatusOK.
Proof. vm_compute. eexists _, _. split; reflexivity. Qed.

Lemma joinRoomHandler_adds_participant_witness :
  ∃ s' resp room r client,
    joinRoomHandler ticking_clock (gin.Decoded "room_0") true
                    sample_authorized sample_state = Some (s', resp) ∧
    Server.room_store sample_state !! room = Some r ∧
    gin.H resp !! "client_id" = Some (Client.ID client) ∧
    Room.Clients r !! Client.ID client = None ∧
    size (<[Client.ID client := client]> (Room.Clients r))
      = S (size (Room.Clients r)).
Proof.
  destruct sample_join as (s' & resp & Hjoin & Hcode).
  destruct (joinRoomHandler_adds_participant sample_ToJSON ticking_clock
              sample_ValidateJWT _ _ _ _ _ _ ticking_clock_inj
              reachable_sample_state Hjoin Hcode)
    as (room & r & client & ch & conn & Hr & _ & Hid & Hfree & _ & Hsize & _).
  exists s', resp, room, r, client.
  split; [exact Hjoin|]. split; [exact Hr|]. split; [exact Hid|].
  split; [exact Hfree|exact Hsize].
Defined.

Lemma sample_leave :
  ∃ s' resp,
    leaveRoomHandler (gin.Decoded ("room_0", "client_4")) sample_authorized
                     sample_state = Some (s', resp) ∧
    gin.code resp = StatusOK.
Proof. vm_compute. eexists _, _. split; reflexivity. Qed.

Lemma leaveRoomHandler_closes_own_channel_witness :
  ∃ s' resp room clientID client ch q,
    leaveRoomHandler (gin.Decoded ("room_0", "client_4")) sample_authorized
                     sample_state = Some (s', resp) ∧
    registered sample_state room clientID client ∧
    Client.Signal client = Some ch ∧
    Server.chan_store sample_state !! ch = Some q ∧
    Server.chan_store s' !! ch
      = Some (Chan.mk (Chan.buf q) (Chan.cap q) true) ∧
    (∀ ch', ch' ≠ ch →
       Server.chan_store s' !! ch' = Server.chan_store sample_state !! ch').
Proof.
  destruct sample_leave as (s' & resp & Hleave & Hcode).
  destruct (leaveRoomHandler_closes_own_channel sample_ToJSON ticking_clock
              sample_ValidateJWT _ _ _ _ _ reachable_sample_state Hleave Hcode)
    as (room & clientID & client & ch & q & Hreg & Hsig & Hq & _ & Hq' &
        Hother & _).
  exists s', resp, room, clientID, client, ch, q.
  split; [exact Hleave|]. split; [exact Hreg|]. split; [exact Hsig|].
  split; [exact Hq|]. split; [exact Hq'|exact Hother].
Defined.

Lemma sample_create :
  ∃ s' resp,
    serve (any:=string) ticking_clock sample_ValidateJWT sample_context
          (CreateRoom (gin.Decoded "retro")) sample_state = Some (s', resp) ∧
    gin.code resp = StatusOK.
Proof. vm_compute. eexists _, _. split; reflexivity. Qed.

Lemma handlers_use_token_identity_witness :
  ∃ s' resp r,
    serve (any:=string) ticking_clock sample_ValidateJWT sample_context
          (CreateRoom (gin.Decoded "retro")) sample_state = Some (s', resp) ∧
    last (Server.room_store s') = Some r ∧
    Room.CreatorID r = "u1".
Proof.
  destruct sample_create as (s' & resp & Hcreate & Hcode).
  destruct (handlers_use_token_identity ticking_clock sample_ValidateJWT
              sample_state sample_context (mkClaims "u1" "alice"))
    as [Hc _].
  - discriminate.
  - reflexivity.
  - destruct (Hc _ _ _ Hcreate Hcode) as (r & Hlast & _ & _ & Hcreator).
    exists s', resp, r. split; [exact Hcreate|].
    split; [exact Hlast|exact Hcreator].
Defined.

Lemma fan_outs_keep_oldest_witness :
  let events :=
    replicate 150 ("host", map_to_list (Room.Clients sample_room)) in
  ∃ s' q' ns,
    fan_outs sample_ToJSON ticking_clock 0 sample_sender events sample_state
      = Some s' ∧
    Server.chan_store s' !! 1 = Some q' ∧
    Chan.buf q' =
      zip_with (λ ev n, ice_message sample_ToJSON ticking_clock sample_sender
                                    ev.1 n)
               (take 100 events) ns ∧
    length ns = 100.
Proof.
  intros events.
  destruct (fan_outs_keep_oldest sample_ToJSON ticking_clock
              sample_ValidateJWT sample_state 0 0 sample_sender sample_room
              events) as (s' & Hfan & _ & _ & Hpeers).
  - apply ticking_clock_inj.
  - apply reachable_sample_state.
  - vm_compute. reflexivity.
  - vm_compute. reflexivity.
  - apply Forall_replicate. reflexivity.
  - destruct (Hpeers "client_4" sample_peer 1 (Chan.mk [] 100 false))
      as (q' & ns & Hq' & Hbuf & Hlen & _).
    + vm_compute. reflexivity.
    + discriminate.
    + reflexivity.
    + vm_compute. reflexivity.
    + exists s', q', ns. split; [exact Hfan|]. split; [exact Hq'|].
      split; [exact Hbuf|]. rewrite Hlen. vm_compute. reflexivity.
Defined.

End server_props.

(* ===================================================================== *)
(** * Properties of package auth and of the register and login handlers *)
(* ===================================================================== *)
Module auth_props.
Import auth.

Section Runes.
Local Open Scope Z_scope.

Lemma byte_inj a b : 0 ≤ a < 256 → 0 ≤ b < 256 → byte a = byte b → a = b.
Proof.
  unfold byte. intros Ha Hb Heq.
  apply (f_equal Ascii.N_of_ascii) in Heq.
  rewrite !Ascii.N_ascii_embedding in Heq by lia. lia.
Qed.

(** Setting the marker bits of a UTF-8 byte is an addition. *)
Lemma lor_marker hi n x :
  forallb (λ y, Z.lor hi y =? hi + y) (seqZ 0 n) = true →
  0 ≤ x < n → Z.lor hi x = hi + x.
Proof.
  intros Hall Hx. rewrite forallb_forall in Hall.
  apply Z.eqb_eq, Hall, list_elem_of_In, elem_of_seqZ. lia.
Qed.

Lemma land_63 r : Z.land r 63 = r mod 64.
Proof. change 63 with (Z.ones 6). by rewrite Z.land_ones. Qed.

Lemma shiftr_div r n : 0 ≤ n → Z.shiftr r n = r / 2 ^ n.
Proof. apply Z.shiftr_div_pow2. Qed.

(** The encoding of a valid code point, in arithmetic. *)
Lemma string_of_rune_valid r :
  valid_rune r →
  string_of_rune r =
    if decide (r < 128) then String (byte r) ""
    else if decide (r < 2048) then
      String (byte (192 + r / 64)) (String (byte (128 + r mod 64)) "")
    else if decide (r < 65536) then
      String (byte (224 + r / 4096))
        (String (byte (128 + (r / 64) mod 64))
           (String (byte (128 + r mod 64)) ""))
    else
      String (byte (240 + r / 262144))
        (String (byte (128 + (r / 4096) mod 64))
           (String (byte (128 + (r / 64) mod 64))
              (String (byte (128 + r mod 64)) ""))).
Proof.
  intros [Hr Hs]. unfold string_of_rune.
  rewrite decide_False by lia.
  rewrite !land_63, !shiftr_div by lia.
  change (2 ^ 6) with 64. change (2 ^ 12) with 4096.
  change (2 ^ 18) with 262144.
  repeat case_decide; try done.
  - rewrite (lor_marker 192 64), (lor_marker 128 64); try done.
    + apply Z.mod_pos_bound. lia.
    + split; [apply Z.div_pos; lia|apply Z.div_lt_upper_bound; lia].
  - rewrite (lor_marker 224 32), !(lor_marker 128 64); try done.
    + apply Z.mod_pos_bound. lia.
    + apply Z.mod_pos_bound. lia.
    + split; [apply Z.div_pos; lia|apply Z.div_lt_upper_bound; lia].
  - rewrite (lor_marker 240 16), !(lor_marker 128 64); try done.
    + apply Z.mod_pos_bound. lia.
    + apply Z.mod_pos_bound. lia.
    + apply Z.mod_pos_bound. lia.
    + split; [apply Z.div_pos; lia|apply Z.div_lt_upper_bound; lia].
Qed.

Ltac bytes_eq :=
  repeat match goal with
  | H : String _ _ = String _ _ |- _ => injection H; clear H; intros
  | H : String _ _ = EmptyString |- _ => discriminate H
  | H : EmptyString = String _ _ |- _ => discriminate H
  | H : byte _ = byte _ |- _ =>
      apply byte_inj in H; [|Z.div_mod_to_equations; lia..]
  end.

(** Valid code points have different encodings. *)
Lemma string_of_rune_inj r1 r2 :
  valid_rune r1 → valid_rune r2 →
  string_of_rune r1 = string_of_rune r2 → r1 = r2.
Proof.
  intros H1 H2. rewrite !string_of_rune_valid by done.
  destruct H1 as [H1 _], H2 as [H2 _].
  repeat case_decide; intros Heq; bytes_eq;
    Z.div_mod_to_equations; lia.
Qed.

Lemma string_of_rune_surrogate r :
  55296 ≤ r ≤ 57343 → string_of_rune r = RuneError.
Proof. intros Hr. unfold string_of_rune. by rewrite decide_True by lia. Qed.

Lemma RuneError_valid : RuneError = string_of_rune 65533.
Proof. vm_compute. reflexivity. Qed.

Lemma wrap_small w z : 0 < w → - 2 ^ (w - 1) ≤ z < 2 ^ (w - 1) → wrap w z = z.
Proof.
  intros Hw Hz. unfold wrap.
  assert (2 ^ w = 2 * 2 ^ (w - 1)) as Hpow.
  { rewrite <- Z.pow_succ_r by lia. f_equal. lia. }
  rewrite Z.mod_small by lia. lia.
Qed.

Lemma wrap_succ w z : wrap w (wrap w z + 1) = wrap w (z + 1).
Proof.
  unfold wrap. f_equal.
  replace ((z + 2 ^ (w - 1)) `mod` 2 ^ w - 2 ^ (w - 1) + 1 + 2 ^ (w - 1))
    with ((z + 2 ^ (w - 1)) `mod` 2 ^ w + 1) by lia.
  replace (z + 1 + 2 ^ (w - 1)) with (z + 2 ^ (w - 1) + 1) by lia.
  by rewrite Zplus_mod_idemp_l.
Qed.

End Runes.

Section WithBcrypt.
Variable HashPassword : string → string + string.
Variable CheckPasswordHash : string → string → bool.
Variable GenerateJWT : string → string → string + string.

(** The loop of [RegisterUser] finds a user exactly when the list it ranges
    over holds one with the name or the address. *)
Lemma taken_spec username email order :
  taken username email order = true ↔
  ∃ kv, kv ∈ order ∧ (Username kv.2 = username ∨ Email kv.2 = email).
Proof.
  induction order as [|[k u] rest IH]; simpl.
  - split; [done|]. intros (kv & Hin & _). by apply elem_of_nil in Hin.
  - destruct (decide _) as [Hm|Hm].
    + split; [|done]. intros _. exists (k, u). split; [left|done].
    + rewrite IH. split.
      * intros (kv & Hin & Hkv). exists kv. split; [by right|done].
      * intros (kv & Hin & Hkv).
        apply elem_of_cons in Hin as [->|Hin]; [done|]. by exists kv.
Qed.

Lemma taken_stored st order username email :
  order ≡ₚ map_to_list (users st) →
  taken username email order = true ↔
  ∃ k u, users st !! k = Some u ∧ (Username u = username ∨ Email u = email).
Proof.
  intros Hperm. rewrite taken_spec. split.
  - intros ([k u] & Hin & Hm). exists k, u. split; [|done].
    apply elem_of_map_to_list. by rewrite <- Hperm.
  - intros (k & u & Hk & Hm). exists (k, u). split; [|done].
    rewrite Hperm. by apply elem_of_map_to_list.
Qed.

Lemma find_user_None identifier order :
  find_user identifier order = None ↔
  ∀ kv, kv ∈ order →
        ¬ (Username kv.2 = identifier ∨ Email kv.2 = identifier).
Proof.
  induction order as [|[k u] rest IH]; simpl.
  - split; [|done]. intros _ kv Hin. by apply elem_of_nil in Hin.
  - destruct (decide _) as [Hm|Hm].
    + split; [done|]. intros Hall. destruct (Hall (k, u)); [left|done].
    + rewrite IH. split.
      * intros Hall kv Hin.
        apply elem_of_cons in Hin as [->|Hin]; [done|by apply Hall].
      * intros Hall kv Hin. apply Hall. by right.
Qed.

Lemma find_user_Some identifier order u :
  find_user identifier order = Some u →
  (∃ k, (k, u) ∈ order) ∧ (Username u = identifier ∨ Email u = identifier).
Proof.
  induction order as [|[k v] rest IH]; simpl; [done|].
  destruct (decide _) as [Hm|Hm].
  - intros [= <-]. split; [|done]. exists k. left.
  - intros Hf. destruct (IH Hf) as [[k' Hin] Hmu]. split; [|done].
    exists k'. by right.
Qed.

(** When one user only matches, the loop of [AuthenticateUser] finds it. *)
Lemma find_user_unique identifier order k u :
  (k, u) ∈ order →
  Username u = identifier ∨ Email u = identifier →
  (∀ k' u', (k', u') ∈ order →
     Username u' = identifier ∨ Email u' = identifier → u' = u) →
  find_user identifier order = Some u.
Proof.
  intros Hin Hm Huniq.
  destruct (find_user identifier order) as [v|] eqn:Hf.
  - apply find_user_Some in Hf as [[k' Hin'] Hmv].
    f_equal. by apply (Huniq k').
  - rewrite find_user_None in Hf. by destruct (Hf _ Hin).
Qed.

(** The state after a call of [RegisterUser]. *)
Lemma RegisterUser_state order username email password st :
  let res := RegisterUser HashPassword order username email password st in
  match res.2 with
  | inl _ => res.1 = st
  | inr user =>
      taken username email order = false ∧
      HashPassword password = inr (Password user) ∧
      user = mkUser (string_of_rune (wrap 32 (wrap 64 (idCounter st + 1))))
                    username email (Password user) ∧
      res.1 = mkState (<[ID user := user]> (users st))
                      (wrap 64 (idCounter st + 1))
  end.
Proof.
  unfold RegisterUser. destruct (taken username email order); [done|].
  destruct (HashPassword password) as [err|h]; [done|]. simpl. done.
Qed.

(** X19. [RegisterUser] refuses with "user already exists" when a stored user
    has the username or the e-mail address, whatever the order of the range;
    then, and when hashing fails, it returns the error and changes nothing,
    not even [idCounter].  Otherwise it stores and returns a user with the
    given name and address and the hash as password under the next
    identifier, and every other key keeps its user. *)
Theorem RegisterUser_outcomes st order username email password :
  order ≡ₚ map_to_list (users st) →
  let res := RegisterUser HashPassword order username email password st in
  let exists_already :=
    ∃ k u, users st !! k = Some u ∧
           (Username u = username ∨ Email u = email) in
  (exists_already → res = (st, inl "user already exists")) ∧
  (¬ exists_already →
   match HashPassword password with
   | inl err => res = (st, inl err)
   | inr h =>
       let user :=
         mkUser (string_of_rune (wrap 32 (wrap 64 (idCounter st + 1))))
                username email h in
       res.2 = inr user ∧
       idCounter res.1 = wrap 64 (idCounter st + 1) ∧
       GetUserByID (ID user) res.1 = Some user ∧
       (∀ k, k ≠ ID user → GetUserByID k res.1 = GetUserByID k st)
   end).
Proof.
  intros Hperm res exists_already.
  pose proof (taken_stored st order username email Hperm) as Htaken.
  fold exists_already in Htaken. subst res. unfold RegisterUser.
  destruct (taken username email order) eqn:Ht.
  - assert (exists_already) as Hex by by apply Htaken.
    split; [done|]. by intros [].
  - split; [intros Hex; by apply Htaken in Hex|]. intros _.
    destruct (HashPassword password) as [err|h]; [done|].
    simpl. split; [done|]. split; [done|].
    unfold GetUserByID. simpl. split.
    + by rewrite lookup_insert_eq.
    + intros k Hk. by rewrite lookup_insert_ne.
Qed.



(** A user [AuthenticateUser] returns is stored, has the identifier and
    passes the check. *)
Lemma AuthenticateUser_found st order identifier password user :
  order ≡ₚ map_to_list (users st) →
  AuthenticateUser CheckPasswordHash order identifier password = inr user →
  (∃ k, users st !! k = Some user) ∧
  (Username user = identifier ∨ Email user = identifier) ∧
  CheckPasswordHash password (Password user) = true.
Proof.
  intros Hperm. unfold AuthenticateUser.
  destruct (find_user identifier order) as [u|] eqn:Hf; [|done].
  apply find_user_Some in Hf as [[k Hin] Hm].
  rewrite Hperm in Hin. apply elem_of_map_to_list in Hin.
  destruct (CheckPasswordHash password (Password u)) eqn:Hc; simpl; [|done].
  intros [= <-]. split; [by exists k|done].
Qed.

(** X21. [AuthenticateUser] returns "user not found" exactly when no stored
    user has the identifier as name or as address.  A user it returns is
    stored, has the identifier as name or address, and its stored hash
    passes the check of the password; the only other error is "invalid
    password", returned when a stored user with that identifier fails the
    check. *)
Theorem AuthenticateUser_outcomes st order identifier password :
  order ≡ₚ map_to_list (users st) →
  let res := AuthenticateUser CheckPasswordHash order identifier password in
  let matches u := Username u = identifier ∨ Email u = identifier in
  (res = inl "user not found" ↔
   ∀ k u, users st !! k = Some u → ¬ matches u) ∧
  (∀ u, res = inr u →
     (∃ k, users st !! k = Some u) ∧ matches u ∧
     CheckPasswordHash password (Password u) = true) ∧
  (∀ err, res = inl err →
     err = "user not found" ∨
     (err = "invalid password" ∧
      ∃ k u, users st !! k = Some u ∧ matches u ∧
             CheckPasswordHash password (Password u) = false)).
Proof.
  intros Hperm res matches. subst res. unfold AuthenticateUser.
  destruct (find_user identifier order) as [u|] eqn:Hf.
  - apply find_user_Some in Hf as [[k Hin] Hm].
    rewrite Hperm in Hin. apply elem_of_map_to_list in Hin.
    destruct (CheckPasswordHash password (Password u)) eqn:Hc; simpl.
    + split; [split; [done|]; intros Hno; by destruct (Hno k u)|].
      split; [|done]. intros ? [= <-]. split; [by exists k|done].
    + split; [split; [done|]; intros Hno; by destruct (Hno k u)|].
      split; [done|]. intros ? [= <-]. right. split; [done|].
      by exists k, u.
  - rewrite find_user_None in Hf.
    split; [|split; [done|by left; congruence]].
    split; [|done]. intros _ k u Hk. apply (Hf (k, u)).
    rewrite Hperm. by apply elem_of_map_to_list.
Qed.


(** X23. Nothing keeps the name of one user from being the e-mail address of
    another, and then the range order decides who logs in: when the hash of
    the first passes the check of the password and the hash of the second
    does not, [AuthenticateUser] returns the first user under one order of
    the range and "invalid password" under another. *)
Theorem AuthenticateUser_depends_on_range_order st k1 k2 u1 u2 identifier
    password :
  reachable HashPassword st →
  users st !! k1 = Some u1 → users st !! k2 = Some u2 →
  Username u1 = identifier → Email u2 = identifier →
  CheckPasswordHash password (Password u1) = true →
  CheckPasswordHash password (Password u2) = false →
  ∃ order1 order2,
    order1 ≡ₚ map_to_list (users st) ∧ order2 ≡ₚ map_to_list (users st) ∧
    AuthenticateUser CheckPasswordHash order1 identifier password = inr u1 ∧
    AuthenticateUser CheckPasswordHash order2 identifier password
      = inl "invalid password".
Proof.
  intros _ Hk1 Hk2 Hn He Hc1 Hc2.
  exists ((k1, u1) :: map_to_list (delete k1 (users st))),
         ((k2, u2) :: map_to_list (delete k2 (users st))).
  split; [by apply map_to_list_delete|].
  split; [by apply map_to_list_delete|].
  unfold AuthenticateUser. simpl.
  rewrite !decide_True by auto. by rewrite Hc1, Hc2.
Qed.

(** X24. Registration followed by authentication: when [RegisterUser] has
    stored a user and the hash it stored passes the check of the password,
    [AuthenticateUser] with the user's name and that password returns this
    user under every order of the range, provided no user registered before
    has that name as e-mail address; and likewise with the user's address,
    provided no user registered before has it as name. *)
Theorem register_then_authenticate st order order' username email password
    st' user :
  order ≡ₚ map_to_list (users st) →
  RegisterUser HashPassword order username email password st
    = (st', inr user) →
  CheckPasswordHash password (Password user) = true →
  order' ≡ₚ map_to_list (users st') →
  ((∀ k v, users st !! k = Some v → Email v ≠ username) →
   AuthenticateUser CheckPasswordHash order' username password = inr user) ∧
  ((∀ k v, users st !! k = Some v → Username v ≠ email) →
   AuthenticateUser CheckPasswordHash order' email password = inr user).
Proof.
  intros Hperm HR Hc Hperm'.
  pose proof (RegisterUser_state order username email password st) as Hst.
  simpl in Hst. rewrite HR in Hst. simpl in Hst.
  destruct Hst as (Ht & _ & Hu & ->). simpl in Hperm'.
  assert (Username user = username ∧ Email user = email) as [Hun Hem]
    by by rewrite Hu.
  assert (∀ k v, users st !! k = Some v →
            Username v ≠ username ∧ Email v ≠ email) as Hfresh.
  { intros k v Hk. apply not_true_iff_false in Ht.
    rewrite (taken_stored st) in Ht by done.
    split; intros Heq; apply Ht; exists k, v; split; auto. }
  assert ((ID user, user) ∈ order') as Hin.
  { rewrite Hperm'. apply elem_of_map_to_list. by rewrite lookup_insert_eq. }
  assert (∀ k' u', (k', u') ∈ order' →
            u' = user ∨ users st !! k' = Some u') as Hold.
  { intros k' u'. rewrite Hperm'. intros Hin'.
    apply elem_of_map_to_list in Hin'.
    destruct (decide (k' = ID user)) as [->|Hk'].
    - rewrite lookup_insert_eq in Hin'. left. congruence.
    - rewrite lookup_insert_ne in Hin' by done. by right. }
  unfold AuthenticateUser. split; intros Hcross.
  - rewrite (find_user_unique username order' (ID user) user); [|done|by left|].
    + by rewrite Hc.
    + intros k' u' Hin' Hm. destruct (Hold _ _ Hin') as [|Hk']; [done|].
      destruct (Hfresh _ _ Hk'), Hm; [done|]. by destruct (Hcross _ _ Hk').
  - rewrite (find_user_unique email order' (ID user) user); [|done|by right|].
    + by rewrite Hc.
    + intros k' u' Hin' Hm. destruct (Hold _ _ Hin') as [|Hk']; [done|].
      destruct (Hfresh _ _ Hk'), Hm; [|done]. by destruct (Hcross _ _ Hk').
Qed.

(** One more registration. *)
Lemma users_after_register n st order username email password st' user :
  users_after n st → (Z.of_nat (S n) ≤ 57343)%Z →
  RegisterUser HashPassword order username email password st
    = (st', inr user) →
  users_after (S n) st'.
Proof.
  intros (Hc & Hdom & Hsize) Hn HR.
  pose proof (RegisterUser_state order username email password st) as Hst.
  simpl in Hst. rewrite HR in Hst. simpl in Hst.
  destruct Hst as (_ & _ & Hu & ->).
  assert (wrap 64 (idCounter st + 1) = Z.of_nat (S n)) as Hw64.
  { rewrite Hc. rewrite wrap_small; [lia|lia|].
    change (2 ^ (64 - 1))%Z with 9223372036854775808%Z. lia. }
  assert (ID user = string_of_rune (Z.of_nat (S n))) as Hid.
  { rewrite Hu. simpl. rewrite Hw64. f_equal. rewrite wrap_small; [lia|lia|].
    change (2 ^ (32 - 1))%Z with 2147483648%Z. lia. }
  rewrite Hw64. split; [done|]. simpl. split.
  - intros k. rewrite lookup_insert_is_Some, Hdom. split.
    + intros [<-|[_ (c & Hcn & ->)]].
      * exists (Z.of_nat (S n)). split; [lia|done].
      * exists c. split; [lia|done].
    + intros (c & Hcn & ->).
      destruct (decide (c = Z.of_nat (S n))) as [->|Hne]; [by left|].
      destruct (decide (ID user = string_of_rune c)) as [|Hk]; [by left|].
      right. split; [done|]. exists c. split; [lia|done].
  - destruct (decide (Z.of_nat (S n) ≤ 55296)%Z) as [Hlow|Hhigh].
    + rewrite map_size_insert_None; [lia|].
      apply eq_None_not_Some. rewrite Hdom. intros (c & Hcn & Heq).
      rewrite Hid in Heq.
      destruct (decide (Z.of_nat (S n) = 55296%Z)) as [Hs|Hs].
      * rewrite Hs, (string_of_rune_surrogate 55296), RuneError_valid in Heq
          by lia.
        apply string_of_rune_inj in Heq; [lia| |]; unfold valid_rune; lia.
      * apply string_of_rune_inj in Heq; [lia| |]; unfold valid_rune; lia.
    + rewrite map_size_insert_Some; [lia|].
      rewrite Hdom. exists 55296%Z. split; [lia|].
      rewrite Hid, !string_of_rune_surrogate by lia. done.
Qed.

Lemma bind_register_inr body req :
  bind_register body = inr req →
  body = server.gin.Decoded req ∧
  rb_username req ≠ "" ∧ rb_email req ≠ "" ∧ rb_password req ≠ "".
Proof.
  unfold bind_register, missing. destruct body as [err|r]; [done|].
  repeat case_decide; simpl; try done. by intros [= <-].
Qed.

Lemma bind_login_inr body identifier password :
  bind_login body = inr (identifier, password) →
  body = server.gin.Decoded (identifier, password) ∧
  identifier ≠ "" ∧ password ≠ "".
Proof.
  unfold bind_login, missing. destruct body as [err|[i p]]; [done|].
  repeat case_decide; simpl; try done. by intros [= <- <-].
Qed.

(** The two ways [registerHandler] ends. *)
Lemma registerHandler_cases order body st m :
  let res := registerHandler HashPassword order body (st, m) in
  (res.1 = (st, m) ∧ server.gin.code res.2 = server.StatusBadRequest) ∨
  (∃ req st' user,
     bind_register body = inr req ∧
     RegisterUser HashPassword order (rb_username req) (rb_email req)
                  (rb_password req) st = (st', inr user) ∧
     res = ((st', IncrementUsersRegistered m),
            server.gin.JSON server.StatusOK
              (<["message" := "User registered successfully"]>
               {["user_id" := ID user]}))).
Proof.
  unfold registerHandler. cbn [fst snd].
  destruct (bind_register body) as [err|req] eqn:Hb; [by left|].
  pose proof (RegisterUser_state order (rb_username req) (rb_email req)
                (rb_password req) st) as Hst. cbv zeta in Hst.
  destruct (RegisterUser HashPassword order (rb_username req) (rb_email req)
              (rb_password req) st) as [st' [err|user]] eqn:HR;
    cbn [fst snd] in *.
  - left. by rewrite Hst.
  - right. by exists req, st', user.
Qed.

Lemma UsersRegisteredTotal_iter n m :
  server.Metrics.UsersRegisteredTotal (Nat.iter n IncrementUsersRegistered m)
  = server.Metrics.UsersRegisteredTotal m + n.
Proof. induction n as [|n IH]; simpl; lia. Qed.

(** What a run of register requests does to the counters. *)
Lemma register_all_counts requests st m :
  let res := register_all HashPassword requests (st, m) in
  let ok := length (filter (λ resp, server.gin.code resp = server.StatusOK)
                           res.2) in
  length res.2 = length requests ∧
  Forall (λ resp, server.gin.code resp = server.StatusOK ∨
                  server.gin.code resp = server.StatusBadRequest) res.2 ∧
  res.1.2 = Nat.iter ok IncrementUsersRegistered m ∧
  idCounter res.1.1 = Nat.iter ok (λ c, wrap 64 (c + 1)) (idCounter st) ∧
  size (users res.1.1) ≤ size (users st) + ok.
Proof.
  revert st m. induction requests as [|[order body] rest IH]; intros st m.
  { simpl. repeat split; [constructor|lia]. }
  cbn [register_all].
  pose proof (registerHandler_cases order body st m) as Hcases.
  destruct (registerHandler HashPassword order body (st, m))
    as [[st1 m1] resp] eqn:Hh.
  specialize (IH st1 m1).
  destruct (register_all HashPassword rest (st1, m1))
    as [[st2 m2] responses] eqn:Hrest.
  cbn [fst snd] in *. destruct IH as (Hlen & Hcodes & Hm & Hc & Hsize).
  destruct Hcases as [[[= -> ->] Hcode]|(req & st' & user & _ & HR & [= -> -> ->])].
  - rewrite filter_cons_False by (rewrite Hcode; discriminate).
    split; [simpl; lia|]. split; [constructor; [by right|done]|]. done.
  - rewrite filter_cons_True by done. cbn [length].
    pose proof (RegisterUser_state order (rb_username req) (rb_email req)
                  (rb_password req) st) as Hst.
    simpl in Hst. rewrite HR in Hst. simpl in Hst.
    destruct Hst as (_ & _ & _ & ->). simpl in Hc, Hsize.
    split; [lia|]. split; [constructor; [by left|done]|].
    split; [by rewrite Nat.iter_succ_r|].
    split; [by rewrite Nat.iter_succ_r|].
    pose proof (map_size_insert (ID user) user (users st)) as Hins.
    destruct (users st !! ID user); simpl in Hins; lia.
Qed.

Lemma register_all_users_after requests st m :
  let res := register_all HashPassword requests (st, m) in
  users_after (server.Metrics.UsersRegisteredTotal m) st →
  (Z.of_nat (server.Metrics.UsersRegisteredTotal res.1.2) ≤ 57343)%Z →
  users_after (server.Metrics.UsersRegisteredTotal res.1.2) res.1.1.
Proof.
  revert st m. induction requests as [|[order body] rest IH]; intros st m.
  { simpl. done. }
  cbn [register_all].
  pose proof (registerHandler_cases order body st m) as Hcases.
  destruct (registerHandler HashPassword order body (st, m))
    as [[st1 m1] resp] eqn:Hh.
  specialize (IH st1 m1).
  pose proof (register_all_counts rest st1 m1) as Hcount.
  destruct (register_all HashPassword rest (st1, m1))
    as [[st2 m2] responses] eqn:Hrest.
  cbn [fst snd] in *. destruct Hcount as (_ & _ & Hm2 & _).
  intros Hinv Hn. apply IH; [|done].
  destruct Hcases as [[[= -> ->] _]|(req & st' & user & _ & HR & [= -> -> _])];
    [done|].
  change (server.Metrics.UsersRegisteredTotal (IncrementUsersRegistered m))
    with (S (server.Metrics.UsersRegisteredTotal m)).
  apply (users_after_register _ st order (rb_username req) (rb_email req)
           (rb_password req) st' user); [exact Hinv| |exact HR].
  rewrite Hm2, UsersRegisteredTotal_iter in Hn. simpl in Hn. lia.
Qed.

(** X25. [generateUserID] turns the counter into the UTF-8 encoding of a code
    point, and the counter values 55296 to 57343 are no code points: they all
    give U+FFFD.  So, counting the register requests answered 200 since the
    start of the server, the stored identifiers are the encodings of the
    numbers 1 to [n]; up to [n = 55296] every registered user is stored, and
    each user registered after that (up to number 57343) takes the place of
    the one registered before, the number of stored users staying at
    55296. *)
Theorem registered_users_kept_until_surrogates requests :
  let res :=
    register_all HashPassword requests (init, server.Metrics.init) in
  let n := server.Metrics.UsersRegisteredTotal res.1.2 in
  (Z.of_nat n ≤ 57343)%Z →
  Z.of_nat (size (users res.1.1)) = (Z.of_nat n `min` 55296)%Z ∧
  (∀ k, is_Some (GetUserByID k res.1.1) ↔
        ∃ c, (1 ≤ c ≤ Z.of_nat n)%Z ∧ k = string_of_rune c) ∧
  (∀ c, (55296 ≤ c ≤ Z.of_nat n)%Z → string_of_rune c = RuneError).
Proof.
  intros res n Hn.
  destruct (register_all_users_after requests init server.Metrics.init)
    as (_ & Hdom & Hsize); [|exact Hn|].
  { split; [done|]. split; [|done]. intros k. simpl. rewrite lookup_empty.
    split; [by intros []|]. intros (c & Hc & _). simpl in Hc. lia. }
  split; [exact Hsize|]. split; [exact Hdom|].
  intros c Hc. apply string_of_rune_surrogate. lia.
Qed.

(** X26. Over any series of register requests, every answer is 200 or 400;
    the users-registered counter and [idCounter] advance once per 200 answer
    and not at all on a 400, no other metric changes, and the number of
    stored users grows by at most one per 200 answer. *)
Theorem registerHandler_counts_registrations requests st m :
  let res := register_all HashPassword requests (st, m) in
  let ok := length (filter (λ resp, server.gin.code resp = server.StatusOK)
                           res.2) in
  length res.2 = length requests ∧
  Forall (λ resp, server.gin.code resp = server.StatusOK ∨
                  server.gin.code resp = server.StatusBadRequest) res.2 ∧
  res.1.2 = Nat.iter ok IncrementUsersRegistered m ∧
  idCounter res.1.1 = Nat.iter ok (λ c, wrap 64 (c + 1)) (idCounter st) ∧
  size (users res.1.1) ≤ size (users st) + ok.
Proof. apply register_all_counts. Qed.

(** X27. [loginHandler] answers 200 only to a stored user: one that has the
    identifier as name or address and whose stored hash passes the check of
    the password; the answer carries that user's identifier and the token
    [GenerateJWT] made for it.  When no stored user with the identifier
    passes the check, the answer is 401 "Invalid credentials", the same
    whether the identifier is unknown or the password is wrong. *)
Theorem loginHandler_answers st order body :
  order ≡ₚ map_to_list (users st) →
  let resp := loginHandler CheckPasswordHash GenerateJWT order body in
  let matches identifier u :=
    Username u = identifier ∨ Email u = identifier in
  (server.gin.code resp = server.StatusOK →
   ∃ identifier password k user token,
     body = server.gin.Decoded (identifier, password) ∧
     identifier ≠ "" ∧ password ≠ "" ∧
     users st !! k = Some user ∧ matches identifier user ∧
     CheckPasswordHash password (Password user) = true ∧
     GenerateJWT (ID user) (Username user) = inr token ∧
     server.gin.H resp = <["message" := "Login successful"]>
                           (<["token" := token]> {["user_id" := ID user]})) ∧
  (∀ identifier password,
     body = server.gin.Decoded (identifier, password) →
     identifier ≠ "" → password ≠ "" →
     (∀ k u, users st !! k = Some u → matches identifier u →
             CheckPasswordHash password (Password u) = false) →
     resp = server.gin.JSON server.StatusUnauthorized
              {["error" := "Invalid credentials"]}).
Proof.
  intros Hperm resp matches.
  pose proof (AuthenticateUser_found st order) as Hfound.
  subst resp. unfold loginHandler. split.
  - destruct (bind_login body) as [err|[identifier password]] eqn:Hb;
      [discriminate|].
    apply bind_login_inr in Hb as (-> & Hi & Hp).
    destruct (AuthenticateUser CheckPasswordHash order identifier password)
      as [err|user] eqn:Ha; [discriminate|].
    destruct (Hfound identifier password user Hperm Ha) as ([k Hk] & Hm & Hc).
    destruct (GenerateJWT (ID user) (Username user)) as [err|token] eqn:Hj;
      [discriminate|].
    intros _. by exists identifier, password, k, user, token.
  - intros identifier password -> Hi Hp Hnone.
    unfold bind_login, missing. rewrite !decide_False by done. simpl.
    destruct (AuthenticateUser CheckPasswordHash order identifier password)
      as [err|user] eqn:Ha; [done|].
    destruct (Hfound identifier password user Hperm Ha) as ([k Hk] & Hm & Hc).
    rewrite (Hnone k user Hk Hm) in Hc. discriminate.
Qed.

End WithBcrypt.

Lemma reachable_sample_first : reachable sample_HashPassword sample_first.
Proof.
  unfold sample_first. apply (reachable_register sample_HashPassword init []).
  - apply reachable_init.
  - simpl. by rewrite map_to_list_empty.
Qed.

Lemma reachable_sample_users : reachable sample_HashPassword sample_users.
Proof.
  unfold sample_users. apply reachable_register; [|reflexivity].
  apply reachable_sample_first.
Qed.

Lemma sample_first_users : users sample_first = {[ID alice := alice]}.
Proof. vm_compute. reflexivity. Qed.

Lemma sample_users_users :
  users sample_users = <[ID bob := bob]> {[ID alice := alice]}.
Proof. vm_compute. reflexivity. Qed.

Lemma sample_first_entries k u :
  users sample_first !! k = Some u → k = ID alice ∧ u = alice.
Proof.
  rewrite sample_first_users. intros Hk.
  by apply lookup_singleton_Some in Hk as [<- <-].
Qed.

Lemma sample_users_entries k u :
  users sample_users !! k = Some u →
  (k = ID alice ∧ u = alice) ∨ (k = ID bob ∧ u = bob).
Proof.
  rewrite sample_users_users. intros Hk.
  apply lookup_insert_Some in Hk as [[<- <-]|[_ Hk]]; [by right|].
  apply lookup_singleton_Some in Hk as [<- <-]. by left.
Qed.

Lemma RegisterUser_outcomes_witness :
  RegisterUser sample_HashPassword (map_to_list (users sample_first))
               "carol" "alice@example.org" "pw" sample_first
  = (sample_first, inl "user already exists").
Proof.
  destruct (RegisterUser_outcomes sample_HashPassword sample_first
              (map_to_list (users sample_first))
              "carol" "alice@example.org" "pw" (reflexivity _)) as [Hex _].
  apply Hex. exists (ID alice), alice.
  split; [vm_compute; reflexivity|by right].
Defined.


Lemma AuthenticateUser_outcomes_witness :
  (∃ k, users sample_users !! k = Some bob) ∧
  (Username bob = "bob" ∨ Email bob = "bob") ∧
  sample_CheckPasswordHash "hunter2" (Password bob) = true.
Proof.
  apply (AuthenticateUser_outcomes sample_CheckPasswordHash sample_users
           (map_to_list (users sample_users)) "bob" "hunter2" (reflexivity _)).
  vm_compute. reflexivity.
Defined.


Lemma AuthenticateUser_depends_on_range_order_witness :
  ∃ order1 order2,
    order1 ≡ₚ map_to_list (users sample_users) ∧
    order2 ≡ₚ map_to_list (users sample_users) ∧
    AuthenticateUser sample_CheckPasswordHash order1 "alice" "secret"
      = inr alice ∧
    AuthenticateUser sample_CheckPasswordHash order2 "alice" "secret"
      = inl "invalid password".
Proof.
  apply (AuthenticateUser_depends_on_range_order sample_HashPassword
           sample_CheckPasswordHash sample_users (ID alice) (ID bob) alice bob
           "alice" "secret").
  - apply reachable_sample_users.
  - vm_compute. reflexivity.
  - vm_compute. reflexivity.
  - reflexivity.
  - reflexivity.
  - vm_compute. reflexivity.
  - vm_compute. reflexivity.
Defined.

Lemma register_then_authenticate_witness :
  AuthenticateUser sample_CheckPasswordHash
    (reverse (map_to_list (users sample_users))) "bob" "hunter2" = inr bob.
Proof.
  destruct (register_then_authenticate sample_HashPassword
              sample_CheckPasswordHash sample_first
              (map_to_list (users sample_first))
              (reverse (map_to_list (users sample_users)))
              "bob" "alice" "hunter2" sample_users bob) as [Hname _].
  - reflexivity.
  - vm_compute. reflexivity.
  - vm_compute. reflexivity.
  - apply reverse_Permutation.
  - apply Hname. intros k v Hk.
    apply sample_first_entries in Hk as [_ ->]. discriminate.
Defined.

Lemma registered_users_kept_until_surrogates_witness :
  let res := register_all sample_HashPassword sample_registrations
                          (init, server.Metrics.init) in
  let n := server.Metrics.UsersRegisteredTotal res.1.2 in
  Z.of_nat (size (users res.1.1)) = (Z.of_nat n `min` 55296)%Z ∧ n = 2.
Proof.
  intros res n.
  destruct (registered_users_kept_until_surrogates sample_HashPassword
              sample_registrations) as [Hsize _].
  - vm_compute. discriminate.
  - split; [exact Hsize|]. vm_compute. reflexivity.
Defined.

Lemma loginHandler_answers_witness :
  loginHandler sample_CheckPasswordHash sample_GenerateJWT
    (map_to_list (users sample_users)) (server.gin.Decoded ("alice", "wrong"))
  = server.gin.JSON server.StatusUnauthorized
      {["error" := "Invalid credentials"]}.
Proof.
  destruct (loginHandler_answers sample_CheckPasswordHash sample_GenerateJWT
              sample_users (map_to_list (users sample_users))
              (server.gin.Decoded ("alice", "wrong")) (reflexivity _))
    as [_ Hrefused].
  apply (Hrefused "alice" "wrong"); [reflexivity|discriminate|discriminate|].
  intros k u Hk _.
  apply sample_users_entries in Hk as [[_ ->]|[_ ->]]; vm_compute; reflexivity.
Defined.

End auth_props.
